(** * open-remote-ssh: the SSH process client and the authority resolver

    A shallow embedding of [src/ssh/sshConnection.ts] (the native OpenSSH
    wrapper, class [SSHConnection]) and of [src/authResolver.ts] (class
    [RemoteSSHResolver]), followed by the properties of the specification
    that were checked against them.

    Conventions of the embedding.
    - A JavaScript [number] that the program uses as a port, a timeout or an
      exit code is an integer and is modelled by [Z]; [undefined] and [null]
      are [None].
    - A string is a [string]; truthiness of a string is non-emptiness,
      truthiness of a number is being non-zero.
    - An asynchronous operation is a handler automaton: the callbacks the
      code registers on a child process become one step function over the
      events Node.js delivers, and a promise is a cell that only its first
      [resolve]/[reject] call changes.
    - [logger.info] calls of [SSHConnection] have no influence on control
      flow and are left out; the resolver's logger is modelled. *)

From Stdlib Require Import ZArith String Ascii List Bool Lia DecimalString.
From stdpp Require Import base option strings gmap list.
Import ListNotations.

(** ** JavaScript values and primitives used by the sources *)

Module JS.

(** [Boolean(s)] for a string. *)
Definition truthy_string (s : string) : bool := negb (String.eqb s "").

(** [Boolean(n)] for an integral number. *)
Definition truthy_number (n : Z) : bool := negb (n =? 0)%Z.

(** Truthiness of a possibly [undefined] value. *)
Definition truthy {A} (t : A → bool) (v : option A) : bool :=
  match v with
  | Some a => t a
  | None => false
  end.

(** [n.toString()] for an integral number. *)
Definition number_toString (n : Z) : string :=
  NilZero.string_of_int (Z.to_int n).

(** A value interpolated in a template literal. *)
Definition tpl_number (v : option Z) : string :=
  match v with
  | Some n => number_toString n
  | None => "undefined"
  end.

Definition tpl_string (v : option string) : string :=
  match v with
  | Some s => s
  | None => "undefined"
  end.

(** An exit code interpolated in a template literal ([null] when the child
    was ended by a signal). *)
Definition tpl_code (v : option Z) : string :=
  match v with
  | Some n => number_toString n
  | None => "null"
  end.

(** [hay.includes(needle)]. *)
Fixpoint includes (needle hay : string) : bool :=
  String.prefix needle hay ||
  match hay with
  | EmptyString => false
  | String _ rest => includes needle rest
  end.

(** [l.join(sep)]. *)
Definition join (sep : string) (l : list string) : string :=
  String.concat sep l.

(** [s.split(c)] for a one-character separator. *)
Fixpoint split (c : ascii) (s : string) : list string :=
  match s with
  | EmptyString => [EmptyString]
  | String a rest =>
      if Ascii.eqb a c then EmptyString :: split c rest
      else match split c rest with
           | [] => [String a EmptyString]
           | w :: ws => String a w :: ws
           end
  end.

(** White space of [String.prototype.trim] among the one-byte characters. *)
Definition is_space (a : ascii) : bool :=
  let n := nat_of_ascii a in
  (Nat.leb 9 n && Nat.leb n 13) || Nat.eqb n 32.

Fixpoint trimStart (s : string) : string :=
  match s with
  | String a rest => if is_space a then trimStart rest else s
  | EmptyString => EmptyString
  end.

Fixpoint trimEnd (s : string) : string :=
  match s with
  | EmptyString => EmptyString
  | String a rest =>
      match trimEnd rest with
      | EmptyString => if is_space a then EmptyString else String a EmptyString
      | r => String a r
      end
  end.

Definition trim (s : string) : string := trimEnd (trimStart s).

(** A thrown value: an [Error] object (of some class, here its [name]) with
    its message, or any other value, kept by its [String(v)] rendering. *)
Inductive Thrown : Type :=
  | ErrorObject (name message : string)
  | OtherValue (rendering : string).

(** [new Error(message)]. *)
Definition Error (message : string) : Thrown := ErrorObject "Error" message.

(** [String(err)], also what a template literal shows
    ([Error.prototype.toString]). *)
Definition String_of (e : Thrown) : string :=
  match e with
  | ErrorObject name message =>
      if String.eqb name "" then message
      else if String.eqb message "" then name
      else name +:+ ": " +:+ message
  | OtherValue r => r
  end.

(** The state of a promise. *)
Inductive Promise (A : Type) : Type :=
  | Pending
  | Fulfilled (v : A)
  | Rejected (e : Thrown).
Arguments Pending {A}.
Arguments Fulfilled {A} v.
Arguments Rejected {A} e.

(** Calling [resolve(v)] or [reject(e)] of a promise executor: only the
    first call settles the promise. *)
Definition call_resolve {A} (v : A) (p : Promise A) : Promise A :=
  match p with
  | Pending => Fulfilled v
  | _ => p
  end.

Definition call_reject {A} (e : Thrown) (p : Promise A) : Promise A :=
  match p with
  | Pending => Rejected e
  | _ => p
  end.

(** An own property of an object: the key is absent, or present with a
    value that may be [undefined]. *)
Inductive OwnProperty (A : Type) : Type :=
  | Absent
  | Present (v : option A).
Arguments Absent {A}.
Arguments Present {A} v.

(** Reading [o.key]. *)
Definition read {A} (p : OwnProperty A) : option A :=
  match p with
  | Absent => None
  | Present v => v
  end.

(** What [Object.assign(target, source)] does to one key: every own key of
    the source is copied, whatever its value. *)
Definition assign_key {A} (target source : OwnProperty A) : OwnProperty A :=
  match source with
  | Absent => target
  | Present v => Present v
  end.

(** The property names of [Object.prototype], which every object written
    [{}] or parsed from JSON inherits: under such a name [object[name]] has
    a value (a function or, for [__proto__], an object) although the
    object holds nothing of its own there. *)
Definition Object_prototype : list string :=
  [ "constructor"; "__defineGetter__"; "__defineSetter__"; "hasOwnProperty";
    "__lookupGetter__"; "__lookupSetter__"; "isPrototypeOf";
    "propertyIsEnumerable"; "toString"; "valueOf"; "__proto__";
    "toLocaleString" ].

End JS.

(** ** [sshConnection.ts]: configuration and argument building *)

Module SSHConnection.
Import JS.

(** [interface SSHConnectConfig]: [host] is the one required key. *)
Record SSHConnectConfig : Type := {
  host : string;
  port : OwnProperty Z;
  username : OwnProperty string;
  identity : OwnProperty string;
  connectTimeout : OwnProperty Z;
  sshOptions : OwnProperty (list string)
}.

(** The optional keys, as [Partial<SSHConnectConfig>] objects without
    [host] carry them. *)
Record PartialConfig : Type := {
  p_port : OwnProperty Z;
  p_username : OwnProperty string;
  p_identity : OwnProperty string;
  p_connectTimeout : OwnProperty Z;
  p_sshOptions : OwnProperty (list string)
}.

(** [{}] *)
Definition empty_object : PartialConfig :=
  {| p_port := Absent; p_username := Absent; p_identity := Absent;
     p_connectTimeout := Absent; p_sshOptions := Absent |}.

(** [const defaultOptions = { port: 22, connectTimeout: 60 }] *)
Definition defaultOptions : PartialConfig :=
  {| p_port := Present (Some 22%Z); p_username := Absent;
     p_identity := Absent; p_connectTimeout := Present (Some 60%Z);
     p_sshOptions := Absent |}.

Definition optional_keys (c : SSHConnectConfig) : PartialConfig :=
  {| p_port := port c; p_username := username c; p_identity := identity c;
     p_connectTimeout := connectTimeout c; p_sshOptions := sshOptions c |}.

(** [Object.assign(target, source)] on the optional keys. *)
Definition Object_assign (target source : PartialConfig) : PartialConfig :=
  {| p_port := assign_key (p_port target) (p_port source);
     p_username := assign_key (p_username target) (p_username source);
     p_identity := assign_key (p_identity target) (p_identity source);
     p_connectTimeout :=
       assign_key (p_connectTimeout target) (p_connectTimeout source);
     p_sshOptions := assign_key (p_sshOptions target) (p_sshOptions source) |}.

(** The constructor: [this.config = Object.assign({}, defaultOptions,
    options)]. Only [options] has the key [host]. *)
Definition new_config (options : SSHConnectConfig) : SSHConnectConfig :=
  let merged :=
    Object_assign (Object_assign empty_object defaultOptions)
                  (optional_keys options) in
  {| host := host options;
     port := p_port merged;
     username := p_username merged;
     identity := p_identity merged;
     connectTimeout := p_connectTimeout merged;
     sshOptions := p_sshOptions merged |}.

(** [sshArgs.push(...items)] *)
Definition push (sshArgs items : list string) : list string :=
  sshArgs ++ items.

(** [buildSSHArgs()], statement by statement. *)
Definition buildSSHArgs (config : SSHConnectConfig) : list string :=
  let sshArgs := [] in
  let sshArgs :=
    push sshArgs
      [ "-o"; "ConnectTimeout=" +:+ tpl_number (read (connectTimeout config));
        "-o"; "ServerAliveInterval=60";
        "-o"; "ServerAliveCountMax=3";
        "-o"; "EnableEscapeCommandline=yes";
        "-T" ] in
  let sshArgs :=
    match read (identity config) with
    | Some i => if truthy_string i then push sshArgs ["-i"; i] else sshArgs
    | None => sshArgs
    end in
  let sshArgs :=
    match read (port config) with
    | Some p =>
        if truthy_number p && negb (p =? 22)%Z
        then push sshArgs ["-p"; number_toString p]
        else sshArgs
    | None => sshArgs
    end in
  let sshArgs :=
    match read (sshOptions config) with
    | Some opts =>
        if Nat.ltb 0 (length opts) then push sshArgs opts else sshArgs
    | None => sshArgs
    end in
  let destination := host config in
  let destination :=
    if truthy truthy_string (read (username config))
    then tpl_string (read (username config)) +:+ "@" +:+ destination
    else destination in
  push sshArgs [destination].

(** ** One-shot commands: [exec] and [execAndWaitUntil] *)

(** What Node.js delivers to the listeners of a spawned child: a chunk on
    either stream, ['close'] with the exit code ([null] after a signal), or
    ['error'] when the child could not be started. *)
Inductive ProcEvent : Type :=
  | stdout_data (data : string)
  | stderr_data (data : string)
  | close_event (code : option Z)
  | error_event (err : Thrown).

(** The object [{ stdout, stderr }]. *)
Record Output : Type := { stdout : string; stderr : string }.

(** [options: any = {}]: only the truthiness of [options.ignoreExitCode]
    is read. *)
Record ExecOptions : Type := { ignoreExitCode : bool }.

Definition no_options : ExecOptions := {| ignoreExitCode := false |}.

(** What a listener does to the world outside its closure. *)
Inductive Action : Type :=
  | Resolve (value : Output)
  | Reject (reason : Thrown)
  | Kill.

(** The variables captured by the listeners: [stdout], [stderr] and, in
    [execAndWaitUntil], [resolved]. *)
Record Closure : Type := { acc : Output; resolved : bool }.

Definition initial_closure : Closure :=
  {| acc := {| stdout := ""; stderr := "" |}; resolved := false |}.

(** [cmd += (Array.isArray(params) ? (' ' + params.join(' ')) : '')] *)
Definition command_line (cmd : string) (params : option (list string)) : string :=
  match params with
  | Some ps => cmd +:+ (" " +:+ join " " ps)
  | None => cmd
  end.

(** The argument vector handed to [cp.spawn('ssh', sshArgs)]. *)
Definition exec_args (config : SSHConnectConfig) (cmd : string)
    (params : option (list string)) : list string :=
  push (buildSSHArgs config) [command_line cmd params].

(** The listeners of [exec]. *)
Definition exec_on (sshArgs : list string) (options : ExecOptions)
    (c : Closure) (ev : ProcEvent) : Closure * list Action :=
  match ev with
  | stdout_data data =>
      ({| acc := {| stdout := stdout (acc c) +:+ data;
                    stderr := stderr (acc c) |};
          resolved := resolved c |}, [])
  | stderr_data data =>
      ({| acc := {| stdout := stdout (acc c);
                    stderr := stderr (acc c) +:+ data |};
          resolved := resolved c |}, [])
  | close_event code =>
      if match code with Some n => (n =? 0)%Z | None => false end
         || ignoreExitCode options
      then (c, [Resolve (acc c)])
      else (c, [Reject (Error ("Command " +:+ join "," sshArgs
                               +:+ " failed with exit code " +:+ tpl_code code
                               +:+ ": " +:+ stdout (acc c)
                               +:+ " " +:+ stderr (acc c)))])
  | error_event err => (c, [Reject err])
  end.

(** The listeners of [execAndWaitUntil]. *)
Definition execAndWaitUntil_on (tester : string → string → bool)
    (options : ExecOptions) (c : Closure) (ev : ProcEvent)
    : Closure * list Action :=
  let test (a : Output) :=
    if negb (resolved c) && tester (stdout a) (stderr a)
    then ({| acc := a; resolved := true |}, [Resolve a])
    else ({| acc := a; resolved := resolved c |}, []) in
  match ev with
  | stdout_data data =>
      test {| stdout := stdout (acc c) +:+ data; stderr := stderr (acc c) |}
  | stderr_data data =>
      test {| stdout := stdout (acc c); stderr := stderr (acc c) +:+ data |}
  | close_event code =>
      if negb (resolved c) then
        if match code with Some n => (n =? 0)%Z | None => false end
           || ignoreExitCode options
        then (c, [Resolve (acc c)])
        else (c, [Reject (Error ("Command failed with exit code "
                                 +:+ tpl_code code
                                 +:+ ": " +:+ stdout (acc c)
                                 +:+ " " +:+ stderr (acc c)))])
      else (c, [])
  | error_event err =>
      if negb (resolved c) then (c, [Reject err]) else (c, [])
  end.

(** Delivering the events of a child, oldest first, to its listeners. *)
Fixpoint deliver (on : Closure → ProcEvent → Closure * list Action)
    (c : Closure) (events : list ProcEvent) : Closure * list Action :=
  match events with
  | [] => (c, [])
  | ev :: rest =>
      let '(c1, acts) := on c ev in
      let '(c2, more) := deliver on c1 rest in
      (c2, acts ++ more)
  end.

(** The promise after the executor's [resolve]/[reject] calls. *)
Definition perform (p : Promise Output) (a : Action) : Promise Output :=
  match a with
  | Resolve v => call_resolve v p
  | Reject e => call_reject e p
  | Kill => p
  end.

Definition settle (acts : list Action) : Promise Output :=
  fold_left perform acts Pending.

Definition is_resolve (a : Action) : bool :=
  match a with
  | Resolve _ => true
  | _ => false
  end.

Definition is_kill (a : Action) : bool :=
  match a with
  | Kill => true
  | _ => false
  end.

Definition count_resolves (acts : list Action) : nat :=
  length (List.filter is_resolve acts).

Definition count_kills (acts : list Action) : nat :=
  length (List.filter is_kill acts).

(** [exec(cmd, params, options)] against a child that behaves as [events]
    say: the state of the returned promise. *)
Definition exec (config : SSHConnectConfig) (cmd : string)
    (params : option (list string)) (options : ExecOptions)
    (events : list ProcEvent) : Promise Output :=
  settle (snd (deliver (exec_on (exec_args config cmd params) options)
                       initial_closure events)).

(** [execAndWaitUntil(cmd, tester, params, options)]: every call the
    listeners made, in order. *)
Definition execAndWaitUntil_actions (tester : string → string → bool)
    (options : ExecOptions) (events : list ProcEvent) : list Action :=
  snd (deliver (execAndWaitUntil_on tester options) initial_closure events).

Definition execAndWaitUntil (config : SSHConnectConfig) (cmd : string)
    (tester : string → string → bool) (params : option (list string))
    (options : ExecOptions) (events : list ProcEvent) : Promise Output :=
  settle (execAndWaitUntil_actions tester options events).

(** ** Tunnels *)

(** [interface SSHTunnelConfig] *)
Record SSHTunnelConfig : Type := {
  remoteAddr : option string;
  localPort : option Z;
  remotePort : option Z;
  remoteSocketPath : option string;
  name : option string
}.

(** The object stored in [activeTunnels]:
    [{ ...tunnelConfig, localPort, process: tunnelProcess }]. A child
    process is named by its position among the children spawned so far;
    one such object is created per spawned child. *)
Record ActiveTunnel : Type := {
  spread : SSHTunnelConfig;
  process : nat
}.

(** [SSHConstants] *)
Definition CHANNEL_SSH : string := "ssh".
Definition CHANNEL_TUNNEL : string := "tunnel".
Definition STATUS_BEFORECONNECT : string := "beforeconnect".
Definition STATUS_CONNECT : string := "connect".
Definition STATUS_BEFOREDISCONNECT : string := "beforedisconnect".
Definition STATUS_DISCONNECT : string := "disconnect".

(** The [payload] argument of [emit]: none, [{ SSHTunnelConfig }] with
    a request, a request and an error, or a registered object, and
    [{ SSHTunnelConfig }] with the member of [Object.prototype] of a given
    name. *)
Inductive Payload : Type :=
  | payload_undefined
  | payload_config (tunnelConfig : SSHTunnelConfig)
  | payload_config_err (tunnelConfig : SSHTunnelConfig) (err : Thrown)
  | payload_tunnel (tunnel : ActiveTunnel)
  | payload_member (name : string).

(** One argument handed to a listener. *)
Inductive Argument : Type :=
  | arg_string (s : string)
  | arg_this
  | arg_payload (p : Payload).

(** One call of [EventEmitter.prototype.emit(eventName, ...args)]: the
    listeners registered under [eventName] are called with [args]. *)
Record Emission : Type := {
  eventName : string;
  args : list Argument
}.

(** The closure of one [_startTunnelProcess] call together with what
    Node.js keeps about the child it spawned. *)
Record TunnelChild : Type := {
  spawn_args : list string;
  closure_config : SSHTunnelConfig;
  closure_tunnel : ActiveTunnel;
  closure_stderr : string;
  exitCode : option Z;
  kill_calls : nat;
  promise : Promise ActiveTunnel
}.

(** A [_createTunnel] call that asked the operating system for a free port
    and waits for the callbacks of [server.listen] and [server.close]. *)
Record PortRequest : Type := {
  request_config : SSHTunnelConfig;
  started : option nat
}.

(** The connection object. *)
Record State : Type := {
  config : SSHConnectConfig;
  activeTunnels : gmap string ActiveTunnel;
  children : list TunnelChild;
  portRequests : list PortRequest;
  emitted : list Emission
}.

(** [new SSHConnection(options, logger)] *)
Definition new_SSHConnection (options : SSHConnectConfig) : State :=
  {| config := new_config options;
     activeTunnels := ∅;
     children := [];
     portRequests := [];
     emitted := [] |}.

Definition set_activeTunnels (m : gmap string ActiveTunnel) (s : State) : State :=
  {| config := config s; activeTunnels := m; children := children s;
     portRequests := portRequests s; emitted := emitted s |}.

Definition set_children (l : list TunnelChild) (s : State) : State :=
  {| config := config s; activeTunnels := activeTunnels s; children := l;
     portRequests := portRequests s; emitted := emitted s |}.

Definition set_portRequests (l : list PortRequest) (s : State) : State :=
  {| config := config s; activeTunnels := activeTunnels s;
     children := children s; portRequests := l; emitted := emitted s |}.

Definition set_emitted (l : list Emission) (s : State) : State :=
  {| config := config s; activeTunnels := activeTunnels s;
     children := children s; portRequests := portRequests s; emitted := l |}.

(** [super.emit(eventName, ...args)] *)
Definition super_emit (eventName : string) (args : list Argument) (s : State) : State :=
  set_emitted (emitted s ++ [{| eventName := eventName; args := args |}]) s.

(** The override [emit(channel, status, payload)]; every caller drops the
    boolean it returns. *)
Definition emit (channel status : string) (payload : Payload) (s : State) : State :=
  let s := super_emit channel [arg_string status; arg_this; arg_payload payload] s in
  super_emit (channel +:+ ":" +:+ status) [arg_this; arg_payload payload] s.

(** [getTunnel(name)]: what is registered under [name]. For a name of
    [Object_prototype] with nothing registered, [this.activeTunnels[name]]
    is the inherited member instead, which no [ActiveTunnel] stands for:
    what is proved of [getTunnel] and [addTunnel] for a name that is not
    registered is proved for names outside [Object_prototype]. *)
Definition getTunnel (name : string) (s : State) : option ActiveTunnel :=
  activeTunnels s !! name.

(** [tunnelConfig.name || `${remoteAddr}@${remotePort || remoteSocketPath}`] *)
Definition tunnel_name (tunnelConfig : SSHTunnelConfig) : string :=
  if truthy truthy_string (name tunnelConfig)
  then tpl_string (name tunnelConfig)
  else tpl_string (remoteAddr tunnelConfig) +:+ "@" +:+
       (if truthy truthy_number (remotePort tunnelConfig)
        then tpl_number (remotePort tunnelConfig)
        else tpl_string (remoteSocketPath tunnelConfig)).

Definition set_name (n : string) (t : SSHTunnelConfig) : SSHTunnelConfig :=
  {| remoteAddr := remoteAddr t; localPort := localPort t;
     remotePort := remotePort t; remoteSocketPath := remoteSocketPath t;
     name := Some n |}.

Definition set_localPort (p : Z) (t : SSHTunnelConfig) : SSHTunnelConfig :=
  {| remoteAddr := remoteAddr t; localPort := Some p;
     remotePort := remotePort t; remoteSocketPath := remoteSocketPath t;
     name := name t |}.

(** The key [tunnelConfig.name!] of the listeners. *)
Definition key_of (tunnelConfig : SSHTunnelConfig) : string :=
  tpl_string (name tunnelConfig).

(** The tunnel-specific arguments of [_startTunnelProcess]. *)
Definition tunnelArgs (tunnelConfig : SSHTunnelConfig) (localPort : Z) : list string :=
  let tunnelArgs := ["-N"] in
  if truthy truthy_string (remoteSocketPath tunnelConfig)
  then push tunnelArgs
         ["-L"; number_toString localPort +:+ ":" +:+
                tpl_string (remoteSocketPath tunnelConfig)]
  else push tunnelArgs
         ["-L"; number_toString localPort +:+ ":" +:+
                (if truthy truthy_string (remoteAddr tunnelConfig)
                 then tpl_string (remoteAddr tunnelConfig) else "localhost")
                +:+ ":" +:+ tpl_number (remotePort tunnelConfig)].

(** The synchronous part of [_startTunnelProcess]: spawn the child, build
    the tunnel object and store it under the name; the listeners and the
    timer are the cases of [handle] below. Returns the child. *)
Definition _startTunnelProcess (tunnelConfig : SSHTunnelConfig) (localPort : Z)
    (s : State) : State * nat :=
  let sshArgs := buildSSHArgs (config s) in
  let sshArgs := push sshArgs (tunnelArgs tunnelConfig localPort) in
  let tunnelProcess := length (children s) in
  let tunnel := {| spread := set_localPort localPort tunnelConfig;
                   process := tunnelProcess |} in
  let child := {| spawn_args := sshArgs;
                  closure_config := tunnelConfig;
                  closure_tunnel := tunnel;
                  closure_stderr := "";
                  exitCode := None;
                  kill_calls := 0;
                  promise := Pending |} in
  let s := set_children (children s ++ [child]) s in
  let s := set_activeTunnels (<[key_of tunnelConfig := tunnel]> (activeTunnels s)) s in
  (s, tunnelProcess).

(** The promise a caller of [addTunnel] holds. *)
Inductive TunnelPromise : Type :=
  | resolved_with (tunnel : ActiveTunnel)
  | of_child (child : nat)
  | of_request (request : nat).

(** [_createTunnel(tunnelConfig)] *)
Definition _createTunnel (tunnelConfig : SSHTunnelConfig) (s : State)
    : State * TunnelPromise :=
  let localPort :=
    match localPort tunnelConfig with
    | Some p => if truthy_number p then p else 0%Z
    | None => 0%Z
    end in
  if (localPort =? 0)%Z then
    let request := length (portRequests s) in
    (set_portRequests
       (portRequests s ++ [{| request_config := tunnelConfig; started := None |}]) s,
     of_request request)
  else
    let '(s, child) := _startTunnelProcess tunnelConfig localPort s in
    (s, of_child child).

(** [addTunnel(tunnelConfig)]; the caller's object gets its [name] set. *)
Definition addTunnel (tunnelConfig : SSHTunnelConfig) (s : State)
    : State * TunnelPromise :=
  let tunnelConfig := set_name (tunnel_name tunnelConfig) tunnelConfig in
  let s := emit CHANNEL_TUNNEL STATUS_BEFORECONNECT (payload_config tunnelConfig) s in
  match getTunnel (key_of tunnelConfig) s with
  | Some tunnel =>
      let s := emit CHANNEL_TUNNEL STATUS_CONNECT (payload_config tunnelConfig) s in
      (s, resolved_with tunnel)
  | None => _createTunnel tunnelConfig s
  end.

(** What the event loop delivers to a connection. A child that could not
    be started emits ['error'] and no ['exit']; Node.js has then stored
    the negative error number, [errno], in the child's [exitCode]. *)
Inductive Event : Type :=
  | port_allocated (request : nat) (port : Z)
  | child_error (child : nat) (errno : Z) (err : Thrown)
  | child_exit (child : nat) (code : option Z)
  | child_stderr (child : nat) (data : string)
  | grace_timeout (child : nat).

Definition update_child (i : nat) (f : TunnelChild → TunnelChild) (s : State) : State :=
  set_children (alter f i (children s)) s.

Definition with_promise (p : Promise ActiveTunnel) (c : TunnelChild) : TunnelChild :=
  {| spawn_args := spawn_args c; closure_config := closure_config c;
     closure_tunnel := closure_tunnel c; closure_stderr := closure_stderr c;
     exitCode := exitCode c; kill_calls := kill_calls c; promise := p |}.

Definition with_stderr (e : string) (c : TunnelChild) : TunnelChild :=
  {| spawn_args := spawn_args c; closure_config := closure_config c;
     closure_tunnel := closure_tunnel c; closure_stderr := e;
     exitCode := exitCode c; kill_calls := kill_calls c; promise := promise c |}.

Definition with_exitCode (code : option Z) (c : TunnelChild) : TunnelChild :=
  {| spawn_args := spawn_args c; closure_config := closure_config c;
     closure_tunnel := closure_tunnel c; closure_stderr := closure_stderr c;
     exitCode := code; kill_calls := kill_calls c; promise := promise c |}.

Definition killed (c : TunnelChild) : TunnelChild :=
  {| spawn_args := spawn_args c; closure_config := closure_config c;
     closure_tunnel := closure_tunnel c; closure_stderr := closure_stderr c;
     exitCode := exitCode c; kill_calls := S (kill_calls c); promise := promise c |}.

Definition fatal_stderr (stderr : string) : bool :=
  includes "Address already in use" stderr
  || includes "Permission denied" stderr
  || includes "Connection refused" stderr.

(** One turn of the event loop: the callback of [_createTunnel], the three
    listeners of [_startTunnelProcess], or its [setTimeout] callback. *)
Definition handle (s : State) (ev : Event) : State :=
  match ev with
  | port_allocated request port =>
      match portRequests s !! request with
      | Some {| request_config := tunnelConfig; started := None |} =>
          let '(s, child) := _startTunnelProcess tunnelConfig port s in
          set_portRequests
            (<[request := {| request_config := tunnelConfig;
                             started := Some child |}]> (portRequests s)) s
      | _ => s
      end
  | child_error child errno err =>
      match children s !! child with
      | Some c =>
          let tunnelConfig := closure_config c in
          let s := update_child child (with_exitCode (Some errno)) s in
          let s := emit CHANNEL_TUNNEL STATUS_DISCONNECT
                     (payload_config_err tunnelConfig err) s in
          let s := set_activeTunnels (delete (key_of tunnelConfig) (activeTunnels s)) s in
          update_child child (λ c, with_promise (call_reject err (promise c)) c) s
      | None => s
      end
  | child_exit child code =>
      match children s !! child with
      | Some c =>
          let tunnelConfig := closure_config c in
          let s := update_child child (with_exitCode code) s in
          if negb (bool_decide (code = Some 0%Z))
             && bool_decide (is_Some (activeTunnels s !! key_of tunnelConfig))
          then
            let s := emit CHANNEL_TUNNEL STATUS_DISCONNECT
                       (payload_config_err tunnelConfig
                          (Error ("Tunnel process exited with code " +:+ tpl_code code))) s in
            set_activeTunnels (delete (key_of tunnelConfig) (activeTunnels s)) s
          else s
      | None => s
      end
  | child_stderr child data =>
      match children s !! child with
      | Some c =>
          let tunnelConfig := closure_config c in
          let stderr := closure_stderr c +:+ data in
          let s := update_child child (with_stderr stderr) s in
          if fatal_stderr stderr then
            let s := update_child child killed s in
            let s := set_activeTunnels (delete (key_of tunnelConfig) (activeTunnels s)) s in
            update_child child
              (λ c, with_promise
                      (call_reject (Error ("Failed to create tunnel: " +:+ trim stderr))
                                   (promise c)) c) s
          else s
      | None => s
      end
  | grace_timeout child =>
      match children s !! child with
      | Some c =>
          match exitCode c with
          | None =>
              let s := emit CHANNEL_TUNNEL STATUS_CONNECT
                         (payload_tunnel (closure_tunnel c)) s in
              update_child child
                (λ c, with_promise (call_resolve (closure_tunnel c) (promise c)) c) s
          | Some code =>
              if negb (truthy_string (closure_stderr c)) then
                update_child child
                  (λ c, with_promise
                          (call_reject
                             (Error ("Tunnel process exited with code "
                                     +:+ tpl_code (exitCode c)))
                             (promise c)) c) s
              else s
          end
      | None => s
      end
  end.

(** Running the event loop over a sequence of events. *)
Definition run (s : State) (events : list Event) : State :=
  fold_left handle events s.

(** The state of the promise a caller holds. The outer promise of
    [_createTunnel] follows the promise of [_startTunnelProcess]. *)
Definition promise_of (s : State) (p : TunnelPromise) : Promise ActiveTunnel :=
  let of_child_promise child :=
    match children s !! child with
    | Some c => promise c
    | None => Pending
    end in
  match p with
  | resolved_with tunnel => Fulfilled tunnel
  | of_child child => of_child_promise child
  | of_request request =>
      match portRequests s !! request with
      | Some {| started := Some child |} => of_child_promise child
      | _ => Pending
      end
  end.

(** ** Closing tunnels and the connection *)

(** [closeTunnel(name)] for a truthy [name]: the promise executor of the
    first branch when [this.activeTunnels[name]] is truthy,
    [Promise.resolve()] when it is not. [tunnel.process] is always set on
    a registered object. Under a name of [Object_prototype] with nothing
    registered the lookup finds the inherited member: the executor runs
    with it, the member has no [process], and [delete] finds nothing of
    the object's own. *)
Definition closeTunnel_one (name : string) (s : State) : State :=
  match activeTunnels s !! name with
  | Some tunnel =>
      let s := emit CHANNEL_TUNNEL STATUS_BEFOREDISCONNECT (payload_tunnel tunnel) s in
      let s := update_child (process tunnel) killed s in
      let s := emit CHANNEL_TUNNEL STATUS_DISCONNECT (payload_tunnel tunnel) s in
      set_activeTunnels (delete name (activeTunnels s)) s
  | None =>
      if existsb (String.eqb name) Object_prototype then
        let s := emit CHANNEL_TUNNEL STATUS_BEFOREDISCONNECT (payload_member name) s in
        let s := emit CHANNEL_TUNNEL STATUS_DISCONNECT (payload_member name) s in
        set_activeTunnels (delete name (activeTunnels s)) s
      else s
  end.

(** [closeTunnel(name?)]. [keys] is [Object.keys(this.activeTunnels)] in
    the order the engine gives them; it is read only in the second branch.
    There every key is closed in turn, in the same turn of the event loop.
    A key that is the empty string would make that branch call itself
    without end (a [RangeError]): [None]. *)
Definition closeTunnel (name : option string) (keys : list string) (s : State)
    : option State :=
  if truthy truthy_string name
  then Some (closeTunnel_one (tpl_string name) s)
  else if existsb (String.eqb "") keys then None
  else Some (fold_left (λ s key, closeTunnel_one key s) keys s).

(** [close()]. The field [sshProcess] is never assigned by this class and
    stays [null], so the callback of [then] only emits. *)
Definition close (keys : list string) (s : State) : option State :=
  let s := emit CHANNEL_SSH STATUS_BEFOREDISCONNECT payload_undefined s in
  match closeTunnel None keys s with
  | Some s => Some (emit CHANNEL_SSH STATUS_DISCONNECT payload_undefined s)
  | None => None
  end.

End SSHConnection.

(** ** [authResolver.ts] *)

Module RemoteSSHResolver.
Import JS.

Definition REMOTE_SSH_AUTHORITY : string := "ssh-remote".

Definition getRemoteAuthority (host : string) : string :=
  REMOTE_SSH_AUTHORITY +:+ "+" +:+ host.

(** What the resolver reads of an [SSHDestination] ([./ssh/sshDestination]
    is outside the sources at hand): [hostname], [port], [user]. *)
Record SSHDestination : Type := {
  hostname : string;
  dest_port : option Z;
  user : option string
}.

(** [serverResult.listeningOn: number | string] *)
Inductive ListeningOn : Type :=
  | on_port (n : Z)
  | on_socket (path : string).

(** What [installCodeServer] resolves with, as far as the resolver reads it. *)
Record ServerResult : Type := {
  listeningOn : ListeningOn;
  server_connectionToken : string
}.

(** The arguments [installCodeServer] is called with, after the connection
    and before the logger. *)
Record InstallArguments : Type := {
  arg_serverDownloadUrlTemplate : option string;
  arg_defaultExtensions : list string;
  arg_extraExtensions : list string;
  arg_platform : option string;
  arg_listenOnSocket : bool
}.

(** [vscode.ResolverResult] as the resolver builds it. *)
Record ResolverResult : Type := {
  result_host : string;
  result_port : Z;
  connectionToken : string
}.

(** [class TunnelInfo]; its [disposables] are always the empty array. *)
Record TunnelInfo : Type := {
  info_localPort : Z;
  remotePortOrSocketPath : ListeningOn
}.

(** Everything a [resolve] call obtains from outside the two classes: the
    [remote.SSH] settings, the environment, the collaborators that are not
    part of the sources at hand ([SSHDestination.parseEncoded],
    [installCodeServer], [findRandomPort]) with the completion each one
    gives, and what the spawned children and the event loop do. *)
Record World : Type := {
  serverDownloadUrlTemplate : option string;
  defaultExtensions : list string;
  remotePlatform : gmap string string;
  remoteServerListenOnSocket : bool;
  setting_connectTimeout : Z;
  env_USER : option string;
  parseEncoded : option string → Thrown + SSHDestination;
  uname_child : list SSHConnection.ProcEvent;
  installCodeServer :
    SSHConnection.State → InstallArguments → Promise ServerResult;
  findRandomPort : Promise Z;
  tunnel_loop : list SSHConnection.Event
}.

(** What the resolver did to the outside, oldest first: lines of the logger
    and calls of the bootstrap collaborator. *)
Inductive Entry : Type :=
  | logger_info (line : string)
  | logger_error (line : string)
  | install_called (arguments : InstallArguments).

(** The resolver object, with the journal of its outside effects. *)
Record Resolver : Type := {
  sshConnection : option SSHConnection.State;
  tunnels : list TunnelInfo;
  journal : list Entry
}.

(** [new RemoteSSHResolver(context, logger)] *)
Definition new_RemoteSSHResolver : Resolver :=
  {| sshConnection := None; tunnels := []; journal := [] |}.

(** How a piece of the asynchronous body ends: normally, by throwing, or
    not at all, suspended at an [await] of a promise that never settles. *)
Inductive Completion (A : Type) : Type :=
  | Normal (a : A)
  | Throw (e : Thrown)
  | Suspended.
Arguments Normal {A} a.
Arguments Throw {A} e.
Arguments Suspended {A}.

(** Code that runs against the resolver object. *)
Definition Task (A : Type) : Type := Resolver → Resolver * Completion A.

Definition ret {A} (a : A) : Task A := λ r, (r, Normal a).

Definition bind {A B} (m : Task A) (k : A → Task B) : Task B :=
  λ r, match m r with
       | (r1, Normal a) => k a r1
       | (r1, Throw e) => (r1, Throw e)
       | (r1, Suspended) => (r1, Suspended)
       end.

Definition throw {A} (e : Thrown) : Task A := λ r, (r, Throw e).

(** [await p] *)
Definition await {A} (p : Promise A) : Task A :=
  λ r, match p with
       | Fulfilled v => (r, Normal v)
       | Rejected e => (r, Throw e)
       | Pending => (r, Suspended)
       end.

(** [try { body } catch (err) { handler }] *)
Definition try_catch {A} (body : Task A) (handler : Thrown → Task A) : Task A :=
  λ r, match body r with
       | (r1, Throw e) => handler e r1
       | other => other
       end.

Definition record (e : Entry) : Task unit :=
  λ r, ({| sshConnection := sshConnection r; tunnels := tunnels r;
           journal := journal r ++ [e] |}, Normal tt).

Definition set_sshConnection (c : SSHConnection.State) : Task unit :=
  λ r, ({| sshConnection := Some c; tunnels := tunnels r;
           journal := journal r |}, Normal tt).

Definition push_tunnel (t : TunnelInfo) : Task unit :=
  λ r, ({| sshConnection := sshConnection r; tunnels := tunnels r ++ [t];
           journal := journal r |}, Normal tt).

(** [Task] is a monad; [x ← m; k] and [m ;; k] are stdpp's notations. *)
#[global] Instance task_ret : MRet Task := @ret.
#[global] Instance task_bind : MBind Task := λ A B k m, bind m k.

(** [err instanceof Error ? err.message : String(err)] *)
Definition message_of (err : Thrown) : string :=
  match err with
  | ErrorObject _ message => message
  | OtherValue rendering => rendering
  end.

(** [new vscode.RemoteAuthorityResolverError(message)] *)
Definition RemoteAuthorityResolverError (message : string) : Thrown :=
  ErrorObject "RemoteAuthorityResolverError" message.

(** [sshDest.user || process.env["USER"] || ""] *)
Definition username_for (w : World) (sshDest : SSHDestination) : string :=
  if truthy truthy_string (user sshDest) then tpl_string (user sshDest)
  else if truthy truthy_string (env_USER w) then tpl_string (env_USER w)
  else "".

(** The options literal passed to [new SSHConnection]. *)
Definition connection_options (w : World) (sshDest : SSHDestination)
    : SSHConnection.SSHConnectConfig :=
  {| SSHConnection.host := hostname sshDest;
     SSHConnection.port := Present (dest_port sshDest);
     SSHConnection.username := Present (Some (username_for w sshDest));
     SSHConnection.identity := Absent;
     SSHConnection.connectTimeout := Present (Some (setting_connectTimeout w));
     SSHConnection.sshOptions := Absent |}.

(** The classification of the output of [uname -s]; [platform] keeps its
    value when nothing matches. *)
Definition classify (stdout : string) (platform : option string) : option string :=
  if includes "Linux" stdout then Some "linux"
  else if includes "Darwin" stdout then Some "macos"
  else if includes "Windows" stdout || includes "MINGW" stdout
          || includes "MSYS" stdout then Some "windows"
  else platform.

(** The [// Detect platform] block. [remotePlatformMap[sshDest.hostname]]
    is the entry of the setting; for a host named like a member of
    [Object_prototype] without an entry the lookup finds that member
    instead, which is no platform string: what is proved of the probe is
    proved for hosts named otherwise. *)
Definition detect_platform (w : World) (sshDest : SSHDestination)
    (connection : SSHConnection.State) : Task (option string) :=
  let platform := remotePlatform w !! hostname sshDest in
  if negb (truthy truthy_string platform) then
    try_catch
      (result ← await (SSHConnection.exec (SSHConnection.config connection)
                          "uname -s" None SSHConnection.no_options
                          (uname_child w));
       ret (classify (SSHConnection.stdout result) platform))
      (λ err,
         record (logger_error ("Failed to detect platform: " +:+ String_of err)) ;;
         ret platform)
  else ret platform.

(** [await this.sshConnection.addTunnel(tunnelConfig)]: the call, then the
    turns of the event loop until the promise is looked at. *)
Definition await_addTunnel (w : World)
    (tunnelConfig : SSHConnection.SSHTunnelConfig)
    (connection : SSHConnection.State) : Task SSHConnection.ActiveTunnel :=
  let '(connection, p) := SSHConnection.addTunnel tunnelConfig connection in
  let connection := SSHConnection.run connection (tunnel_loop w) in
  set_sshConnection connection ;;
  await (SSHConnection.promise_of connection p).

(** The [try] block from [// Install and start the server] on, once
    [platform] has its value. *)
Definition bootstrap_and_tunnel (w : World) (connection : SSHConnection.State)
    (platform : option string) : Task ResolverResult :=
  let arguments :=
    {| arg_serverDownloadUrlTemplate := serverDownloadUrlTemplate w;
       arg_defaultExtensions := defaultExtensions w;
       arg_extraExtensions := [];
       arg_platform := platform;
       arg_listenOnSocket := remoteServerListenOnSocket w |} in
  record (install_called arguments) ;;
  serverResult ← await (installCodeServer w connection arguments);
  tunnel ←
    match listeningOn serverResult with
    | on_port n =>
        localPort ← await (findRandomPort w);
        _ ← await_addTunnel w
               {| SSHConnection.localPort := Some localPort;
                  SSHConnection.remoteAddr := Some "localhost";
                  SSHConnection.remotePort := Some n;
                  SSHConnection.remoteSocketPath := None;
                  SSHConnection.name := None |} connection;
        ret {| info_localPort := localPort;
               remotePortOrSocketPath := listeningOn serverResult |}
    | on_socket path =>
        localPort ← await (findRandomPort w);
        _ ← await_addTunnel w
               {| SSHConnection.localPort := Some localPort;
                  SSHConnection.remoteAddr := None;
                  SSHConnection.remotePort := None;
                  SSHConnection.remoteSocketPath := Some path;
                  SSHConnection.name := None |} connection;
        ret {| info_localPort := localPort;
               remotePortOrSocketPath := listeningOn serverResult |}
    end;
  push_tunnel tunnel ;;
  ret {| result_host := "localhost";
         result_port := info_localPort tunnel;
         connectionToken := server_connectionToken serverResult |}.

(** The whole [try] block. *)
Definition resolve_try (w : World) (sshDest : SSHDestination) : Task ResolverResult :=
  let connection := SSHConnection.new_SSHConnection (connection_options w sshDest) in
  set_sshConnection connection ;;
  platform ← detect_platform w sshDest connection;
  bootstrap_and_tunnel w connection platform.

(** The [catch (err)] block. *)
Definition resolve_catch (err : Thrown) : Task ResolverResult :=
  record (logger_error ("Failed to resolve SSH authority: " +:+ String_of err)) ;;
  throw (RemoteAuthorityResolverError (message_of err)).

(** The [async () => { try { ... } catch (err) { ... } }] passed to
    [withProgress]. *)
Definition resolve_task (w : World) (sshDest : SSHDestination) : Task ResolverResult :=
  try_catch (resolve_try w sshDest) resolve_catch.

(** What a call of [resolve] gives its caller: an exception thrown by the
    call itself, or a promise (the one [withProgress] hands through). *)
Inductive Outcome : Type :=
  | throws (e : Thrown)
  | returns (p : Promise ResolverResult).

Definition promise_of_completion {A} (c : Completion A) : Promise A :=
  match c with
  | Normal a => Fulfilled a
  | Throw e => Rejected e
  | Suspended => Pending
  end.

(** [resolve(authority, context)] *)
Definition resolve (w : World) (authority : string) (resolveAttempt : Z)
    (r : Resolver) : Resolver * Outcome :=
  let parts := split "+" authority in
  let type := tpl_string (parts !! 0) in
  let dest := parts !! 1 in
  if negb (String.eqb type REMOTE_SSH_AUTHORITY) then
    (r, throws (Error ("Invalid authority type for SSH resolver: " +:+ type)))
  else
    let '(r, _) :=
      record (logger_info ("Resolving ssh remote authority '" +:+ authority
                           +:+ "' (attempt #" +:+ number_toString resolveAttempt
                           +:+ ")")) r in
    match parseEncoded w dest with
    | inl e => (r, throws e)
    | inr sshDest =>
        let '(r, c) := resolve_task w sshDest r in
        (r, returns (promise_of_completion c))
    end.

(** [dispose()]. [keys] is what [Object.keys] gives inside the connection's
    [close()]. Every [TunnelInfo] of this class was built with an empty
    [disposables] array, so [tunnel.dispose()] has nothing to dispose of.
    The promise of [close()] is not awaited: the result carries, beside the
    resolver, the connection as [close()] leaves it, and [None] there when
    there was no connection. A [close()] that throws makes [dispose] throw:
    [None]. *)
Definition dispose (keys : list string) (r : Resolver)
    : option (Resolver * option SSHConnection.State) :=
  let r := {| sshConnection := sshConnection r; tunnels := [];
              journal := journal r |} in
  match sshConnection r with
  | Some connection =>
      match SSHConnection.close keys connection with
      | Some closed =>
          Some ({| sshConnection := None; tunnels := tunnels r;
                   journal := journal r |}, Some closed)
      | None => None
      end
  | None => Some (r, None)
  end.

End RemoteSSHResolver.

(** ** [remoteLocationHistory.ts] *)

Module RemoteLocationHistory.
Import JS.

(** The object: [remoteLocationHistory], and the value of [STORAGE_KEY]
    in [context.globalState] ([None] while it has none), with the number
    of [globalState.update] calls made. Updates are taken to succeed. *)
Record History : Type := {
  remoteLocationHistory : gmap string (list string);
  stored : option (gmap string (list string));
  updates : nat
}.

(** The constructor: [context.globalState.get(STORAGE_KEY) || {}]. *)
Definition new_RemoteLocationHistory
    (globalState : option (gmap string (list string))) : History :=
  {| remoteLocationHistory := default ∅ globalState;
     stored := globalState; updates := 0 |}.

(** [getHistory()] *)
Definition getHistory (h : History) : gmap string (list string) :=
  remoteLocationHistory h.

(** [this.remoteLocationHistory[host]]: an array of the history, a member
    of [Object.prototype] (a function or, for [__proto__], an object), or
    [undefined]. *)
Inductive Member : Type :=
  | an_array (hostLocations : list string)
  | inherited
  | undefined.

Definition member (history : gmap string (list string)) (host : string) : Member :=
  match history !! host with
  | Some hostLocations => an_array hostLocations
  | None =>
      if existsb (String.eqb host) Object_prototype then inherited
      else undefined
  end.

(** [hostLocations.includes(path)] *)
Definition array_includes (path : string) (l : list string) : bool :=
  existsb (String.eqb path) l.

(** [addLocation(host, path)]: how its promise settles, rejected with what
    was thrown or fulfilled, then with the object as the call leaves it.
    An inherited member is truthy and has no [includes]. *)
Definition addLocation (host path : string) (h : History) : Thrown + History :=
  match member (remoteLocationHistory h) host with
  | inherited =>
      inl (ErrorObject "TypeError" "hostLocations.includes is not a function")
  | found =>
      let hostLocations :=
        match found with an_array l => l | _ => [] end in
      if negb (array_includes path hostLocations) then
        let hostLocations := path :: hostLocations in
        let history := <[host := hostLocations]> (remoteLocationHistory h) in
        inr {| remoteLocationHistory := history; stored := Some history;
               updates := S (updates h) |}
      else inr h
  end.

(** [removeLocation(host, path)], in the same way. *)
Definition removeLocation (host path : string) (h : History) : Thrown + History :=
  match member (remoteLocationHistory h) host with
  | inherited =>
      inl (ErrorObject "TypeError" "hostLocations.filter is not a function")
  | found =>
      let hostLocations :=
        match found with an_array l => l | _ => [] end in
      let hostLocations :=
        List.filter (λ l, negb (String.eqb l path)) hostLocations in
      let history := <[host := hostLocations]> (remoteLocationHistory h) in
      inr {| remoteLocationHistory := history; stored := Some history;
             updates := S (updates h) |}
  end.

(** A [vscode.Uri], as far as it is read. *)
Record Uri : Type := { scheme : string; authority : string; path : string }.

(** [s.startsWith(p)] and [s.endsWith(p)] *)
Definition startsWith (p s : string) : bool := String.prefix p s.

Definition endsWith (p s : string) : bool :=
  Nat.leb (String.length p) (String.length s)
  && String.eqb (String.substring (String.length s - String.length p)
                                  (String.length p) s) p.

(** The tail of [getRemoteWorkspaceLocationData] shared by its two
    branches: [const [, host] = location.authority.split('+')], the
    decoding, and the pair returned. *)
Definition location_data
    (parseEncoded : option string → Thrown + RemoteSSHResolver.SSHDestination)
    (location : Uri) : Thrown + option (string * string) :=
  let host := split "+" (authority location) !! 1 in
  match parseEncoded host with
  | inl e => inl e
  | inr sshDest => inr (Some (RemoteSSHResolver.hostname sshDest, path location))
  end.

(** [getRemoteWorkspaceLocationData(logger)], given
    [vscode.workspace.workspaceFile] and [vscode.workspace.workspaceFolders]
    (each folder by its [uri]); the two [logger.info] lines are left out.
    [workspaceFolders?.[0].uri] throws a [TypeError] on an empty array. *)
Definition getRemoteWorkspaceLocationData
    (parseEncoded : option string → Thrown + RemoteSSHResolver.SSHDestination)
    (workspaceFile : option Uri) (workspaceFolders : option (list Uri))
    : Thrown + option (string * string) :=
  let in_file :=
    match workspaceFile with
    | Some location =>
        String.eqb (scheme location) "vscode-remote"
        && startsWith RemoteSSHResolver.REMOTE_SSH_AUTHORITY (authority location)
        && endsWith ".code-workspace" (path location)
    | None => false
    end in
  match workspaceFile, in_file with
  | Some location, true => location_data parseEncoded location
  | _, _ =>
      match workspaceFolders with
      | Some [] =>
          inl (ErrorObject "TypeError"
                 "Cannot read properties of undefined (reading 'uri')")
      | Some (location :: _) =>
          if String.eqb (scheme location) "vscode-remote"
             && startsWith RemoteSSHResolver.REMOTE_SSH_AUTHORITY
                           (authority location)
          then location_data parseEncoded location
          else inr None
      | None => inr None
      end
  end.

End RemoteLocationHistory.

(** ** [commands.ts] *)

Module Commands.
Import JS.

(** A call of [vscode.commands.executeCommand]. *)
Inductive Command : Type :=
  | vscode_newWindow (remoteAuthority : string) (reuseWindow : bool)
  | vscode_openFolder (uri : RemoteLocationHistory.Uri) (forceNewWindow : bool).

(** [openRemoteSSHWindow(host, reuseWindow)] *)
Definition openRemoteSSHWindow (host : string) (reuseWindow : bool) : list Command :=
  [vscode_newWindow (RemoteSSHResolver.getRemoteAuthority host) reuseWindow].

(** [openRemoteSSHLocationWindow(host, path, reuseWindow)] *)
Definition openRemoteSSHLocationWindow (host path : string) (reuseWindow : bool)
    : list Command :=
  [vscode_openFolder
     {| RemoteLocationHistory.scheme := "vscode-remote";
        RemoteLocationHistory.authority := RemoteSSHResolver.getRemoteAuthority host;
        RemoteLocationHistory.path := path |}
     (negb reuseWindow)].

(** [promptOpenRemoteSSHWindow(reuseWindow)], given what the input box
    resolves with and [host => new SSHDestination(host).toEncodedString()]
    ([./ssh/sshDestination] is outside the sources at hand). *)
Definition promptOpenRemoteSSHWindow (toEncodedString : string → string)
    (input : option string) (reuseWindow : bool) : list Command :=
  match input with
  | Some host =>
      if truthy_string host
      then openRemoteSSHWindow (toEncodedString host) reuseWindow
      else []
  | None => []
  end.

End Commands.

(** ** The specification's wording, for comparison with the code *)

Module Specified.
Import JS SSHConnection.

(** Batch mode is asked of OpenSSH by its option [BatchMode]. *)
Definition batch_mode_requested (sshArgs : list string) : bool :=
  existsb (includes "BatchMode") sshArgs.

Definition batch_mode_clause (config : SSHConnectConfig) : Prop :=
  batch_mode_requested (buildSSHArgs config) = true.

(** "never contains a [-p] flag for port 22; for any other port contains
    it exactly once". *)
Definition port_clause (config : SSHConnectConfig) : Prop :=
  (read (port config) = Some 22%Z →
     count_occ string_dec (buildSSHArgs config) "-p" = 0) ∧
  (read (port config) ≠ Some 22%Z →
     count_occ string_dec (buildSSHArgs config) "-p" = 1).

(** "the bare channel with payload (client, statusPayload), and the
    compound name with the same payload". *)
Definition emit_as_specified (channel status : string) (payload : Payload)
    (s : State) : State :=
  let s := super_emit channel [arg_this; arg_payload payload] s in
  super_emit (channel +:+ ":" +:+ status) [arg_this; arg_payload payload] s.

(** "callers never observe internal exception shapes": whatever fails, the
    caller gets a promise rejected with the resolver's own error. *)
Definition failure_is_wrapped (o : RemoteSSHResolver.Outcome) : Prop :=
  match o with
  | RemoteSSHResolver.throws _ => False
  | RemoteSSHResolver.returns (Rejected e) =>
      ∃ message, e = RemoteSSHResolver.RemoteAuthorityResolverError message
  | RemoteSSHResolver.returns _ => True
  end.

End Specified.

(** ** Vocabulary of the statements *)

Module Vocabulary.
Import JS SSHConnection.

(** [config] with its [port] key replaced. *)
Definition with_port (p : OwnProperty Z) (c : SSHConnectConfig) : SSHConnectConfig :=
  {| host := host c; port := p; username := username c;
     identity := identity c; connectTimeout := connectTimeout c;
     sshOptions := sshOptions c |}.

(** The fixed options every argument vector starts with. *)
Definition connection_options_prefix (config : SSHConnectConfig) : list string :=
  [ "-o"; "ConnectTimeout=" +:+ tpl_number (read (connectTimeout config));
    "-o"; "ServerAliveInterval=60";
    "-o"; "ServerAliveCountMax=3";
    "-o"; "EnableEscapeCommandline=yes";
    "-T" ].

(** The last argument. *)
Definition destination (config : SSHConnectConfig) : string :=
  if truthy truthy_string (read (username config))
  then tpl_string (read (username config)) +:+ "@" +:+ host config
  else host config.

(** A chunk of output on one of the two streams. *)
Inductive Chunk : Type :=
  | on_stdout (data : string)
  | on_stderr (data : string).

Definition data_event (c : Chunk) : ProcEvent :=
  match c with
  | on_stdout data => stdout_data data
  | on_stderr data => stderr_data data
  end.

(** The text accumulated from [a] on by a sequence of chunks. *)
Definition accumulate (a : Output) (c : Chunk) : Output :=
  match c with
  | on_stdout data => {| stdout := stdout a +:+ data; stderr := stderr a |}
  | on_stderr data => {| stdout := stdout a; stderr := stderr a +:+ data |}
  end.

Definition accumulated (chunks : list Chunk) : Output :=
  fold_left accumulate chunks {| stdout := ""; stderr := "" |}.

(** The tester rejects the accumulated text after every chunk. *)
Fixpoint never_accepts (tester : string → string → bool) (a : Output)
    (chunks : list Chunk) : bool :=
  match chunks with
  | [] => true
  | c :: rest =>
      let a' := accumulate a c in
      negb (tester (stdout a') (stderr a')) && never_accepts tester a' rest
  end.

(** The exit-code policy shared by [exec] and [execAndWaitUntil]. *)
Definition exit_accepted (options : ExecOptions) (code : option Z) : bool :=
  bool_decide (code = Some 0%Z) || ignoreExitCode options.

(** The platform probe of a [resolve] call for [sshDest]. *)
Definition probe (w : RemoteSSHResolver.World)
    (sshDest : RemoteSSHResolver.SSHDestination) : Promise Output :=
  exec (config (new_SSHConnection (RemoteSSHResolver.connection_options w sshDest)))
       "uname -s" None no_options (RemoteSSHResolver.uname_child w).

(** The tunnel the resolver asks for, by what the server listens on. *)
Definition tunnel_request (listening : RemoteSSHResolver.ListeningOn)
    (port : Z) : SSHTunnelConfig :=
  match listening with
  | RemoteSSHResolver.on_port n =>
      {| localPort := Some port; remoteAddr := Some "localhost";
         remotePort := Some n; remoteSocketPath := None; name := None |}
  | RemoteSSHResolver.on_socket path =>
      {| localPort := Some port; remoteAddr := None;
         remotePort := None; remoteSocketPath := Some path; name := None |}
  end.

(** The type tag of an authority, [authority.split('+')[0]]. *)
Definition type_tag (authority : string) : string :=
  tpl_string (split "+" authority !! 0).

(** Two consecutive emissions made by one [emit] call. *)
Definition emitted_pair (bare compound : Emission) : Prop :=
  ∃ channel status payload,
    bare = {| eventName := channel;
              args := [arg_string status; arg_this; arg_payload payload] |} ∧
    compound = {| eventName := channel +:+ ":" +:+ status;
                  args := [arg_this; arg_payload payload] |}.

Fixpoint in_pairs (l : list Emission) : Prop :=
  match l with
  | [] => True
  | bare :: rest =>
      match rest with
      | [] => False
      | compound :: rest' => emitted_pair bare compound ∧ in_pairs rest'
      end
  end.

(** What can happen to a connection: a call of [addTunnel] or a turn of
    the event loop. *)
Inductive Operation : Type :=
  | call_addTunnel (tunnelConfig : SSHTunnelConfig)
  | turn (ev : Event).

Definition apply_operation (s : State) (op : Operation) : State :=
  match op with
  | call_addTunnel tunnelConfig => fst (addTunnel tunnelConfig s)
  | turn ev => handle s ev
  end.

Definition after (ops : list Operation) (s : State) : State :=
  fold_left apply_operation ops s.

End Vocabulary.

(** ** Concrete inputs *)

Module Scenario.
Import JS SSHConnection RemoteSSHResolver.

(** [{host: "example.com", username: "alice"}] *)
Definition alice_at_example : SSHConnectConfig :=
  {| host := "example.com"; port := Absent;
     username := Present (Some "alice"); identity := Absent;
     connectTimeout := Absent; sshOptions := Absent |}.

(** The configuration of a connection to port 0. *)
Definition config_port_0 : SSHConnectConfig :=
  new_config {| host := "example.com"; port := Present (Some 0%Z);
                username := Present (Some "alice"); identity := Absent;
                connectTimeout := Absent; sshOptions := Absent |}.

(** [{remoteAddr: "localhost", remotePort: 8000, localPort: 9000}] *)
Definition forward_9000 : SSHTunnelConfig :=
  {| remoteAddr := Some "localhost"; localPort := Some 9000%Z;
     remotePort := Some 8000%Z; remoteSocketPath := None; name := None |}.

(** [{remoteAddr: "localhost", remotePort: 8000}]: the local port is left
    to the operating system. *)
Definition forward_any : SSHTunnelConfig :=
  {| remoteAddr := Some "localhost"; localPort := None;
     remotePort := Some 8000%Z; remoteSocketPath := None; name := None |}.

(** The same tunnel asked for by name. *)
Definition forward_named : SSHTunnelConfig :=
  {| remoteAddr := None; localPort := Some 9001%Z;
     remotePort := None; remoteSocketPath := None;
     name := Some "localhost@8000" |}.

(** The child cannot resolve the host name: one line on stderr, then exit
    code 255, all within the grace window. *)
Definition unknown_host : list Event :=
  [ child_stderr 0 "ssh: Could not resolve hostname example.com: Name or service not known";
    child_exit 0 (Some 255%Z);
    grace_timeout 0 ].

(** The destination [alice@example.com], no port. *)
Definition alice : SSHDestination :=
  {| hostname := "example.com"; dest_port := None; user := Some "alice" |}.

(** A decoder that knows one destination, [alice@example.com]. *)
Definition decode_alice (dest : option string) : Thrown + SSHDestination :=
  match dest with
  | Some "alice%40example.com" => inr alice
  | _ => inl (Error "Invalid destination")
  end.

(** The remote host answers [Linux]; the bootstrap collaborator throws. *)
Definition world_bootstrap_throws : World :=
  {| serverDownloadUrlTemplate := None;
     defaultExtensions := [];
     remotePlatform := ∅;
     remoteServerListenOnSocket := false;
     setting_connectTimeout := 60;
     env_USER := Some "bob";
     parseEncoded := decode_alice;
     uname_child := [stdout_data "Linux"; close_event (Some 0%Z)];
     installCodeServer := λ _ _, Rejected (Error "Failed to download server");
     findRandomPort := Fulfilled 40123%Z;
     tunnel_loop := [grace_timeout 0] |}.

(** The probe child exits with code 255; bootstrap reports port 8000 and
    the token [tok]; the tunnel child is alive after the grace window. *)
Definition world_probe_fails : World :=
  {| serverDownloadUrlTemplate := None;
     defaultExtensions := [];
     remotePlatform := ∅;
     remoteServerListenOnSocket := false;
     setting_connectTimeout := 60;
     env_USER := Some "bob";
     parseEncoded := decode_alice;
     uname_child := [stderr_data "uname: not found"; close_event (Some 255%Z)];
     installCodeServer :=
       λ _ _, Fulfilled {| listeningOn := on_port 8000;
                           server_connectionToken := "tok" |};
     findRandomPort := Fulfilled 40123%Z;
     tunnel_loop := [grace_timeout 0] |}.

(** The host is known to run Linux; bootstrap reports port 8000; the tunnel
    child finds the local port taken. *)
Definition world_port_taken : World :=
  {| serverDownloadUrlTemplate := None;
     defaultExtensions := [];
     remotePlatform := {[ "example.com" := "linux" ]};
     remoteServerListenOnSocket := false;
     setting_connectTimeout := 60;
     env_USER := None;
     parseEncoded := decode_alice;
     uname_child := [];
     installCodeServer :=
       λ _ _, Fulfilled {| listeningOn := on_port 8000;
                           server_connectionToken := "tok" |};
     findRandomPort := Fulfilled 40123%Z;
     tunnel_loop :=
       [ child_stderr 0 "bind [127.0.0.1]:40123: Address already in use ";
         child_exit 0 None;
         grace_timeout 0 ] |}.

(** A tester waiting for [READY] on stdout. *)
Definition ready (stdout stderr : string) : bool := includes "READY" stdout.

End Scenario.

(** ** Vocabulary for the connection's life cycle *)

Module LifeCycle.
Import JS SSHConnection.

(** What [activeTunnels] may hold under [name]: the object of a spawned
    child that was asked for under this name, which is not empty. *)
Definition registered_ok (s : State) (name : string) (tunnel : ActiveTunnel) : Prop :=
  name ≠ "" ∧
  ∃ c, children s !! process tunnel = Some c
       ∧ closure_tunnel c = tunnel
       ∧ key_of (closure_config c) = name.

Definition well_formed (s : State) : Prop :=
  (∀ name tunnel, activeTunnels s !! name = Some tunnel →
                  registered_ok s name tunnel)
  ∧ (∀ k request, portRequests s !! k = Some request →
                  key_of (request_config request) ≠ "").

(** [keys] is an enumeration of the registered names, as [Object.keys]
    gives one. *)
Definition enumerates (keys : list string) (s : State) : Prop :=
  keys ≡ₚ elements (dom (activeTunnels s)).

(** Everything that can be done to a connection. *)
Inductive Call : Type :=
  | do_addTunnel (tunnelConfig : SSHTunnelConfig)
  | do_turn (ev : Event)
  | do_closeTunnel (name : option string) (keys : list string)
  | do_close (keys : list string).

Definition perform_call (s : State) (c : Call) : option State :=
  match c with
  | do_addTunnel tunnelConfig => Some (fst (addTunnel tunnelConfig s))
  | do_turn ev => Some (handle s ev)
  | do_closeTunnel name keys => closeTunnel name keys s
  | do_close keys => close keys s
  end.

Fixpoint follow (calls : list Call) (s : State) : option State :=
  match calls with
  | [] => Some s
  | c :: rest =>
      match perform_call s c with
      | Some s' => follow rest s'
      | None => None
      end
  end.

(** Closing the given keys in turn, as the second branch of [closeTunnel]
    does. *)
Definition close_keys (keys : list string) (s : State) : State :=
  fold_left (λ s key, closeTunnel_one key s) keys s.

(** The number of [kill()] calls a child has received. *)
Definition kills (s : State) (child : nat) : option nat :=
  kill_calls <$> children s !! child.

(** One [emit] call, as the two emissions it makes. *)
Definition emissions (channel status : string) (payload : Payload) : list Emission :=
  [ {| eventName := channel;
       args := [arg_string status; arg_this; arg_payload payload] |};
    {| eventName := channel +:+ ":" +:+ status;
       args := [arg_this; arg_payload payload] |} ].

(** Two promises settled in the same way: both pending, both fulfilled
    with the same value, or both rejected. *)
Definition same_settlement {A} (p q : Promise A) : Prop :=
  match p, q with
  | Pending, Pending => True
  | Fulfilled a, Fulfilled b => a = b
  | Rejected _, Rejected _ => True
  | _, _ => False
  end.

(** Two calls of the same kind, with the same value for [resolve]. *)
Definition same_call (a b : Action) : Prop :=
  match a, b with
  | Resolve v, Resolve v' => v = v'
  | Reject _, Reject _ => True
  | Kill, Kill => True
  | _, _ => False
  end.

(** Every promise settled in [s] is settled in [s'] in the same way. *)
Definition keeps_settled (s s' : State) : Prop :=
  ∀ p, promise_of s p ≠ Pending → promise_of s' p = promise_of s p.

(** The child at index [i] was started by a connection made from
    [options]: its tunnel object names it, and its arguments are the
    connection's followed by the forwarding of its request. *)
Definition spawned_by (options : SSHConnectConfig) (i : nat) (c : TunnelChild) : Prop :=
  process (closure_tunnel c) = i
  ∧ ∃ p, spread (closure_tunnel c) = set_localPort p (closure_config c)
         ∧ spawn_args c =
             buildSSHArgs (new_config options) ++ tunnelArgs (closure_config c) p.

(** A connection made from [options] whose children were all started by
    it. *)
Definition spawned_all (options : SSHConnectConfig) (s : State) : Prop :=
  config s = new_config options
  ∧ ∀ i c, children s !! i = Some c → spawned_by options i c.

End LifeCycle.

(** ** Vocabulary for the resolver's life cycle *)

Module ResolverLife.
Import JS SSHConnection RemoteSSHResolver.

(** The same world with another behaviour of the probe child. *)
Definition with_uname_child (events : list ProcEvent) (w : World) : World :=
  {| serverDownloadUrlTemplate := serverDownloadUrlTemplate w;
     defaultExtensions := defaultExtensions w;
     remotePlatform := remotePlatform w;
     remoteServerListenOnSocket := remoteServerListenOnSocket w;
     setting_connectTimeout := setting_connectTimeout w;
     env_USER := env_USER w;
     parseEncoded := parseEncoded w;
     uname_child := events;
     installCodeServer := installCodeServer w;
     findRandomPort := findRandomPort w;
     tunnel_loop := tunnel_loop w |}.

(** The same resolver holding another connection, or none. *)
Definition with_sshConnection (c : option State) (r : Resolver) : Resolver :=
  {| sshConnection := c; tunnels := tunnels r; journal := journal r |}.

(** One [resolve] call: the world it meets, the authority, the attempt. *)
Record ResolveCall : Type := {
  call_world : World;
  call_authority : string;
  call_attempt : Z
}.

(** The resolver after a series of [resolve] calls. *)
Definition resolved_all (calls : list ResolveCall) (r : Resolver) : Resolver :=
  fold_left
    (λ r c, fst (resolve (call_world c) (call_authority c) (call_attempt c) r))
    calls r.

(** No [+] in a string. *)
Fixpoint plus_free (s : string) : bool :=
  match s with
  | EmptyString => true
  | String a rest => negb (Ascii.eqb a "+") && plus_free rest
  end.

(** A string up to its first [+]. *)
Fixpoint before_plus (s : string) : string :=
  match s with
  | EmptyString => EmptyString
  | String a rest =>
      if Ascii.eqb a "+" then EmptyString else String a (before_plus rest)
  end.

(** What [resolve] does once the type tag has been accepted, when the
    part of the authority after the tag is [dest]. *)
Definition resolve_destination (w : World) (authority : string) (attempt : Z)
    (dest : option string) (r : Resolver) : Resolver * Outcome :=
  let r :=
    {| sshConnection := sshConnection r; tunnels := tunnels r;
       journal :=
         journal r ++
         [logger_info ("Resolving ssh remote authority '" +:+ authority
                       +:+ "' (attempt #" +:+ number_toString attempt +:+ ")")] |} in
  match parseEncoded w dest with
  | inl e => (r, throws e)
  | inr sshDest =>
      let '(r, c) := resolve_task w sshDest r in
      (r, returns (promise_of_completion c))
  end.

End ResolverLife.

(** ** Vocabulary for the location history *)

Module HistoryLife.
Import JS RemoteLocationHistory.

(** The calls that change a history. *)
Inductive Update : Type :=
  | do_addLocation (host path : string)
  | do_removeLocation (host path : string).

Definition settlement (h : History) (u : Update) : Thrown + History :=
  match u with
  | do_addLocation host path => addLocation host path h
  | do_removeLocation host path => removeLocation host path h
  end.

(** The object after a call; a rejected call has changed nothing. *)
Definition updated (h : History) (u : Update) : History :=
  match settlement h u with
  | inr h' => h'
  | inl _ => h
  end.

Definition updated_all (us : list Update) (h : History) : History :=
  fold_left updated us h.

(** Every array of a history is free of duplicates. *)
Definition duplicate_free (history : gmap string (list string)) : Prop :=
  ∀ host hostLocations, history !! host = Some hostLocations → NoDup hostLocations.

(** No array of a history sits under a name of [Object.prototype]. *)
Definition shadows_nothing (history : gmap string (list string)) : Prop :=
  ∀ host, host ∈ Object_prototype → history !! host = None.

(** [l] without [path], in the same order. *)
Definition without (path : string) (l : list string) : list string :=
  List.filter (λ l, negb (String.eqb l path)) l.

End HistoryLife.

(** ** More concrete cases *)

Module Cases.
Import JS SSHConnection RemoteSSHResolver RemoteLocationHistory.
Import Scenario LifeCycle ResolverLife HistoryLife.

(** A second tunnel, asked for by name. *)
Definition forward_db : SSHTunnelConfig :=
  {| remoteAddr := Some "db.internal"; localPort := Some 15432%Z;
     remotePort := Some 5432%Z; remoteSocketPath := None; name := Some "db" |}.

(** What [activeTunnels] holds for the two tunnels. *)
Definition tunnel_9000 : ActiveTunnel :=
  {| spread := {| remoteAddr := Some "localhost"; localPort := Some 9000%Z;
                  remotePort := Some 8000%Z; remoteSocketPath := None;
                  name := Some "localhost@8000" |};
     process := 0 |}.

Definition tunnel_db : ActiveTunnel :=
  {| spread := forward_db; process := 1 |}.

(** The child of the first tunnel, as [addTunnel] starts it. *)
Definition child_9000 : TunnelChild :=
  {| spawn_args :=
       [ "-o"; "ConnectTimeout=60"; "-o"; "ServerAliveInterval=60";
         "-o"; "ServerAliveCountMax=3"; "-o"; "EnableEscapeCommandline=yes";
         "-T"; "alice@example.com"; "-N"; "-L"; "9000:localhost:8000" ];
     closure_config := spread tunnel_9000;
     closure_tunnel := tunnel_9000;
     closure_stderr := ""; exitCode := None; kill_calls := 0;
     promise := Pending |}.

(** A connection with one tunnel, and with two. *)
Definition one_call : list Call := [do_addTunnel forward_9000].

Definition one_tunnel : State :=
  fst (addTunnel forward_9000 (new_SSHConnection alice_at_example)).

Definition two_calls : list Call :=
  [do_addTunnel forward_9000; do_addTunnel forward_db].

Definition two_tunnels : State := fst (addTunnel forward_db one_tunnel).

(** The connection with one tunnel once its grace window is over, what
    is then done to it, and the connection after that. *)
Definition established : State := run one_tunnel [grace_timeout 0].

Definition closing_calls : list Call :=
  [ do_closeTunnel (Some "localhost@8000") [];
    do_turn (child_exit 0 None);
    do_turn (grace_timeout 0);
    do_addTunnel forward_9000 ].

Definition reopened : State :=
  fst (addTunnel forward_9000
         (run (closeTunnel_one "localhost@8000" established)
              [child_exit 0 None; grace_timeout 0])).

(** The tunnel the resolver gets in [world_probe_fails]. *)
Definition tunnel_40123 : ActiveTunnel :=
  {| spread := {| remoteAddr := Some "localhost"; localPort := Some 40123%Z;
                  remotePort := Some 8000%Z; remoteSocketPath := None;
                  name := Some "localhost@8000" |};
     process := 0 |}.

(** One successful [resolve] call. *)
Definition one_resolve : list ResolveCall :=
  [ {| call_world := world_probe_fails;
       call_authority := "ssh-remote+alice%40example.com";
       call_attempt := 1 |} ].

(** A stored history with one host and two locations. *)
Definition stored_history : gmap string (list string) :=
  {[ "example.com" := ["/srv"; "/home/alice"] ]}.

Definition some_updates : list Update :=
  [ do_addLocation "example.com" "/srv";
    do_removeLocation "example.com" "/home/alice";
    do_addLocation "db.internal" "/var/lib";
    do_addLocation "constructor" "/tmp" ].

End Cases.

(** * Properties *)

Import JS SSHConnection RemoteSSHResolver Specified Vocabulary Scenario.

Section Arguments.

Example buildSSHArgs_port_0 :
  buildSSHArgs config_port_0 =
    [ "-o"; "ConnectTimeout=60"; "-o"; "ServerAliveInterval=60";
      "-o"; "ServerAliveCountMax=3"; "-o"; "EnableEscapeCommandline=yes";
      "-T"; "alice@example.com" ].
Proof. reflexivity. Qed.

(** Two scenarios of the specification, as checks of the embedding. *)
Example buildSSHArgs_alice_port_22 :
  buildSSHArgs
    (new_config {| host := "example.com"; port := Present (Some 22%Z);
                   username := Present (Some "alice"); identity := Absent;
                   connectTimeout := Absent; sshOptions := Absent |}) =
    [ "-o"; "ConnectTimeout=60"; "-o"; "ServerAliveInterval=60";
      "-o"; "ServerAliveCountMax=3"; "-o"; "EnableEscapeCommandline=yes";
      "-T"; "alice@example.com" ].
Proof. reflexivity. Qed.

Example tunnelArgs_forward_9000 :
  tunnelArgs forward_9000 9000 = ["-N"; "-L"; "9000:localhost:8000"].
Proof. reflexivity. Qed.

(** C1, as stated, does not hold of [buildSSHArgs]: the vector built for
    [{host: "example.com", username: "alice", port: 0}] asks for no batch
    mode (the fourth option is [EnableEscapeCommandline=yes]), and although
    its port is not 22 it has no [-p]. *)
Lemma buildSSHArgs_not_as_specified :
  ¬ batch_mode_clause config_port_0 ∧ ¬ port_clause config_port_0.
Proof.
  split.
  - unfold batch_mode_clause. rewrite buildSSHArgs_port_0. vm_compute. discriminate.
  - intros [_ H]. specialize (H ltac:(vm_compute; discriminate)).
    rewrite buildSSHArgs_port_0 in H. vm_compute in H. discriminate.
Qed.

(** A number never prints as the flag [-p]. *)
Lemma number_toString_not_flag (n : Z) : number_toString n ≠ "-p".
Proof.
  unfold number_toString.
  destruct n as [|p|p]; cbn; [discriminate|..];
    destruct (Pos.to_uint p); cbn; discriminate.
Qed.

(** C1 (amended): [buildSSHArgs] is a function of the configuration alone.
    Its result is the connection timeout, [ServerAliveInterval=60],
    [ServerAliveCountMax=3], [EnableEscapeCommandline=yes] and [-T]; then
    [-i identity] exactly when a non-empty identity is configured; then
    [-p port] exactly when the port is set, non-zero and not 22; then the
    extra options in order; then the destination, [user@host] when a
    non-empty user name is configured and [host] otherwise. So the vector
    has one [-p] more than the identity, the extra options and the
    destination bring along when the port is set, non-zero and not 22, and
    none more otherwise. *)
Theorem buildSSHArgs_contract (config : SSHConnectConfig) :
  let identity_part :=
    if truthy truthy_string (read (identity config))
    then ["-i"; tpl_string (read (identity config))] else [] in
  let port_given :=
    truthy truthy_number (read (port config))
    && negb (bool_decide (read (port config) = Some 22%Z)) in
  let extra := default [] (read (sshOptions config)) in
  buildSSHArgs config =
    connection_options_prefix config
    ++ identity_part
    ++ (if port_given then ["-p"; tpl_number (read (port config))] else [])
    ++ extra
    ++ [destination config]
  ∧ count_occ string_dec (buildSSHArgs config) "-p" =
      (if port_given then 1 else 0)
      + count_occ string_dec (identity_part ++ extra ++ [destination config]) "-p".
Proof.
  intros identity_part port_given extra.
  assert (buildSSHArgs config =
            connection_options_prefix config ++ identity_part
            ++ (if port_given then ["-p"; tpl_number (read (port config))] else [])
            ++ extra ++ [destination config]) as Hshape.
  { unfold buildSSHArgs, connection_options_prefix, destination, push,
      identity_part, port_given, extra.
    destruct (read (identity config)) as [i|]; simpl;
      [destruct (truthy_string i)|];
      (destruct (read (port config)) as [p|]; simpl;
       [ destruct (truthy_number p); simpl;
         [ rewrite (bool_decide_ext _ (p = 22%Z)) by (split; congruence);
           destruct (Z.eqb_spec p 22);
           [ rewrite bool_decide_eq_true_2 by done
           | rewrite bool_decide_eq_false_2 by done ]; simpl | ] | ]);
      (destruct (read (sshOptions config)) as [[|o opts]|]; simpl;
       rewrite ?app_nil_r; try reflexivity;
       rewrite <- ?app_assoc; reflexivity). }
  split; [exact Hshape|]. rewrite Hshape.
  rewrite !count_occ_app.
  assert (count_occ string_dec (connection_options_prefix config) "-p" = 0) as ->.
  { unfold connection_options_prefix.
    repeat (rewrite count_occ_cons_neq by discriminate). done. }
  assert (count_occ string_dec
            (if port_given then ["-p"; tpl_number (read (port config))] else [])
            "-p" = if port_given then 1 else 0) as ->.
  { destruct port_given eqn:Hgiven; [|done].
    rewrite count_occ_cons_eq by done.
    rewrite count_occ_cons_neq; [done|].
    unfold port_given in Hgiven. apply andb_prop in Hgiven as [Hp _].
    destruct (read (port config)) as [p|]; [|done].
    apply number_toString_not_flag. }
  lia.
Qed.

(** C10: the constructor's merge gives a key its default only when the
    options object does not have the key; a key present with [undefined]
    stays [undefined]. The connection the resolver constructs has exactly
    the destination's port, so no port when the destination has none. And
    [buildSSHArgs] builds the same vector, without [-p], whether the port
    key is absent, [undefined], 0 or 22. *)
Theorem defaults_fill_absent_keys_only
    (options : SSHConnectConfig) (w : World) (sshDest : SSHDestination) :
  read (port (new_config options)) =
    match port options with
    | Absent => Some 22%Z
    | Present v => v
    end
  ∧ read (connectTimeout (new_config options)) =
      match connectTimeout options with
      | Absent => Some 60%Z
      | Present v => v
      end
  ∧ read (port (config (new_SSHConnection (connection_options w sshDest)))) =
      dest_port sshDest
  ∧ (let no_port_flag :=
       connection_options_prefix options
       ++ (if truthy truthy_string (read (identity options))
           then ["-i"; tpl_string (read (identity options))] else [])
       ++ default [] (read (sshOptions options))
       ++ [destination options] in
     buildSSHArgs (with_port Absent options) = no_port_flag
     ∧ buildSSHArgs (with_port (Present None) options) = no_port_flag
     ∧ buildSSHArgs (with_port (Present (Some 0%Z)) options) = no_port_flag
     ∧ buildSSHArgs (with_port (Present (Some 22%Z)) options) = no_port_flag).
Proof.
  split; [|split; [|split]].
  - simpl. by destruct (port options).
  - simpl. by destruct (connectTimeout options).
  - reflexivity.
  - unfold buildSSHArgs, connection_options_prefix, destination, push; simpl.
    destruct (read (identity options)) as [i|]; simpl;
      [destruct (truthy_string i)|];
      (destruct (read (sshOptions options)) as [[|o opts]|]; simpl;
       rewrite ?app_nil_r; repeat split; reflexivity).
Qed.

(** The resolver's connection for [alice@example.com], no port given. *)
Example resolver_connection_without_port (w : World) :
  let options :=
    connection_options w {| hostname := "example.com"; dest_port := None;
                            user := Some "alice" |} in
  port options = Present None
  ∧ read (port (new_config options)) = None
  ∧ buildSSHArgs (new_config options) =
      [ "-o"; "ConnectTimeout=" +:+ number_toString (setting_connectTimeout w);
        "-o"; "ServerAliveInterval=60"; "-o"; "ServerAliveCountMax=3";
        "-o"; "EnableEscapeCommandline=yes"; "-T"; "alice@example.com" ].
Proof. repeat split. Qed.

End Arguments.

Section OneShot.

Lemma deliver_app on c events1 events2 :
  deliver on c (events1 ++ events2) =
    let '(c1, acts1) := deliver on c events1 in
    let '(c2, acts2) := deliver on c1 events2 in
    (c2, acts1 ++ acts2).
Proof.
  revert c. induction events1 as [|ev events1 IH]; intros c; simpl.
  - by destruct (deliver on c events2).
  - destruct (on c ev) as [c1 acts]. rewrite IH.
    destruct (deliver on c1 events1) as [c2 acts1].
    destruct (deliver on c2 events2) as [c3 acts2].
    by rewrite app_assoc.
Qed.

Lemma perform_settled_fulfilled acts v :
  fold_left perform acts (Fulfilled v) = Fulfilled v.
Proof. induction acts as [|[]]; simpl; auto. Qed.

Lemma perform_settled_rejected acts e :
  fold_left perform acts (@Rejected Output e) = Rejected e.
Proof. induction acts as [|[]]; simpl; auto. Qed.

Lemma settle_resolve_first v acts : settle (Resolve v :: acts) = Fulfilled v.
Proof. apply perform_settled_fulfilled. Qed.

Lemma settle_reject_first e acts : settle (Reject e :: acts) = Rejected e.
Proof. apply perform_settled_rejected. Qed.

Lemma exit_code_test options code :
  (match code with Some n => (n =? 0)%Z | None => false end
   || ignoreExitCode options) = exit_accepted options code.
Proof.
  unfold exit_accepted. f_equal. destruct code as [n|].
  - destruct (Z.eqb_spec n 0) as [->|Hn].
    + by rewrite bool_decide_eq_true_2.
    + rewrite bool_decide_eq_false_2; [done|congruence].
  - by rewrite bool_decide_eq_false_2.
Qed.

(** Chunks only accumulate in [exec]. *)
Lemma exec_accumulates sshArgs options a r chunks :
  deliver (exec_on sshArgs options) {| acc := a; resolved := r |}
          (map data_event chunks) =
    ({| acc := fold_left accumulate chunks a; resolved := r |}, []).
Proof.
  revert a. induction chunks as [|[data|data] chunks IH]; intros a; simpl;
    [done| rewrite IH; by destruct a ..].
Qed.

(** Chunks the tester rejects only accumulate in [execAndWaitUntil]. *)
Lemma waiting_accumulates tester options a chunks :
  never_accepts tester a chunks = true →
  deliver (execAndWaitUntil_on tester options) {| acc := a; resolved := false |}
          (map data_event chunks) =
    ({| acc := fold_left accumulate chunks a; resolved := false |}, []).
Proof.
  revert a. induction chunks as [|c chunks IH]; intros a H; simpl in *; [done|].
  apply andb_prop in H as [Hc Hrest]. apply negb_true_iff in Hc.
  destruct c as [data|data]; simpl in *; rewrite Hc; simpl; by rewrite IH.
Qed.

(** Once [resolved] is set the listeners of [execAndWaitUntil] do nothing. *)
Lemma resolved_is_final tester options a events :
  deliver (execAndWaitUntil_on tester options) {| acc := a; resolved := true |}
          events =
    ({| acc := fold_left (λ a ev,
                   match ev with
                   | stdout_data d => accumulate a (on_stdout d)
                   | stderr_data d => accumulate a (on_stderr d)
                   | _ => a
                   end) events a;
        resolved := true |}, []).
Proof.
  revert a. induction events as [|[d|d|code|err] events IH]; intros a; simpl;
    [done| by rewrite IH ..].
Qed.

(** No listener of [execAndWaitUntil] ever kills the child. *)
Lemma waiting_never_kills tester options c events :
  count_kills (snd (deliver (execAndWaitUntil_on tester options) c events)) = 0.
Proof.
  revert c. induction events as [|ev events IH]; intros c; simpl; [done|].
  destruct (execAndWaitUntil_on tester options c ev) as [c1 acts] eqn:Hon.
  specialize (IH c1). destruct (deliver _ c1 events) as [c2 more]. simpl in *.
  unfold count_kills in *. rewrite List.filter_app, length_app, IH.
  assert (List.filter is_kill acts = []) as ->; [|done].
  unfold execAndWaitUntil_on in Hon.
  destruct ev; simpl in Hon;
    repeat match type of Hon with
           | context [if ?b then _ else _] => destruct b
           end; inversion Hon; reflexivity.
Qed.

(** C6: [exec] settles by the exit code. When the child closes after any
    output, the promise is fulfilled with the accumulated
    [{ stdout, stderr }] if the code is 0 or [ignoreExitCode] was passed,
    and rejected otherwise with an error whose message carries the exit
    code and both outputs; when the child cannot be started, the promise is
    rejected with the error Node.js reports. *)
Theorem exec_exit_code_policy
    (config : SSHConnectConfig) (cmd : string) (params : option (list string))
    (options : ExecOptions) (chunks : list Chunk) (code : option Z)
    (err : Thrown) (later : list ProcEvent) :
  exec config cmd params options
       (map data_event chunks ++ close_event code :: later) =
    (if exit_accepted options code
     then Fulfilled (accumulated chunks)
     else Rejected
            (Error ("Command " +:+ join "," (buildSSHArgs config ++ [command_line cmd params])
                    +:+ " failed with exit code " +:+ tpl_code code
                    +:+ ": " +:+ stdout (accumulated chunks)
                    +:+ " " +:+ stderr (accumulated chunks))))
  ∧ exec config cmd params options
         (map data_event chunks ++ error_event err :: later) =
      Rejected err.
Proof.
  unfold exec, initial_closure; split; rewrite deliver_app, exec_accumulates;
    cbn [deliver exec_on].
  - rewrite exit_code_test.
    destruct (exit_accepted options code);
      destruct (deliver _ _ later) as [c2 more]; simpl snd.
    + apply settle_resolve_first.
    + apply settle_reject_first.
  - destruct (deliver _ _ later) as [c2 more]. apply settle_reject_first.
Qed.

(** C7: [execAndWaitUntil] resolves at the first chunk after which the
    tester accepts the accumulated output, with that output; whatever the
    child does later, no other [resolve] or [reject] call is made and the
    child is never killed. When the child closes before the tester ever
    accepted, the exit-code policy of [exec] decides. *)
Theorem execAndWaitUntil_resolves_once
    (config : SSHConnectConfig) (cmd : string) (params : option (list string))
    (tester : string → string → bool) (options : ExecOptions)
    (before : list Chunk) (chunk : Chunk) (later : list ProcEvent)
    (silent : list Chunk) (code : option Z) (after_close : list ProcEvent)
    (Hbefore : never_accepts tester {| stdout := ""; stderr := "" |} before = true)
    (Hchunk : tester (stdout (accumulated (before ++ [chunk])))
                     (stderr (accumulated (before ++ [chunk]))) = true)
    (Hsilent : never_accepts tester {| stdout := ""; stderr := "" |} silent = true) :
  let hit := map data_event before ++ data_event chunk :: later in
  let missed := map data_event silent ++ close_event code :: after_close in
  execAndWaitUntil_actions tester options hit =
    [Resolve (accumulated (before ++ [chunk]))]
  ∧ execAndWaitUntil config cmd tester params options hit =
      Fulfilled (accumulated (before ++ [chunk]))
  ∧ count_resolves (execAndWaitUntil_actions tester options hit) = 1
  ∧ count_kills (execAndWaitUntil_actions tester options hit) = 0
  ∧ execAndWaitUntil config cmd tester params options missed =
      (if exit_accepted options code
       then Fulfilled (accumulated silent)
       else Rejected
              (Error ("Command failed with exit code " +:+ tpl_code code
                      +:+ ": " +:+ stdout (accumulated silent)
                      +:+ " " +:+ stderr (accumulated silent))))
  ∧ count_kills (execAndWaitUntil_actions tester options missed) = 0.
Proof.
  intros hit missed.
  assert (execAndWaitUntil_actions tester options hit =
            [Resolve (accumulated (before ++ [chunk]))]) as Hhit.
  { unfold execAndWaitUntil_actions, hit, initial_closure.
    rewrite deliver_app, waiting_accumulates by done.
    unfold accumulated in *. rewrite fold_left_app in *. simpl in *.
    destruct chunk as [data|data]; simpl in *; rewrite Hchunk; simpl;
      rewrite resolved_is_final; reflexivity. }
  split; [exact Hhit|]. unfold execAndWaitUntil. rewrite Hhit.
  split; [reflexivity|]. split; [reflexivity|]. split; [reflexivity|].
  split; [|apply waiting_never_kills].
  unfold execAndWaitUntil_actions, missed, initial_closure.
  rewrite deliver_app, waiting_accumulates by done.
  cbn [deliver execAndWaitUntil_on resolved negb acc]. rewrite exit_code_test.
  fold (accumulated silent).
  destruct (exit_accepted options code);
    destruct (deliver _ _ after_close) as [c2 more]; simpl snd.
  - apply settle_resolve_first.
  - apply settle_reject_first.
Qed.

End OneShot.

(** For C7: [READY] arrives in two pieces while the child keeps running;
    and a child that exits with code 1 before saying [READY]. *)
Lemma execAndWaitUntil_ready :
  execAndWaitUntil_actions ready no_options
    [ stdout_data "boot "; stderr_data "warn"; stdout_data "REA";
      stdout_data "DY"; stdout_data " again READY"; close_event (Some 1%Z) ] =
    [ Resolve {| stdout := "boot READY"; stderr := "warn" |} ]
  ∧ execAndWaitUntil alice_at_example "serve" ready None no_options
      [ stdout_data "boot "; stderr_data "warn"; close_event (Some 1%Z) ] =
      Rejected (Error "Command failed with exit code 1: boot  warn").
Proof.
  pose proof (execAndWaitUntil_resolves_once alice_at_example "serve" None
                ready no_options
                [on_stdout "boot "; on_stderr "warn"; on_stdout "REA"]
                (on_stdout "DY")
                [stdout_data " again READY"; close_event (Some 1%Z)]
                [on_stdout "boot "; on_stderr "warn"] (Some 1%Z) []
                eq_refl eq_refl eq_refl) as (Hhit & _ & _ & _ & Hmissed & _).
  exact (conj Hhit Hmissed).
Defined.

Section Events.

(** C8, as stated, does not hold of [emit]: listeners of the bare channel
    are called with the status first, then the client and the payload, so
    the two names do not receive the same arguments. *)
Lemma emit_not_as_specified :
  emit CHANNEL_TUNNEL STATUS_CONNECT payload_undefined
       (new_SSHConnection alice_at_example)
  ≠ emit_as_specified CHANNEL_TUNNEL STATUS_CONNECT payload_undefined
       (new_SSHConnection alice_at_example).
Proof. intros H. apply (f_equal emitted) in H. vm_compute in H. discriminate. Qed.

Lemma in_pairs_app l1 l2 : in_pairs l1 → in_pairs l2 → in_pairs (l1 ++ l2).
Proof.
  revert l1. fix IH 1. intros [|bare [|compound l1]]; simpl.
  - done.
  - done.
  - intros [Hpair H1] H2. split; [done|]. by apply IH.
Qed.

Lemma emit_emitted channel status payload s :
  emitted (emit channel status payload s) =
    emitted s ++
    [ {| eventName := channel;
         args := [arg_string status; arg_this; arg_payload payload] |};
      {| eventName := channel +:+ ":" +:+ status;
         args := [arg_this; arg_payload payload] |} ].
Proof. unfold emit, super_emit. simpl. by rewrite <- app_assoc. Qed.

Lemma emit_in_pairs channel status payload s :
  in_pairs (emitted s) → in_pairs (emitted (emit channel status payload s)).
Proof.
  intros H. rewrite emit_emitted. apply in_pairs_app; [done|].
  simpl. split; [|done]. by exists channel, status, payload.
Qed.

#[local] Opaque emit.

Lemma addTunnel_in_pairs tunnelConfig s :
  in_pairs (emitted s) → in_pairs (emitted (fst (addTunnel tunnelConfig s))).
Proof.
  intros H. unfold addTunnel.
  destruct (getTunnel _ _); simpl.
  - by do 2 apply emit_in_pairs.
  - unfold _createTunnel. destruct (_ =? _)%Z; simpl; by apply emit_in_pairs.
Qed.

Lemma handle_in_pairs s ev :
  in_pairs (emitted s) → in_pairs (emitted (handle s ev)).
Proof.
  intros H. destruct ev as [request port|child errno err|child code|child data|child];
    simpl.
  - destruct (portRequests s !! request) as [[tunnelConfig [|]]|]; done.
  - destruct (children s !! child); [simpl; by apply emit_in_pairs|done].
  - destruct (children s !! child); [|done].
    destruct (_ && _); [simpl; by apply emit_in_pairs|done].
  - destruct (children s !! child); [|done]. by destruct (fatal_stderr _).
  - destruct (children s !! child) as [c|]; [|done].
    destruct (exitCode c); [by destruct (negb _)|].
    simpl. by apply emit_in_pairs.
Qed.

#[local] Transparent emit.

(** C8 (amended): one [emit(channel, status, payload)] makes exactly two
    emissions and changes nothing else: on the bare channel with the
    arguments (status, client, payload), then on [channel:status] with the
    arguments (client, payload). Everything a connection ever emits, through
    [addTunnel] calls and turns of the event loop, comes in such pairs. *)
Theorem emit_two_channels
    (channel status : string) (payload : Payload) (s : State)
    (options : SSHConnectConfig) (ops : list Operation) :
  emit channel status payload s =
    set_emitted
      (emitted s ++
       [ {| eventName := channel;
            args := [arg_string status; arg_this; arg_payload payload] |};
         {| eventName := channel +:+ ":" +:+ status;
            args := [arg_this; arg_payload payload] |} ]) s
  ∧ in_pairs (emitted (after ops (new_SSHConnection options))).
Proof.
  split.
  - unfold emit, super_emit, set_emitted. simpl. by rewrite <- app_assoc.
  - unfold after.
    assert (in_pairs (emitted (new_SSHConnection options))) as H by done.
    revert H. generalize (new_SSHConnection options).
    induction ops as [|op ops IH]; intros s0 H; simpl; [done|].
    apply IH. destruct op; simpl.
    + by apply addTunnel_in_pairs.
    + by apply handle_in_pairs.
Qed.

End Events.

Section Tunnels.

Lemma key_of_named tunnelConfig :
  key_of (set_name (tunnel_name tunnelConfig) tunnelConfig) = tunnel_name tunnelConfig.
Proof. reflexivity. Qed.

(** A call for a name that is registered: two emissions, the registered
    object, nothing else. *)
Lemma addTunnel_existing s tunnelConfig existing :
  getTunnel (tunnel_name tunnelConfig) s = Some existing →
  addTunnel tunnelConfig s =
    (let named := set_name (tunnel_name tunnelConfig) tunnelConfig in
     emit CHANNEL_TUNNEL STATUS_CONNECT (payload_config named)
       (emit CHANNEL_TUNNEL STATUS_BEFORECONNECT (payload_config named) s),
     resolved_with existing).
Proof.
  intros H. unfold addTunnel. cbv zeta. rewrite key_of_named.
  change (getTunnel ?n (emit ?c ?st ?p s)) with (getTunnel n s).
  by rewrite H.
Qed.

(** A call for a name that is not registered goes to [_createTunnel]. *)
Lemma addTunnel_fresh s tunnelConfig :
  getTunnel (tunnel_name tunnelConfig) s = None →
  addTunnel tunnelConfig s =
    (let named := set_name (tunnel_name tunnelConfig) tunnelConfig in
     _createTunnel named
       (emit CHANNEL_TUNNEL STATUS_BEFORECONNECT (payload_config named) s)).
Proof.
  intros H. unfold addTunnel. cbv zeta. rewrite key_of_named.
  change (getTunnel ?n (emit ?c ?st ?p s)) with (getTunnel n s).
  by rewrite H.
Qed.

(** The child and the registered object after [_startTunnelProcess]. *)
Lemma startTunnelProcess_registers tunnelConfig localPort s :
  let '(s', child) := _startTunnelProcess tunnelConfig localPort s in
  let tunnel := {| spread := set_localPort localPort tunnelConfig;
                   process := length (children s) |} in
  child = length (children s)
  ∧ getTunnel (key_of tunnelConfig) s' = Some tunnel
  ∧ (∃ c, children s' = children s ++ [c]
          ∧ closure_tunnel c = tunnel ∧ exitCode c = None ∧ promise c = Pending)
  ∧ portRequests s' = portRequests s.
Proof.
  unfold _startTunnelProcess, getTunnel. simpl.
  split; [done|]. split; [apply lookup_insert_eq|]. split; [|done].
  eexists. split; [reflexivity|]. done.
Qed.

(** The timer of a child that is alive and whose promise is pending. *)
Lemma grace_timeout_alive s child c :
  children s !! child = Some c → exitCode c = None → promise c = Pending →
  promise_of (handle s (grace_timeout child)) (of_child child) =
    Fulfilled (closure_tunnel c).
Proof.
  intros Hc Hexit Hp. unfold handle. rewrite Hc, Hexit.
  unfold promise_of, update_child. simpl.
  rewrite list_lookup_alter, Hc. simpl. rewrite Hp, decide_True by done.
  reflexivity.
Qed.

Lemma grace_timeout_keeps_requests s child :
  portRequests (handle s (grace_timeout child)) = portRequests s.
Proof.
  unfold handle. destruct (children s !! child) as [c|]; [|done].
  destruct (exitCode c); [by destruct (negb _)|done].
Qed.

Lemma promise_of_started s request tunnelConfig child :
  portRequests s !! request =
    Some {| request_config := tunnelConfig; started := Some child |} →
  promise_of s (of_request request) = promise_of s (of_child child).
Proof. intros H. unfold promise_of. by rewrite H. Qed.

(** X25: [addTunnel] is idempotent by name once the name is registered. A
    call whose computed name is registered in [activeTunnels] returns the
    registered object at once and spawns nothing. Hence of two calls with
    the same computed name, made from a state where
    [this.activeTunnels[name]] is undefined (nothing is registered under
    the name and [Object.prototype] has no member of that name), the
    second one made once the first call's child is spawned (at once for an
    explicit local port, after the port callback otherwise), exactly one
    child is spawned and both callers get the same object. *)
Theorem addTunnel_idempotent_by_name
    (s : State) (first second : SSHTunnelConfig) (port : Z)
    (Hname : tunnel_name first = tunnel_name second)
    (Hfree : getTunnel (tunnel_name first) s = None)
    (Hown : tunnel_name first ∉ Object_prototype) :
  (∀ (s0 : State) (existing : ActiveTunnel),
     getTunnel (tunnel_name second) s0 = Some existing →
     let '(s', p) := addTunnel second s0 in
     p = resolved_with existing
     ∧ children s' = children s0
     ∧ portRequests s' = portRequests s0
     ∧ activeTunnels s' = activeTunnels s0)
  ∧ (let '(s1, p1) := addTunnel first s in
     let s1 := run s1 (if truthy truthy_number (localPort first) then []
                       else [port_allocated (length (portRequests s)) port]) in
     let '(s2, p2) := addTunnel second s1 in
     let child := length (children s) in
     ∃ tunnel : ActiveTunnel,
       getTunnel (tunnel_name first) s1 = Some tunnel
       ∧ process tunnel = child
       ∧ p2 = resolved_with tunnel
       ∧ length (children s2) = S (length (children s))
       ∧ promise_of s2 p1 = Pending
       ∧ promise_of (handle s2 (grace_timeout child)) p1 = Fulfilled tunnel).
Proof.
  split.
  { intros s0 existing H. by rewrite (addTunnel_existing _ _ _ H). }
  rewrite (addTunnel_fresh _ _ Hfree). cbv zeta.
  set (named := set_name (tunnel_name first) first).
  set (s0 := emit CHANNEL_TUNNEL STATUS_BEFORECONNECT (payload_config named) s).
  assert (children s0 = children s) as Hchildren by done.
  assert (portRequests s0 = portRequests s) as Hrequests by done.
  assert (truthy truthy_number (localPort first) =
          negb (match localPort first with
                | Some p => if truthy_number p then p else 0
                | None => 0
                end =? 0)%Z) as ->.
  { destruct (localPort first) as [p|]; [|done]. simpl. unfold truthy_number.
    destruct (Z.eqb_spec p 0) as [->|Hp]; simpl; [done|].
    by apply Z.eqb_neq in Hp as ->. }
  unfold _createTunnel. change (localPort named) with (localPort first).
  destruct (_ =? 0)%Z; simpl negb; cbv iota.
  - (* no local port: the child is spawned by the port callback *)
    set (request := {| request_config := named; started := None |}).
    set (s1 := set_portRequests (portRequests s0 ++ [request]) s0).
    assert (portRequests s1 !! length (portRequests s) = Some request) as Hrequest
      by (unfold s1; cbn [portRequests set_portRequests];
          rewrite Hrequests; by apply list_lookup_middle).
    rewrite Hrequests. unfold run. cbn [fold_left].
    fold s1.
    assert (handle s1 (port_allocated (length (portRequests s)) port) =
              let '(s', child) := _startTunnelProcess named port s1 in
              set_portRequests
                (<[length (portRequests s) :=
                     {| request_config := named; started := Some child |}]>
                   (portRequests s')) s') as ->
      by (unfold handle; by rewrite Hrequest).
    pose proof (startTunnelProcess_registers named port s1) as Hstart.
    destruct (_startTunnelProcess named port s1) as [s1' child].
    destruct Hstart as (-> & Hreg & (c & Hc & Htunnel & Hexit & Hpending) & Hkeep).
    change (key_of named) with (tunnel_name first) in Hreg.
    change (children s1) with (children s) in *.
    set (s2 := set_portRequests _ s1').
    assert (getTunnel (tunnel_name second) s2 = Some (closure_tunnel c)) as Hsecond
      by (rewrite <- Hname, Htunnel; exact Hreg).
    rewrite (addTunnel_existing s2 second _ Hsecond). cbv zeta.
    exists (closure_tunnel c).
    assert (children s1' !! length (children s) = Some c) as Hlookup
      by (rewrite Hc; by apply list_lookup_middle).
    split; [by rewrite Htunnel|]. split; [by rewrite Htunnel|]. split; [done|].
    split; [simpl; rewrite Hc, length_app; simpl; lia|].
    set (s3 := emit _ _ _ (emit _ _ _ s2)).
    assert (portRequests s3 !! length (portRequests s) =
              Some {| request_config := named;
                      started := Some (length (children s)) |}) as Hstarted.
    { change (portRequests s3) with
        (<[length (portRequests s) :=
             {| request_config := named;
                started := Some (length (children s)) |}]> (portRequests s1')).
      rewrite Hkeep. apply list_lookup_insert_eq.
      change (portRequests s1) with (portRequests s0 ++ [request]).
      rewrite Hrequests, length_app. simpl. lia. }
    split.
    + rewrite (promise_of_started _ _ _ _ Hstarted).
      unfold promise_of. simpl. by rewrite Hlookup.
    + erewrite promise_of_started
        by (rewrite grace_timeout_keeps_requests; exact Hstarted).
      by apply grace_timeout_alive.
  - (* an explicit local port: the child is spawned by the call itself *)
    pose proof (startTunnelProcess_registers named
                  match localPort first with
                  | Some p => if truthy_number p then p else 0%Z
                  | None => 0%Z
                  end s0) as Hstart.
    destruct (_startTunnelProcess named _ s0) as [s1 child].
    destruct Hstart as (-> & Hreg & (c & Hc & Htunnel & Hexit & Hpending) & _).
    change (key_of named) with (tunnel_name first) in Hreg.
    rewrite Hchildren in *. unfold run. cbn [fold_left].
    assert (getTunnel (tunnel_name second) s1 = Some (closure_tunnel c)) as Hsecond
      by (rewrite <- Hname, Htunnel; exact Hreg).
    rewrite (addTunnel_existing s1 second _ Hsecond). cbv zeta.
    exists (closure_tunnel c).
    assert (children s1 !! length (children s) = Some c) as Hlookup
      by (rewrite Hc; by apply list_lookup_middle).
    split; [by rewrite Htunnel|]. split; [by rewrite Htunnel|]. split; [done|].
    split; [simpl; rewrite Hc, length_app; simpl; lia|].
    split.
    + unfold promise_of. simpl. by rewrite Hlookup.
    + by apply grace_timeout_alive.
Qed.

(** The timer of a child that exited after writing to stderr does nothing
    at all. *)
Lemma grace_timeout_after_exit_with_stderr s child c code :
  children s !! child = Some c → exitCode c = Some code →
  closure_stderr c ≠ "" →
  handle s (grace_timeout child) = s.
Proof.
  intros Hc Hexit Hstderr. unfold handle. rewrite Hc, Hexit.
  unfold truthy_string. by apply String.eqb_neq in Hstderr as ->.
Qed.

(** The timer of a child that exited silently rejects with the exit code. *)
Lemma grace_timeout_after_silent_exit s child c code :
  children s !! child = Some c → exitCode c = Some code →
  closure_stderr c = "" → promise c = Pending →
  promise_of (handle s (grace_timeout child)) (of_child child) =
    Rejected (Error ("Tunnel process exited with code " +:+ number_toString code)).
Proof.
  intros Hc Hexit Hstderr Hp. unfold handle. rewrite Hc, Hexit, Hstderr.
  unfold promise_of, update_child. simpl.
  rewrite list_lookup_alter, Hc, decide_True by done. simpl.
  by rewrite Hp, Hexit.
Qed.

(** C3 fails on the code at this input: the child writes a line without
    any of the three fatal patterns to stderr and exits with code 255 inside
    the grace window. The exit listener emits [disconnect] and removes the
    entry; the timer then finds a non-null exit code and a non-empty
    [stderr], and neither resolves nor rejects: the promise stays pending
    and no [TunnelExitedEarly] error is ever produced. *)
Theorem grace_window_leaves_promise_pending :
  let '(s, p) := addTunnel forward_9000 (new_SSHConnection alice_at_example) in
  let s' := run s unknown_host in
  fatal_stderr "ssh: Could not resolve hostname example.com: Name or service not known"
    = false
  ∧ (exitCode <$> children s' !! 0) = Some (Some 255%Z)
  ∧ promise_of s' p = Pending
  ∧ getTunnel "localhost@8000" s' = None
  ∧ map eventName (emitted s') =
      ["tunnel"; "tunnel:beforeconnect"; "tunnel"; "tunnel:disconnect"].
Proof. vm_compute. repeat split. Qed.

(** C2 fails on the code at this input: two [addTunnel] calls in one turn
    with specs that yield the same name, [localhost@8000], the first
    without a local port, the second with port 9000. The first call
    registers nothing before its port callback runs, so the second call
    finds the name free and spawns a child of its own, at once; the port
    callback of the first call then spawns a second child and overwrites
    the entry. Two children are spawned for the one name and the two
    callers get different objects. *)
Theorem addTunnel_twice_in_one_turn_two_children :
  let s0 := new_SSHConnection alice_at_example in
  let '(s1, p1) := addTunnel forward_any s0 in
  let '(s2, p2) := addTunnel forward_9000 s1 in
  let s3 := handle s2 (port_allocated 0 40001%Z) in
  let s4 := run s3 [grace_timeout 0; grace_timeout 1] in
  tunnel_name forward_any = "localhost@8000"
  ∧ tunnel_name forward_9000 = "localhost@8000"
  ∧ getTunnel "localhost@8000" s1 = None
  ∧ length (children s1) = 0
  ∧ length (children s2) = 1
  ∧ length (children s3) = 2
  ∧ (match promise_of s4 p1 with
     | Fulfilled t => Some (process t, localPort (spread t))
     | _ => None
     end) = Some (1, Some 40001%Z)
  ∧ (match promise_of s4 p2 with
     | Fulfilled t => Some (process t, localPort (spread t))
     | _ => None
     end) = Some (0, Some 9000%Z)
  ∧ (process <$> getTunnel "localhost@8000" s4) = Some 1
  ∧ (kill_calls <$> children s4 !! 0) = Some 0.
Proof. vm_compute. repeat split. Qed.

(** C4 fails on the code at this input: two [addTunnel] calls for the same
    name in one turn, no local port given. Neither call registers anything
    before its port callback runs, so the second call does not see the
    first: both spawn a child, the second entry overwrites the first, and
    the two callers end up with different objects. (Each entry is stored
    while its promise is still pending, and with an explicit local port
    the entry is stored by the call itself, so that a second call does see
    the first.) *)
Theorem concurrent_addTunnel_spawns_twice :
  let s0 := new_SSHConnection alice_at_example in
  let '(s1, p1) := addTunnel forward_any s0 in
  let '(s2, p2) := addTunnel forward_any s1 in
  let s3 := run s2 [port_allocated 0 40001%Z; port_allocated 1 40002%Z] in
  let s4 := run s3 [grace_timeout 0; grace_timeout 1] in
  tunnel_name forward_any = "localhost@8000"
  ∧ getTunnel "localhost@8000" s2 = None
  ∧ length (children s3) = 2
  ∧ (process <$> getTunnel "localhost@8000" s3) = Some 1
  ∧ promise_of s3 p1 = Pending
  ∧ promise_of s3 p2 = Pending
  ∧ (process <$> (match promise_of s4 p1 with Fulfilled t => Some t | _ => None end))
      = Some 0
  ∧ (process <$> (match promise_of s4 p2 with Fulfilled t => Some t | _ => None end))
      = Some 1.
Proof. vm_compute. repeat split. Qed.

End Tunnels.

(** Without a local port the second call sees the first once the port
    callback has run. *)
Example addTunnel_twice_after_port_callback :
  let '(s1, p1) := addTunnel forward_any (new_SSHConnection alice_at_example) in
  let s1 := handle s1 (port_allocated 0 40001%Z) in
  let '(s2, p2) := addTunnel forward_named s1 in
  length (children s2) = 1
  ∧ (process <$> getTunnel "localhost@8000" s2) = Some 0
  ∧ (match p2 with resolved_with t => Some (process t) | _ => None end) = Some 0
  ∧ promise_of (handle s2 (grace_timeout 0)) p1 =
      match p2 with resolved_with t => Fulfilled t | _ => Pending end.
Proof. vm_compute. repeat split. Qed.

(** For X25: [{remoteAddr: "localhost", remotePort: 8000, localPort: 9000}]
    and then the name ["localhost@8000"], on a new connection. *)
Lemma addTunnel_twice_one_child :
  let '(s1, p1) := addTunnel forward_9000 (new_SSHConnection alice_at_example) in
  let s1 := run s1 [] in
  let '(s2, p2) := addTunnel forward_named s1 in
  ∃ tunnel : ActiveTunnel,
    getTunnel "localhost@8000" s1 = Some tunnel
    ∧ process tunnel = 0
    ∧ p2 = resolved_with tunnel
    ∧ length (children s2) = 1
    ∧ promise_of s2 p1 = Pending
    ∧ promise_of (handle s2 (grace_timeout 0)) p1 = Fulfilled tunnel.
Proof.
  refine (proj2 (addTunnel_idempotent_by_name
                   (new_SSHConnection alice_at_example)
                   forward_9000 forward_named 0%Z eq_refl eq_refl _)).
  apply (bool_decide_unpack _). vm_compute. exact I.
Defined.

(** Unfolding the operations of [Task]. *)
Ltac unfold_task :=
  unfold mbind, task_bind, bind, mret, task_ret, ret, await, record,
    set_sshConnection, push_tunnel, throw.

Section Resolver.

Variable w : World.
Variable attempt : Z.
Variable r : Resolver.

Lemma bind_normal {A B} (m : Task A) (k : A → Task B) r0 r1 a :
  m r0 = (r1, Normal a) → (m ≫= k) r0 = k a r1.
Proof. intros H. unfold mbind, task_bind, bind. by rewrite H. Qed.

Lemma bind_throw {A B} (m : Task A) (k : A → Task B) r0 r1 e :
  m r0 = (r1, Throw e) → (m ≫= k) r0 = (r1, Throw e).
Proof. intros H. unfold mbind, task_bind, bind. by rewrite H. Qed.

(** The catch block turns whatever was thrown into the resolver's error. *)
Lemma resolve_task_rejections sshDest r0 r' e :
  resolve_task w sshDest r0 = (r', Throw e) →
  ∃ cause, e = RemoteAuthorityResolverError (message_of cause)
           ∧ last (journal r') =
               Some (logger_error ("Failed to resolve SSH authority: "
                                   +:+ String_of cause)).
Proof.
  unfold resolve_task, try_catch.
  destruct (resolve_try w sshDest r0) as [r1 [a|cause|]]; try discriminate.
  unfold resolve_catch. cbn. intros [= <- <-].
  exists cause. split; [done|]. simpl. by rewrite last_snoc.
Qed.

(** Platform detection never throws; it suspends only when the probe's
    promise never settles. *)
Lemma detect_platform_completes sshDest r0 :
  truthy truthy_string (remotePlatform w !! hostname sshDest) = true
  ∨ probe w sshDest ≠ Pending →
  ∃ platform entries,
    detect_platform w sshDest
      (new_SSHConnection (connection_options w sshDest)) r0 =
      ({| sshConnection := sshConnection r0; tunnels := tunnels r0;
          journal := journal r0 ++ entries |}, Normal platform).
Proof.
  intros H. unfold detect_platform.
  destruct (truthy truthy_string _) eqn:Hmap; simpl.
  - exists (remotePlatform w !! hostname sshDest), [].
    rewrite app_nil_r. by destruct r0.
  - destruct H as [|H]; [done|]. unfold probe in H.
    unfold try_catch. unfold_task.
    destruct (exec _ _ _ _ _) as [|out|e]; [done| |].
    + eexists _, []. rewrite app_nil_r. by destruct r0.
    + eexists _, [_]. reflexivity.
Qed.

(** The bootstrap step is the first thing the rest of the [try] block
    does, with the platform hint it was given. *)
Lemma bootstrap_is_called connection platform r0 :
  ∃ rest,
    journal (fst (try_catch (bootstrap_and_tunnel w connection platform)
                            resolve_catch r0)) =
      journal r0 ++
      install_called
        {| arg_serverDownloadUrlTemplate := serverDownloadUrlTemplate w;
           arg_defaultExtensions := defaultExtensions w;
           arg_extraExtensions := [];
           arg_platform := platform;
           arg_listenOnSocket := remoteServerListenOnSocket w |} :: rest.
Proof.
  unfold try_catch, bootstrap_and_tunnel, resolve_catch, await_addTunnel.
  unfold_task. cbn [journal].
  destruct (installCodeServer w connection _) as [|serverResult|e]; cbn.
  - by eexists [].
  - destruct (listeningOn serverResult) as [n|path];
      (destruct (findRandomPort w) as [|localPort|e]; cbn;
       [ by eexists []
       | destruct (addTunnel _ connection) as [connection1 p]; cbn;
         destruct (promise_of _ p) as [|tunnel|e]; cbn;
         [ by eexists []
         | by eexists []
         | rewrite <- app_assoc; by eexists [_] ]
       | rewrite <- app_assoc; by eexists [_] ]).
  - rewrite <- app_assoc. by eexists [_].
Qed.

(** A wrong type tag: the call itself throws a plain [Error]. *)
Lemma resolve_invalid_authority other :
  type_tag other ≠ REMOTE_SSH_AUTHORITY →
  resolve w other attempt r =
    (r, throws (Error ("Invalid authority type for SSH resolver: "
                       +:+ type_tag other))).
Proof.
  intros H. unfold resolve. fold (type_tag other).
  by apply String.eqb_neq in H as ->.
Qed.

(** From here on: an authority with the right type tag whose destination
    decodes to [sshDest]. *)
Variable authority : string.
Variable sshDest : SSHDestination.
Hypothesis Htype : type_tag authority = REMOTE_SSH_AUTHORITY.
Hypothesis Hparse : parseEncoded w (split "+" authority !! 1) = inr sshDest.

Let connection : State := new_SSHConnection (connection_options w sshDest).

Let resolving : Entry :=
  logger_info ("Resolving ssh remote authority '" +:+ authority
               +:+ "' (attempt #" +:+ number_toString attempt +:+ ")").

(** The call logs and returns the promise of the asynchronous body. *)
Lemma resolve_valid_authority :
  resolve w authority attempt r =
    let '(r', c) :=
      resolve_task w sshDest
        {| sshConnection := sshConnection r; tunnels := tunnels r;
           journal := journal r ++ [resolving] |} in
    (r', returns (promise_of_completion c)).
Proof using Htype Hparse.
  unfold resolve. fold (type_tag authority).
  apply String.eqb_eq in Htype as ->. simpl negb. cbv iota.
  unfold record. by rewrite Hparse.
Qed.

(** Once the platform step is over, [resolve] is the rest of its [try]
    block under the [catch] block. *)
Lemma resolve_after_detection :
  truthy truthy_string (remotePlatform w !! hostname sshDest) = true
  ∨ probe w sshDest ≠ Pending →
  ∃ platform entries,
    resolve w authority attempt r =
      let '(r', c) :=
        try_catch (bootstrap_and_tunnel w connection platform) resolve_catch
          {| sshConnection := Some connection; tunnels := tunnels r;
             journal := journal r ++ resolving :: entries |} in
      (r', returns (promise_of_completion c)).
Proof using Htype Hparse.
  intros Hprobe. rewrite resolve_valid_authority.
  set (r1 := {| sshConnection := sshConnection r |}).
  destruct (detect_platform_completes sshDest
              {| sshConnection := Some connection; tunnels := tunnels r1;
                 journal := journal r1 |} Hprobe)
    as (platform & entries & Hdetect).
  exists platform, entries.
  unfold resolve_task, resolve_try. fold connection.
  unfold try_catch at 1.
  unfold mbind at 1, task_bind at 1, bind at 1, set_sshConnection at 1.
  rewrite (bind_normal _ _ _ _ _ Hdetect).
  subst r1. cbn [sshConnection tunnels journal].
  rewrite <- app_assoc. reflexivity.
Qed.

(** C5 (amended): every failure inside the asynchronous body of [resolve]
    reaches the caller as a rejection with a
    [RemoteAuthorityResolverError] that carries the message of what was
    thrown, after that has been logged: so for the bootstrap collaborator,
    for the allocation of the local port and for the tunnel. When the
    bootstrap collaborator throws, no tunnel is recorded by the resolver
    and the connection has none. A wrong type tag is not wrapped: the call
    itself throws a plain [Error] that names the tag. *)
Theorem resolve_wraps_failures
    (err : Thrown) (serverResult : ServerResult) (localPort : Z)
    (Hprobe : truthy truthy_string (remotePlatform w !! hostname sshDest) = true
              ∨ probe w sshDest ≠ Pending) :
  let wrapped :=
    returns (Rejected (RemoteAuthorityResolverError (message_of err))) in
  (∃ r' p,
     resolve w authority attempt r = (r', returns p)
     ∧ ∀ e, p = Rejected e →
         ∃ cause,
           e = RemoteAuthorityResolverError (message_of cause)
           ∧ last (journal r') =
               Some (logger_error ("Failed to resolve SSH authority: "
                                   +:+ String_of cause)))
  ∧ ((∀ arguments, installCodeServer w connection arguments = Rejected err) →
     ∃ r',
       resolve w authority attempt r = (r', wrapped)
       ∧ tunnels r' = tunnels r
       ∧ sshConnection r' = Some connection
       ∧ activeTunnels connection = ∅
       ∧ children connection = [])
  ∧ ((∀ arguments,
        installCodeServer w connection arguments = Fulfilled serverResult) →
     findRandomPort w = Rejected err →
     ∃ r', resolve w authority attempt r = (r', wrapped)
           ∧ tunnels r' = tunnels r)
  ∧ ((∀ arguments,
        installCodeServer w connection arguments = Fulfilled serverResult) →
     findRandomPort w = Fulfilled localPort →
     (let '(connection1, p) :=
        addTunnel (tunnel_request (listeningOn serverResult) localPort)
                  connection in
      promise_of (run connection1 (tunnel_loop w)) p = Rejected err) →
     ∃ r', resolve w authority attempt r = (r', wrapped)
           ∧ tunnels r' = tunnels r)
  ∧ (∀ other : string,
       type_tag other ≠ REMOTE_SSH_AUTHORITY →
       resolve w other attempt r =
         (r, throws (Error ("Invalid authority type for SSH resolver: "
                            +:+ type_tag other)))).
Proof using Htype Hparse.
  intros wrapped.
  split.
  { rewrite resolve_valid_authority.
    destruct (resolve_task w sshDest _) as [r' c] eqn:Htask.
    exists r', (promise_of_completion c). split; [done|].
    intros e He. destruct c; simplify_eq/=.
    by apply (resolve_task_rejections _ _ _ _ Htask). }
  destruct (resolve_after_detection Hprobe) as (platform & entries & ->).
  unfold try_catch, bootstrap_and_tunnel, resolve_catch, await_addTunnel.
  unfold_task. cbn [sshConnection tunnels journal].
  split; [|split; [|split]].
  - intros Hinstall. rewrite Hinstall. eexists. split; [reflexivity|]. done.
  - intros Hinstall Hport. rewrite Hinstall.
    destruct (listeningOn serverResult); rewrite Hport;
      (eexists; split; [reflexivity|done]).
  - intros Hinstall Hport. rewrite Hinstall.
    destruct (listeningOn serverResult); rewrite Hport; cbn [tunnel_request];
      destruct (addTunnel _ connection) as [connection1 p];
      intros ->; (eexists; split; [reflexivity|done]).
  - intros other Hother. by apply resolve_invalid_authority.
Qed.

(** C9: when the host has no entry in the platform map and the
    [uname -s] probe fails, the failure is logged and [resolve] goes on
    exactly as the rest of its [try] block does for an undefined platform:
    the bootstrap collaborator is called next, with no platform hint, and
    only what happens from there on decides the outcome. The probe is run
    when [remotePlatformMap[sshDest.hostname]] is falsy: the map has no
    entry for the host and the host is not named like a member of
    [Object.prototype], which that lookup would find instead. *)
Theorem probe_failure_is_tolerated
    (err : Thrown)
    (Hmap : remotePlatform w !! hostname sshDest = None)
    (Hhost : hostname sshDest ∉ Object_prototype)
    (Hprobe : probe w sshDest = Rejected err) :
  let r1 :=
    {| sshConnection := Some connection;
       tunnels := tunnels r;
       journal := journal r ++
         [ resolving;
           logger_error ("Failed to detect platform: " +:+ String_of err) ] |} in
  resolve w authority attempt r =
    (let '(r', c) := try_catch (bootstrap_and_tunnel w connection None)
                               resolve_catch r1 in
     (r', returns (promise_of_completion c)))
  ∧ ∃ rest,
      journal (fst (resolve w authority attempt r)) =
        journal r1 ++
        install_called
          {| arg_serverDownloadUrlTemplate := serverDownloadUrlTemplate w;
             arg_defaultExtensions := defaultExtensions w;
             arg_extraExtensions := [];
             arg_platform := None;
             arg_listenOnSocket := remoteServerListenOnSocket w |} :: rest.
Proof using Htype Hparse.
  intros r1.
  assert (resolve w authority attempt r =
            (let '(r', c) := try_catch (bootstrap_and_tunnel w connection None)
                                       resolve_catch r1 in
             (r', returns (promise_of_completion c)))) as Hresolve.
  { rewrite resolve_valid_authority.
    unfold resolve_task, resolve_try. fold connection.
    unfold try_catch at 1.
    unfold mbind at 1, task_bind at 1, bind at 1, set_sshConnection at 1.
    cbn [sshConnection tunnels journal].
    erewrite bind_normal; [reflexivity|].
    unfold detect_platform. rewrite Hmap. cbn [truthy negb].
    unfold try_catch. cbv beta.
    unfold probe in Hprobe. fold connection in Hprobe.
    erewrite bind_throw by (unfold await; by rewrite Hprobe).
    unfold_task. cbn. by rewrite <- app_assoc. }
  split; [exact Hresolve|].
  rewrite Hresolve.
  destruct (bootstrap_is_called connection None r1) as [rest Hrest].
  exists rest. rewrite <- Hrest.
  by destruct (try_catch _ _ r1).
Qed.

End Resolver.

(** C5, as stated, does not hold of [resolve]: for an authority whose type
    tag is not [ssh-remote] the call throws, synchronously, a plain
    [Error]; no [RemoteAuthorityResolverError] is involved. *)
Lemma resolve_invalid_authority_not_wrapped :
  let outcome :=
    snd (resolve world_bootstrap_throws "ssh+alice%40example.com" 1
                 new_RemoteSSHResolver) in
  outcome = throws (Error "Invalid authority type for SSH resolver: ssh")
  ∧ ¬ failure_is_wrapped outcome.
Proof. vm_compute. split; [reflexivity|]. intros H. exact H. Qed.

(** For C5: the bootstrap collaborator throws
    [Error("Failed to download server")]. *)
Lemma resolve_bootstrap_throws :
  let connection := new_SSHConnection (connection_options world_bootstrap_throws alice) in
  ∃ r',
    resolve world_bootstrap_throws "ssh-remote+alice%40example.com" 1
            new_RemoteSSHResolver =
      (r', returns (Rejected (RemoteAuthorityResolverError
                                "Failed to download server")))
    ∧ tunnels r' = []
    ∧ sshConnection r' = Some connection
    ∧ activeTunnels connection = ∅
    ∧ children connection = [].
Proof.
  refine (proj1 (proj2 (resolve_wraps_failures world_bootstrap_throws 1
            new_RemoteSSHResolver "ssh-remote+alice%40example.com" alice
            eq_refl eq_refl
            (Error "Failed to download server")
            {| listeningOn := on_port 8000; server_connectionToken := "" |} 0%Z
            _)) (λ _, eq_refl)).
  right. vm_compute. discriminate.
Defined.

(** The same wrapping when the tunnel child reports that the local port is
    taken. *)
Example resolve_tunnel_fails :
  snd (resolve world_port_taken "ssh-remote+alice%40example.com" 1
               new_RemoteSSHResolver) =
    returns (Rejected (RemoteAuthorityResolverError
      "Failed to create tunnel: bind [127.0.0.1]:40123: Address already in use")).
Proof. vm_compute. reflexivity. Qed.

(** For C9: the probe exits with code 255 on a host without a platform
    entry; the bootstrap collaborator is called with no platform hint. *)
Lemma resolve_probe_fails_bootstrap_called :
  ∃ rest,
    journal (fst (resolve world_probe_fails "ssh-remote+alice%40example.com" 1
                          new_RemoteSSHResolver)) =
      [ logger_info "Resolving ssh remote authority 'ssh-remote+alice%40example.com' (attempt #1)";
        logger_error "Failed to detect platform: Error: Command -o,ConnectTimeout=60,-o,ServerAliveInterval=60,-o,ServerAliveCountMax=3,-o,EnableEscapeCommandline=yes,-T,alice@example.com,uname -s failed with exit code 255:  uname: not found" ]
      ++ install_called
           {| arg_serverDownloadUrlTemplate := None;
              arg_defaultExtensions := [];
              arg_extraExtensions := [];
              arg_platform := None;
              arg_listenOnSocket := false |} :: rest.
Proof.
  refine (proj2 (probe_failure_is_tolerated world_probe_fails 1
            new_RemoteSSHResolver "ssh-remote+alice%40example.com" alice
            eq_refl eq_refl
            (Error "Command -o,ConnectTimeout=60,-o,ServerAliveInterval=60,-o,ServerAliveCountMax=3,-o,EnableEscapeCommandline=yes,-T,alice@example.com,uname -s failed with exit code 255:  uname: not found")
            eq_refl _ eq_refl)).
  apply (bool_decide_unpack _). vm_compute. exact I.
Defined.

(** And the resolve call succeeds all the same. *)
Example resolve_despite_failed_probe :
  snd (resolve world_probe_fails "ssh-remote+alice%40example.com" 1
               new_RemoteSSHResolver) =
    returns (Fulfilled {| result_host := "localhost"; result_port := 40123;
                          connectionToken := "tok" |}).
Proof. vm_compute. reflexivity. Qed.

(** * Further properties of the connection *)

Import LifeCycle.

Section Closing.

Lemma emitted_emit channel status payload s :
  emitted (emit channel status payload s) =
    emitted s ++ emissions channel status payload.
Proof. unfold emit, super_emit, emissions. simpl. by rewrite <- app_assoc. Qed.

Lemma not_inherited name :
  name ∉ Object_prototype → existsb (String.eqb name) Object_prototype = false.
Proof.
  intros Hown. destruct (existsb _ _) eqn:Hex; [|done].
  exfalso. apply Hown. apply existsb_exists in Hex as (x & Hx & Heq).
  apply String.eqb_eq in Heq as ->. by apply list_elem_of_In.
Qed.

Lemma closeTunnel_one_unknown name s :
  activeTunnels s !! name = None → name ∉ Object_prototype →
  closeTunnel_one name s = s.
Proof.
  intros H Hown. unfold closeTunnel_one. by rewrite H, not_inherited.
Qed.

(** Closing a name that is not registered kills nothing. *)
Lemma closeTunnel_one_unregistered name s :
  activeTunnels s !! name = None →
  children (closeTunnel_one name s) = children s
  ∧ ∃ more, emitted (closeTunnel_one name s) = emitted s ++ more.
Proof.
  intros H. unfold closeTunnel_one. rewrite H.
  destruct (existsb _ _); (split; [done|]).
  - cbv zeta. change (emitted (set_activeTunnels ?m ?s0)) with (emitted s0).
    rewrite !emitted_emit. eexists. by rewrite <- app_assoc.
  - exists []. by rewrite app_nil_r.
Qed.

Lemma closeTunnel_one_tunnels name s :
  activeTunnels (closeTunnel_one name s) = delete name (activeTunnels s).
Proof.
  unfold closeTunnel_one. destruct (activeTunnels s !! name) eqn:H; [done|].
  destruct (existsb _ _); [done|]. by rewrite delete_id.
Qed.

(** X1: closing by name is idempotent, and closing a name that is not
    registered changes nothing at all: no emission, no kill. This is so
    for a name under which [this.activeTunnels[name]] finds nothing but a
    registered tunnel, that is, a name [Object.prototype] has no member
    for: under the name of such a member the lookup is truthy without any
    tunnel registered. *)
Theorem closeTunnel_by_name_idempotent
    (name : string) (keys keys' : list string) (s : State)
    (Hname : name ≠ "")
    (Hown : name ∉ Object_prototype) :
  (activeTunnels s !! name = None → closeTunnel (Some name) keys s = Some s)
  ∧ ∃ s', closeTunnel (Some name) keys s = Some s'
          ∧ activeTunnels s' !! name = None
          ∧ closeTunnel (Some name) keys' s' = Some s'.
Proof.
  assert (∀ k s0, closeTunnel (Some name) k s0 = Some (closeTunnel_one name s0)) as Hcall.
  { intros k s0. unfold closeTunnel. simpl. unfold truthy_string.
    by apply String.eqb_neq in Hname as ->. }
  split.
  - intros H. by rewrite Hcall, closeTunnel_one_unknown.
  - exists (closeTunnel_one name s). rewrite !Hcall.
    assert (activeTunnels (closeTunnel_one name s) !! name = None) as Hgone
      by (rewrite closeTunnel_one_tunnels; apply lookup_delete_eq).
    split; [done|]. split; [done|]. by rewrite closeTunnel_one_unknown.
Qed.

(** Under the name of a member of [Object.prototype] every call emits the
    two transitions again, with the member as payload. *)
Example closeTunnel_toString_emits_every_time :
  let s0 := new_SSHConnection alice_at_example in
  ∃ s1 s2,
    closeTunnel (Some "toString") [] s0 = Some s1
    ∧ closeTunnel (Some "toString") [] s1 = Some s2
    ∧ emitted s1 =
        emissions CHANNEL_TUNNEL STATUS_BEFOREDISCONNECT (payload_member "toString")
        ++ emissions CHANNEL_TUNNEL STATUS_DISCONNECT (payload_member "toString")
    ∧ emitted s2 = emitted s1 ++ emitted s1
    ∧ children s2 = [] ∧ activeTunnels s2 = ∅.
Proof. vm_compute. eexists _, _. repeat split. Qed.

(** ** What the map of active tunnels holds *)

Lemma append_at_nonempty (a b : string) : a +:+ "@" +:+ b ≠ "".
Proof. by destruct a. Qed.

Lemma tunnel_name_nonempty tunnelConfig : tunnel_name tunnelConfig ≠ "".
Proof.
  unfold tunnel_name.
  destruct (truthy truthy_string (name tunnelConfig)) eqn:H.
  - destruct (name tunnelConfig) as [n|]; [|done]. simpl in *.
    unfold truthy_string in H. apply negb_true_iff in H.
    by apply String.eqb_neq in H.
  - apply append_at_nonempty.
Qed.

Lemma well_formed_ext s s' :
  activeTunnels s' = activeTunnels s → children s' = children s →
  portRequests s' = portRequests s → well_formed s → well_formed s'.
Proof.
  intros Ht Hc Hp [Hreg Hreq]. unfold well_formed, registered_ok.
  rewrite Ht, Hc, Hp. by split.
Qed.

Lemma well_formed_emit channel status payload s :
  well_formed s → well_formed (emit channel status payload s).
Proof. intros H. by apply (well_formed_ext s). Qed.

Lemma well_formed_update_child i f s :
  (∀ c, closure_tunnel (f c) = closure_tunnel c
        ∧ closure_config (f c) = closure_config c) →
  well_formed s → well_formed (update_child i f s).
Proof.
  intros Hf [Hreg Hreq]. split; [|done].
  intros name tunnel H. destruct (Hreg name tunnel H) as (Hname & c & Hc & Ht & Hk).
  split; [done|]. unfold update_child. simpl.
  destruct (decide (i = process tunnel)) as [->|Hne].
  - exists (f c). rewrite list_lookup_alter, Hc, decide_True by done.
    destruct (Hf c) as [-> ->]. done.
  - exists c. by rewrite list_lookup_alter_ne.
Qed.

Lemma well_formed_delete name s :
  well_formed s →
  well_formed (set_activeTunnels (delete name (activeTunnels s)) s).
Proof.
  intros [Hreg Hreq]. split; [|done].
  intros n tunnel H. simpl in H. apply lookup_delete_Some in H as [_ H].
  exact (Hreg n tunnel H).
Qed.

Lemma well_formed_start tunnelConfig localPort s :
  key_of tunnelConfig ≠ "" → well_formed s →
  well_formed (fst (_startTunnelProcess tunnelConfig localPort s)).
Proof.
  intros Hkey [Hreg Hreq]. split; [|done].
  intros n tunnel H. unfold _startTunnelProcess in *. simpl in *.
  destruct (decide (key_of tunnelConfig = n)) as [<-|Hne].
  - rewrite lookup_insert_eq in H. injection H as <-. split; [done|].
    eexists. split; [by apply list_lookup_middle|]. done.
  - rewrite lookup_insert_ne in H by done.
    destruct (Hreg n tunnel H) as (Hname & c & Hc & Ht & Hk).
    split; [done|]. exists c. split; [|done].
    by apply lookup_app_l_Some.
Qed.

Lemma well_formed_new options : well_formed (new_SSHConnection options).
Proof. split; intros ? ? H; simpl in H; by rewrite ?lookup_empty in H. Qed.

Lemma well_formed_addTunnel tunnelConfig s :
  well_formed s → well_formed (fst (addTunnel tunnelConfig s)).
Proof.
  intros Hwf. unfold addTunnel. cbv zeta.
  set (named := set_name (tunnel_name tunnelConfig) tunnelConfig).
  assert (key_of named ≠ "") as Hkey by apply tunnel_name_nonempty.
  destruct (getTunnel _ _); cbn [fst].
  - by do 2 apply well_formed_emit.
  - unfold _createTunnel. destruct (_ =? 0)%Z.
    + cbn [fst].
      pose proof (well_formed_emit CHANNEL_TUNNEL STATUS_BEFORECONNECT
                    (payload_config named) s Hwf) as [Hreg Hreq].
      split; [exact Hreg|]. intros k request H. simpl in H.
      apply lookup_app_Some in H as [H|[_ H]]; [by eapply Hreq|].
      apply list_lookup_singleton_Some in H as [_ <-]. done.
    + pose proof (well_formed_start named
                    match localPort named with
                    | Some p => if truthy_number p then p else 0%Z
                    | None => 0%Z
                    end _ Hkey
                    (well_formed_emit CHANNEL_TUNNEL STATUS_BEFORECONNECT
                       (payload_config named) s Hwf)) as H.
      by destruct (_startTunnelProcess _ _ _).
Qed.

Lemma well_formed_handle s ev :
  well_formed s → well_formed (handle s ev).
Proof.
  intros Hwf.
  destruct ev as [request port|child errno err|child code|child data|child];
    unfold handle.
  - destruct (portRequests s !! request) as [[tunnelConfig [started|]]|] eqn:Hr;
      try done.
    pose proof (well_formed_start tunnelConfig port s
                  (proj2 Hwf _ _ Hr) Hwf) as H.
    destruct (_startTunnelProcess tunnelConfig port s) as [s1 child].
    destruct H as [Hreg Hreq]. split; [exact Hreg|].
    intros k req H. simpl in H.
    destruct (decide (request = k)) as [<-|Hne].
    + apply list_lookup_insert_Some in H as [(_ & <- & _)|[? _]]; [|done].
      exact (proj2 Hwf _ _ Hr).
    + rewrite list_lookup_insert_ne in H by done. by eapply Hreq.
  - destruct (children s !! child); [|done].
    apply well_formed_update_child; [done|].
    apply well_formed_delete. apply well_formed_emit.
    by apply well_formed_update_child.
  - destruct (children s !! child); [|done].
    destruct (_ && _).
    + apply well_formed_delete. apply well_formed_emit.
      by apply well_formed_update_child.
    + by apply well_formed_update_child.
  - destruct (children s !! child); [|done].
    destruct (fatal_stderr _).
    + apply well_formed_update_child; [done|]. apply well_formed_delete.
      apply well_formed_update_child; [done|].
      by apply well_formed_update_child.
    + by apply well_formed_update_child.
  - destruct (children s !! child) as [c|]; [|done].
    destruct (exitCode c).
    + destruct (negb _); [|done]. by apply well_formed_update_child.
    + apply well_formed_update_child; [done|]. by apply well_formed_emit.
Qed.

Lemma well_formed_closeTunnel_one name s :
  well_formed s → well_formed (closeTunnel_one name s).
Proof.
  intros Hwf. unfold closeTunnel_one.
  destruct (activeTunnels s !! name).
  - apply well_formed_delete, well_formed_emit.
    apply well_formed_update_child; [done|]. by apply well_formed_emit.
  - destruct (existsb _ _); [|done].
    by apply well_formed_delete, well_formed_emit, well_formed_emit.
Qed.

Lemma well_formed_closeTunnel name keys s s' :
  well_formed s → closeTunnel name keys s = Some s' → well_formed s'.
Proof.
  intros Hwf. unfold closeTunnel.
  destruct (truthy truthy_string name).
  - intros [= <-]. by apply well_formed_closeTunnel_one.
  - destruct (existsb _ keys); [done|]. intros [= <-].
    revert s Hwf. induction keys as [|k keys IH]; intros s Hwf; simpl; [done|].
    apply IH. by apply well_formed_closeTunnel_one.
Qed.

Lemma follow_well_formed options calls s :
  follow calls (new_SSHConnection options) = Some s → well_formed s.
Proof.
  generalize (well_formed_new options).
  generalize (new_SSHConnection options).
  induction calls as [|c calls IH]; intros s0 Hwf; simpl.
  - by intros [= <-].
  - destruct (perform_call s0 c) as [s1|] eqn:Hc; [|done].
    apply IH. destruct c; simpl in Hc.
    + injection Hc as <-. by apply well_formed_addTunnel.
    + injection Hc as <-. by apply well_formed_handle.
    + by eapply well_formed_closeTunnel.
    + unfold close in Hc.
      destruct (closeTunnel None keys _) as [s2|] eqn:H2; [|done].
      injection Hc as <-. apply well_formed_emit.
      eapply well_formed_closeTunnel; [|exact H2]. by apply well_formed_emit.
Qed.

(** X2: whatever is done to a connection ([addTunnel], turns of the event
    loop, [closeTunnel], [close]), a name registered in [activeTunnels] is
    never the empty string, and the object under it is the one built for a
    child that was spawned for a request of exactly this name. *)
Theorem registered_tunnels_are_well_formed
    (options : SSHConnectConfig) (calls : list Call) (s : State)
    (Hs : follow calls (new_SSHConnection options) = Some s) :
  ∀ name tunnel,
    getTunnel name s = Some tunnel →
    name ≠ ""
    ∧ ∃ c, children s !! process tunnel = Some c
           ∧ closure_tunnel c = tunnel
           ∧ tpl_string (SSHConnection.name (closure_config c)) = name.
Proof. exact (proj1 (follow_well_formed options calls s Hs)). Qed.

(** ** Closing every tunnel *)

Lemma closeTunnel_one_registered name tunnel s :
  activeTunnels s !! name = Some tunnel →
  children (closeTunnel_one name s) = alter killed (process tunnel) (children s)
  ∧ emitted (closeTunnel_one name s) =
      emitted s
      ++ emissions CHANNEL_TUNNEL STATUS_BEFOREDISCONNECT (payload_tunnel tunnel)
      ++ emissions CHANNEL_TUNNEL STATUS_DISCONNECT (payload_tunnel tunnel).
Proof.
  intros H. unfold closeTunnel_one. rewrite H. cbv zeta. split; [done|].
  change (emitted (set_activeTunnels ?m ?s0)) with (emitted s0).
  rewrite emitted_emit.
  change (emitted (update_child ?i ?f ?s0)) with (emitted s0).
  by rewrite emitted_emit, <- app_assoc.
Qed.

Lemma registered_injective s n n' t t' :
  well_formed s →
  activeTunnels s !! n = Some t → activeTunnels s !! n' = Some t' →
  process t = process t' → n = n'.
Proof.
  intros [Hreg _] H H' Hp.
  destruct (Hreg _ _ H) as (_ & c & Hc & _ & <-).
  destruct (Hreg _ _ H') as (_ & c' & Hc' & _ & <-).
  rewrite Hp in Hc. by simplify_eq.
Qed.

Lemma kills_closeTunnel_one name tunnel s i :
  activeTunnels s !! name = Some tunnel →
  kills (closeTunnel_one name s) i =
    (if decide (process tunnel = i) then S else id) <$> kills s i.
Proof.
  intros H. unfold kills.
  rewrite (proj1 (closeTunnel_one_registered _ _ _ H)).
  destruct (decide (process tunnel = i)) as [<-|Hne].
  - rewrite list_lookup_alter, decide_True by done.
    by destruct (children s !! process tunnel).
  - rewrite list_lookup_alter_ne by done.
    by destruct (children s !! i).
Qed.

Lemma close_keys_cons k keys s :
  close_keys (k :: keys) s = close_keys keys (closeTunnel_one k s).
Proof. reflexivity. Qed.

Lemma close_keys_tunnels keys s n :
  activeTunnels (close_keys keys s) !! n =
    if decide (n ∈ keys) then None else activeTunnels s !! n.
Proof.
  revert s. induction keys as [|k keys IH]; intros s.
  - change (close_keys [] s) with s.
    destruct (decide (n ∈ [])) as [H|H]; [by apply elem_of_nil in H|done].
  - rewrite close_keys_cons, IH, closeTunnel_one_tunnels.
    destruct (decide (n ∈ keys)) as [Hin|Hnot];
      destruct (decide (n ∈ k :: keys)) as [Hin'|Hnot']; try done.
    + exfalso. apply Hnot'. by right.
    + apply elem_of_cons in Hin' as [->|?]; [|done]. apply lookup_delete_eq.
    + apply lookup_delete_ne. intros ->. apply Hnot'. left.
Qed.

Lemma close_keys_spares keys s i :
  (∀ k t, k ∈ keys → activeTunnels s !! k = Some t → process t ≠ i) →
  kills (close_keys keys s) i = kills s i.
Proof.
  revert s. induction keys as [|k keys IH]; intros s Hother; [done|].
  rewrite close_keys_cons, IH.
  - destruct (activeTunnels s !! k) as [t|] eqn:Hk.
    + rewrite (kills_closeTunnel_one _ _ _ _ Hk).
      destruct (decide (process t = i)) as [Heq|_].
      * exfalso. eapply Hother; [left|done..].
      * by destruct (kills s i).
    + unfold kills. by rewrite (proj1 (closeTunnel_one_unregistered _ _ Hk)).
  - intros k' t' Hin H'. rewrite closeTunnel_one_tunnels in H'.
    apply lookup_delete_Some in H' as [_ H']. eapply Hother; [by right|done].
Qed.

Lemma close_keys_kills keys s :
  well_formed s → NoDup keys →
  ∀ n t, activeTunnels s !! n = Some t →
         kills (close_keys keys s) (process t) =
           (if decide (n ∈ keys) then S else id) <$> kills s (process t).
Proof.
  revert s. induction keys as [|k keys IH]; intros s Hwf Hnodup n t Hn.
  - change (close_keys [] s) with s.
    destruct (decide (n ∈ [])) as [H|H]; [by apply elem_of_nil in H|].
    by destruct (kills s (process t)).
  - apply NoDup_cons in Hnodup as [Hk Hnodup]. rewrite close_keys_cons.
    destruct (decide (n = k)) as [->|Hne].
    + destruct (decide (k ∈ k :: keys)) as [_|Hnot];
        [|exfalso; apply Hnot; left].
      rewrite close_keys_spares, (kills_closeTunnel_one _ _ _ _ Hn).
      * by destruct (decide (process t = process t)).
      * intros k' t' Hin H' Hp. rewrite closeTunnel_one_tunnels in H'.
        apply lookup_delete_Some in H' as [Hne H'].
        apply Hne. symmetry. by eapply (registered_injective s).
    + assert (activeTunnels (closeTunnel_one k s) !! n = Some t) as Hn1
        by (rewrite closeTunnel_one_tunnels; by rewrite lookup_delete_ne).
      rewrite (IH _ (well_formed_closeTunnel_one k s Hwf) Hnodup n t Hn1).
      assert (kills (closeTunnel_one k s) (process t) = kills s (process t)) as ->.
      { destruct (activeTunnels s !! k) as [tk|] eqn:Htk.
        - rewrite (kills_closeTunnel_one _ _ _ _ Htk).
          destruct (decide (process tk = process t)) as [Hp|_].
          + exfalso. apply Hne. symmetry. by eapply (registered_injective s).
          + by destruct (kills s (process t)).
        - unfold kills.
          by rewrite (proj1 (closeTunnel_one_unregistered _ _ Htk)). }
      destruct (decide (n ∈ keys)) as [Hin|Hnot];
        destruct (decide (n ∈ k :: keys)) as [Hin'|Hnot']; try done.
      * exfalso. apply Hnot'. by right.
      * exfalso. by apply elem_of_cons in Hin' as [?|?].
Qed.

Lemma close_keys_emitted keys s :
  (∀ k, k ∈ keys → is_Some (activeTunnels s !! k)) → NoDup keys →
  length (emitted (close_keys keys s)) = length (emitted s) + 4 * length keys.
Proof.
  revert s. induction keys as [|k keys IH]; intros s Hreg Hnodup; [simpl; lia|].
  apply NoDup_cons in Hnodup as [Hk Hnodup].
  destruct (Hreg k ltac:(left)) as [t Ht].
  rewrite close_keys_cons, IH; [|intros k' Hin|done].
  - rewrite (proj2 (closeTunnel_one_registered _ _ _ Ht)), !length_app.
    simpl. lia.
  - rewrite closeTunnel_one_tunnels, lookup_delete_ne by (by intros ->).
    apply Hreg. by right.
Qed.

Lemma enumerated_keys_nonempty keys s :
  well_formed s → enumerates keys s → existsb (String.eqb "") keys = false.
Proof.
  intros Hwf Hkeys. destruct (existsb _ keys) eqn:Hempty; [|done].
  apply existsb_exists in Hempty as (k & Hk & Heq).
  apply String.eqb_eq in Heq as <-. apply list_elem_of_In in Hk.
  unfold enumerates in Hkeys.
  rewrite Hkeys, elem_of_elements, elem_of_dom in Hk. destruct Hk as [t Ht].
  by destruct (proj1 Hwf _ _ Ht) as [? _].
Qed.

(** X3: [closeTunnel()] without a name, on a connection reached by any
    calls and in whatever order [Object.keys] lists the names: it returns,
    leaves no tunnel registered, kills the child of every registered tunnel
    exactly once, and makes exactly two [emit] calls (four emissions) per
    tunnel. *)
Theorem closeTunnel_all
    (options : SSHConnectConfig) (calls : list Call) (s : State)
    (keys : list string)
    (Hs : follow calls (new_SSHConnection options) = Some s)
    (Hkeys : enumerates keys s) :
  ∃ s',
    closeTunnel None keys s = Some s'
    ∧ activeTunnels s' = ∅
    ∧ (∀ name tunnel, getTunnel name s = Some tunnel →
         kills s' (process tunnel) = S <$> kills s (process tunnel))
    ∧ length (emitted s') = length (emitted s) + 4 * size (activeTunnels s).
Proof.
  pose proof (follow_well_formed options calls s Hs) as Hwf.
  unfold enumerates in Hkeys.
  assert (NoDup keys) as Hnodup by (rewrite Hkeys; apply NoDup_elements).
  assert (∀ k, k ∈ keys ↔ is_Some (activeTunnels s !! k)) as Hin.
  { intros k. by rewrite Hkeys, elem_of_elements, elem_of_dom. }
  exists (close_keys keys s). split; [|split; [|split]].
  - unfold closeTunnel. cbn [truthy].
    by rewrite (enumerated_keys_nonempty keys s Hwf).
  - apply map_eq. intros n. rewrite close_keys_tunnels, lookup_empty.
    destruct (decide (n ∈ keys)) as [|Hnot]; [done|].
    apply eq_None_not_Some. by rewrite <- Hin.
  - intros n t Hn. unfold getTunnel in Hn.
    rewrite (close_keys_kills keys s Hwf Hnodup n t Hn).
    by rewrite decide_True by (apply Hin; eauto).
  - rewrite close_keys_emitted; [|intros k; apply Hin|done].
    assert (length keys = size (activeTunnels s)) as ->; [|done].
    rewrite Hkeys, <- size_dom. reflexivity.
Qed.

(** X4: [close()] twice. The first call returns, is bracketed by the
    [ssh] transitions [beforedisconnect] and [disconnect] and leaves no
    tunnel registered; a second call then kills nothing more and emits
    only the same two transitions. *)
Theorem close_twice
    (options : SSHConnectConfig) (calls : list Call) (s : State)
    (keys : list string)
    (Hs : follow calls (new_SSHConnection options) = Some s)
    (Hkeys : enumerates keys s) :
  ∃ s1 middle,
    close keys s = Some s1
    ∧ activeTunnels s1 = ∅
    ∧ emitted s1 =
        emitted s
        ++ emissions CHANNEL_SSH STATUS_BEFOREDISCONNECT payload_undefined
        ++ middle
        ++ emissions CHANNEL_SSH STATUS_DISCONNECT payload_undefined
    ∧ enumerates [] s1
    ∧ ∃ s2,
        close [] s1 = Some s2
        ∧ children s2 = children s1
        ∧ emitted s2 =
            emitted s1
            ++ emissions CHANNEL_SSH STATUS_BEFOREDISCONNECT payload_undefined
            ++ emissions CHANNEL_SSH STATUS_DISCONNECT payload_undefined.
Proof.
  pose proof (follow_well_formed options calls s Hs) as Hwf.
  set (s0 := emit CHANNEL_SSH STATUS_BEFOREDISCONNECT payload_undefined s).
  assert (closeTunnel None keys s0 = Some (close_keys keys s0)) as Hclose0.
  { unfold closeTunnel. cbn [truthy].
    by rewrite (enumerated_keys_nonempty keys s Hwf). }
  assert (activeTunnels (close_keys keys s0) = ∅) as Hempty0.
  { apply map_eq. intros n. rewrite close_keys_tunnels, lookup_empty.
    destruct (decide (n ∈ keys)) as [|Hnot]; [done|].
    change (activeTunnels s0) with (activeTunnels s).
    apply eq_None_not_Some. intros Hsome. apply Hnot.
    unfold enumerates in Hkeys. by rewrite Hkeys, elem_of_elements, elem_of_dom. }
  assert (∀ keys0 s3, ∃ middle,
            emitted (close_keys keys0 s3) = emitted s3 ++ middle) as Hgrow.
  { induction keys0 as [|k keys0 IH]; intros s3.
    - exists []. by rewrite app_nil_r.
    - rewrite close_keys_cons. destruct (IH (closeTunnel_one k s3)) as [m ->].
      destruct (activeTunnels s3 !! k) as [t|] eqn:Hk.
      + rewrite (proj2 (closeTunnel_one_registered _ _ _ Hk)).
        eexists. by rewrite <- !app_assoc.
      + destruct (proj2 (closeTunnel_one_unregistered _ _ Hk)) as [more ->].
        eexists. by rewrite <- app_assoc. }
  destruct (Hgrow keys s0) as [middle Hmiddle].
  eexists _, middle. unfold close. fold s0. rewrite Hclose0.
  split; [reflexivity|]. split; [exact Hempty0|].
  split.
  { rewrite emitted_emit, Hmiddle. unfold s0. rewrite emitted_emit.
    by rewrite <- !app_assoc. }
  split.
  { unfold enumerates.
    change (activeTunnels (emit ?c ?st ?p ?s3)) with (activeTunnels s3).
    by rewrite Hempty0, dom_empty_L, elements_empty. }
  eexists. split; [reflexivity|]. split; [done|].
  unfold emit, super_emit, emissions. simpl. by rewrite <- !app_assoc.
Qed.

(** ** Events that arrive late *)

(** X5: after [closeTunnel(name)] the exit of the killed child, whenever
    it comes and with whatever code, changes nothing but the child's exit
    code: no second [disconnect], no change of the map. *)
Theorem exit_after_closeTunnel
    (options : SSHConnectConfig) (calls : list Call) (s : State)
    (name : string) (tunnel : ActiveTunnel) (code : option Z)
    (Hs : follow calls (new_SSHConnection options) = Some s)
    (Hname : getTunnel name s = Some tunnel) :
  ∃ s1,
    closeTunnel (Some name) [] s = Some s1
    ∧ let s2 := handle s1 (child_exit (process tunnel) code) in
      activeTunnels s2 = activeTunnels s1
      ∧ emitted s2 = emitted s1
      ∧ (exitCode <$> children s2 !! process tunnel) = Some code
      ∧ kills s2 (process tunnel) = kills s1 (process tunnel).
Proof.
  pose proof (follow_well_formed options calls s Hs) as Hwf.
  destruct (proj1 Hwf _ _ Hname) as (Hne & c & Hc & Htunnel & Hkey).
  exists (closeTunnel_one name s). split.
  { unfold closeTunnel. simpl. unfold truthy_string.
    by apply String.eqb_neq in Hne as ->. }
  assert (children (closeTunnel_one name s) !! process tunnel = Some (killed c)) as Hc1.
  { rewrite (proj1 (closeTunnel_one_registered _ _ _ Hname)).
    by rewrite list_lookup_alter, Hc, decide_True. }
  assert (activeTunnels (closeTunnel_one name s) !! name = None) as Hgone
    by (rewrite closeTunnel_one_tunnels; apply lookup_delete_eq).
  cbv zeta. unfold handle. rewrite Hc1.
  change (closure_config (killed c)) with (closure_config c). rewrite Hkey.
  change (activeTunnels (update_child ?i ?f ?s0)) with (activeTunnels s0).
  rewrite Hgone. rewrite andb_false_r.
  split; [done|]. split; [done|]. unfold kills, update_child. simpl.
  rewrite list_lookup_alter, Hc1, decide_True by done. done.
Qed.

Lemma explicit_port tunnelConfig :
  truthy truthy_number (localPort tunnelConfig) = true →
  ∃ p, localPort tunnelConfig = Some p ∧ (p =? 0)%Z = false.
Proof.
  destruct (localPort tunnelConfig) as [p|]; [|done]. simpl.
  unfold truthy_number. intros H%negb_true_iff. by exists p.
Qed.

(** [addTunnel] for a free name and an explicit local port. *)
Lemma addTunnel_spawns s tunnelConfig p :
  getTunnel (tunnel_name tunnelConfig) s = None →
  localPort tunnelConfig = Some p → (p =? 0)%Z = false →
  let named := set_name (tunnel_name tunnelConfig) tunnelConfig in
  let tunnel := {| spread := set_localPort p named;
                   process := length (children s) |} in
  let child := {| spawn_args := push (buildSSHArgs (config s)) (tunnelArgs named p);
                  closure_config := named; closure_tunnel := tunnel;
                  closure_stderr := ""; exitCode := None; kill_calls := 0;
                  promise := Pending |} in
  ∃ s', addTunnel tunnelConfig s = (s', of_child (length (children s)))
        ∧ activeTunnels s' = <[tunnel_name tunnelConfig := tunnel]> (activeTunnels s)
        ∧ children s' = children s ++ [child]
        ∧ emitted s' = emitted s
            ++ emissions CHANNEL_TUNNEL STATUS_BEFORECONNECT (payload_config named).
Proof.
  intros Hfree Hport Hp. cbv zeta. rewrite (addTunnel_fresh _ _ Hfree). cbv zeta.
  unfold _createTunnel.
  change (localPort (set_name ?n tunnelConfig)) with (localPort tunnelConfig).
  rewrite Hport. unfold truthy_number. rewrite Hp. cbn [negb]. rewrite Hp.
  unfold _startTunnelProcess. eexists. split; [reflexivity|].
  split; [done|]. split; [done|]. cbn [emitted set_activeTunnels set_children].
  apply emitted_emit.
Qed.

(** X6: the exit listener looks the name up, not the object. When a
    tunnel is closed and the name is registered again before the killed
    child's exit arrives, that exit (code not 0) removes the new entry and
    emits [disconnect]; the new child goes on, its promise is fulfilled
    after the grace window, but the name is free again and the new child
    has not been killed. *)
Theorem exit_of_closed_child_unregisters_successor
    (options : SSHConnectConfig) (calls : list Call) (s : State)
    (name : string) (old : ActiveTunnel) (again : SSHTunnelConfig)
    (code : option Z)
    (Hs : follow calls (new_SSHConnection options) = Some s)
    (Hold : getTunnel name s = Some old)
    (Hagain : tunnel_name again = name)
    (Hport : truthy truthy_number (localPort again) = true)
    (Hcode : code ≠ Some 0%Z) :
  ∃ s1 new,
    closeTunnel (Some name) [] s = Some s1
    ∧ let '(s2, p) := addTunnel again s1 in
      let s3 := handle s2 (child_exit (process old) code) in
      let s4 := handle s3 (grace_timeout (process new)) in
      getTunnel name s2 = Some new
      ∧ process new ≠ process old
      ∧ getTunnel name s3 = None
      ∧ length (emitted s3) = length (emitted s2) + 2
      ∧ promise_of s4 p = Fulfilled new
      ∧ getTunnel name s4 = None
      ∧ kills s4 (process new) = Some 0.
Proof.
  subst name. set (name := tunnel_name again) in *.
  pose proof (follow_well_formed options calls s Hs) as Hwf.
  destruct (proj1 Hwf _ _ Hold) as (Hne & c & Hc & Htunnel & Hkey).
  destruct (explicit_port again Hport) as (p & Hp & Hp0).
  set (s1 := closeTunnel_one name s).
  assert (children s1 = alter killed (process old) (children s)) as Hchildren1
    by apply (closeTunnel_one_registered _ _ _ Hold).
  assert (length (children s1) = length (children s)) as Hlen
    by (by rewrite Hchildren1, length_alter).
  assert (getTunnel (tunnel_name again) s1 = None) as Hfree.
  { unfold getTunnel, s1. fold name. rewrite closeTunnel_one_tunnels.
    apply lookup_delete_eq. }
  destruct (addTunnel_spawns s1 again p Hfree Hp Hp0)
    as (s2 & Hadd & Htunnels2 & Hchildren2 & Hemitted2).
  fold name in Htunnels2, Hchildren2, Hemitted2.
  set (named := set_name name again) in *.
  set (new := {| spread := set_localPort p named;
                 process := length (children s1) |}) in *.
  exists s1, new. split.
  { unfold closeTunnel. simpl. unfold truthy_string.
    by apply String.eqb_neq in Hne as ->. }
  rewrite Hadd.
  assert (process old < length (children s)) as Hlt
    by (by eapply lookup_lt_Some).
  assert (children s2 !! process old = Some (killed c)) as Hold2.
  { rewrite Hchildren2. apply lookup_app_l_Some.
    by rewrite Hchildren1, list_lookup_alter, Hc, decide_True. }
  assert (getTunnel name s2 = Some new) as Hnew2
    by (unfold getTunnel; rewrite Htunnels2; apply lookup_insert_eq).
  set (s3 := handle s2 (child_exit (process old) code)).
  assert (activeTunnels s3 = delete name (activeTunnels s2)
          ∧ children s3 = alter (with_exitCode code) (process old) (children s2)
          ∧ length (emitted s3) = length (emitted s2) + 2) as (Ht3 & Hc3 & He3).
  { unfold s3, handle. rewrite Hold2.
    change (closure_config (killed c)) with (closure_config c). rewrite Hkey.
    change (activeTunnels (update_child ?i ?f ?s0)) with (activeTunnels s0).
    unfold getTunnel in Hnew2. rewrite Hnew2.
    rewrite bool_decide_eq_false_2 by done.
    rewrite (bool_decide_eq_true_2 (is_Some (Some new))) by eauto.
    cbn [negb andb]. split; [done|]. split; [done|].
    cbn [emitted set_activeTunnels]. rewrite emitted_emit, length_app. done. }
  assert (children s3 !! process new = Some
            {| spawn_args := push (buildSSHArgs (config s1)) (tunnelArgs named p);
               closure_config := named; closure_tunnel := new;
               closure_stderr := ""; exitCode := None; kill_calls := 0;
               promise := Pending |}) as Hnew3.
  { rewrite Hc3, list_lookup_alter_ne by (simpl; lia).
    rewrite Hchildren2. by apply list_lookup_middle. }
  split; [done|]. split; [simpl; lia|].
  split; [unfold getTunnel; rewrite Ht3; apply lookup_delete_eq|].
  split; [done|].
  split; [exact (grace_timeout_alive s3 _ _ Hnew3 eq_refl eq_refl)|].
  unfold handle, kills. rewrite Hnew3. cbn [exitCode].
  split.
  - unfold getTunnel.
    change (activeTunnels (update_child ?i ?f ?s0)) with (activeTunnels s0).
    change (activeTunnels (emit ?a ?b ?d ?s0)) with (activeTunnels s0).
    rewrite Ht3. apply lookup_delete_eq.
  - unfold update_child.
    change (children (set_children ?l ?s0)) with l.
    change (children (emit ?a ?b ?d ?s0)) with (children s0).
    by rewrite list_lookup_alter, Hnew3, decide_True.
Qed.

(** X7: a child whose exit code is 0 is not unregistered. The exit
    listener then emits nothing and keeps the entry, so a later
    [addTunnel] for the name hands out the object of the dead child and
    spawns nothing. *)
Theorem clean_exit_keeps_entry
    (options : SSHConnectConfig) (calls : list Call) (s : State)
    (name : string) (tunnel : ActiveTunnel) (again : SSHTunnelConfig)
    (Hs : follow calls (new_SSHConnection options) = Some s)
    (Hname : getTunnel name s = Some tunnel)
    (Hagain : tunnel_name again = name) :
  let s1 := handle s (child_exit (process tunnel) (Some 0%Z)) in
  getTunnel name s1 = Some tunnel
  ∧ emitted s1 = emitted s
  ∧ (exitCode <$> children s1 !! process tunnel) = Some (Some 0%Z)
  ∧ ∃ s2, addTunnel again s1 = (s2, resolved_with tunnel)
          ∧ children s2 = children s1.
Proof.
  pose proof (follow_well_formed options calls s Hs) as Hwf.
  destruct (proj1 Hwf _ _ Hname) as (Hne & c & Hc & Htunnel & Hkey).
  cbv zeta.
  assert (handle s (child_exit (process tunnel) (Some 0%Z)) =
            update_child (process tunnel) (with_exitCode (Some 0%Z)) s) as ->.
  { unfold handle. rewrite Hc. by rewrite bool_decide_eq_true_2. }
  assert (getTunnel name (update_child (process tunnel)
                            (with_exitCode (Some 0%Z)) s) = Some tunnel) as H1
    by exact Hname.
  split; [exact H1|]. split; [done|]. split.
  { unfold update_child. simpl. by rewrite list_lookup_alter, Hc, decide_True. }
  rewrite <- Hagain in H1. rewrite (addTunnel_existing _ _ _ H1).
  eexists. split; [reflexivity|done].
Qed.

(** X8: the stderr listener and the timer. When the accumulated stderr of
    a live child comes to contain one of the three fatal patterns, the
    child is killed, the entry is removed and the promise is rejected with
    the trimmed stderr, but nothing is emitted. When the timer then fires
    with the exit code still [null] (the child not gone yet, or ended by
    the signal), [connect] is emitted for the failed tunnel; the promise
    stays rejected and the entry stays removed. *)
Theorem fatal_stderr_then_timer
    (s : State) (child : nat) (c : TunnelChild) (data : string)
    (ended_by_signal : bool)
    (Hc : children s !! child = Some c)
    (Hpending : promise c = Pending)
    (Halive : exitCode c = None)
    (Hfatal : fatal_stderr (closure_stderr c +:+ data) = true) :
  let failure :=
    Error ("Failed to create tunnel: " +:+ trim (closure_stderr c +:+ data)) in
  let s1 := handle s (child_stderr child data) in
  let s2 := run s1 ((if ended_by_signal then [child_exit child None] else [])
                    ++ [grace_timeout child]) in
  promise_of s1 (of_child child) = Rejected failure
  ∧ activeTunnels s1 = delete (key_of (closure_config c)) (activeTunnels s)
  ∧ kills s1 child = Some (S (kill_calls c))
  ∧ emitted s1 = emitted s
  ∧ emitted s2 =
      emitted s1
      ++ emissions CHANNEL_TUNNEL STATUS_CONNECT (payload_tunnel (closure_tunnel c))
  ∧ promise_of s2 (of_child child) = Rejected failure
  ∧ activeTunnels s2 = activeTunnels s1.
Proof.
  intros failure s1 s2.
  set (c1 := with_promise (Rejected failure)
               (killed (with_stderr (closure_stderr c +:+ data) c))).
  assert (children s1 = <[child := c1]> (children s)
          ∧ activeTunnels s1 = delete (key_of (closure_config c)) (activeTunnels s)
          ∧ emitted s1 = emitted s) as (Hc1 & Ht1 & He1).
  { unfold s1, handle. rewrite Hc, Hfatal. unfold update_child. cbn.
    split; [|done].
    apply list_eq. intros i. destruct (decide (i = child)) as [->|Hne].
    - rewrite !list_lookup_alter, Hc, !decide_True by done.
      rewrite list_lookup_insert_eq by (by eapply lookup_lt_Some).
      cbn. by rewrite Hpending.
    - by rewrite !list_lookup_alter_ne, list_lookup_insert_ne. }
  assert (children s1 !! child = Some c1) as Hl1.
  { rewrite Hc1. apply list_lookup_insert_eq. by eapply lookup_lt_Some. }
  split; [unfold promise_of; by rewrite Hl1|]. split; [done|].
  split; [unfold kills; by rewrite Hl1|]. split; [done|].
  set (s1' := run s1 (if ended_by_signal then [child_exit child None] else [])).
  assert (children s1' !! child = Some c1 ∧ emitted s1' = emitted s1
          ∧ activeTunnels s1' = activeTunnels s1) as (Hl1' & He1' & Ht1').
  { unfold s1'. destruct ended_by_signal; [|done].
    unfold run. cbn [fold_left]. unfold handle. rewrite Hl1.
    change (closure_config c1) with (closure_config c).
    change (activeTunnels (update_child ?i ?f ?s0)) with (activeTunnels s0).
    rewrite Ht1, lookup_delete_eq, andb_false_r.
    split; [|done]. unfold update_child.
    change (children (set_children ?l ?s0)) with l.
    rewrite list_lookup_alter, Hl1, decide_True by done.
    unfold c1, with_exitCode, with_promise, killed, with_stderr. cbn.
    by rewrite Halive. }
  assert (s2 = handle s1' (grace_timeout child)) as ->.
  { unfold s2, s1', run. by rewrite fold_left_app. }
  unfold handle. rewrite Hl1'.
  change (exitCode c1) with (exitCode c). rewrite Halive.
  split; [|split].
  - change (emitted (update_child ?i ?f ?s0)) with (emitted s0).
    by rewrite emitted_emit, He1'.
  - unfold promise_of, update_child.
    change (children (set_children ?l ?s0)) with l.
    change (children (emit ?a ?b ?d ?s0)) with (children s0).
    by rewrite list_lookup_alter, Hl1', decide_True.
  - exact Ht1'.
Qed.

End Closing.

(** For X1: the tunnel [localhost@8000] of a new connection, closed twice. *)
Lemma closeTunnel_twice :
  ∃ s',
    closeTunnel (Some "localhost@8000") []
      (fst (addTunnel forward_9000 (new_SSHConnection alice_at_example))) = Some s'
    ∧ activeTunnels s' !! "localhost@8000" = None
    ∧ closeTunnel (Some "localhost@8000") [] s' = Some s'.
Proof.
  refine (proj2 (closeTunnel_by_name_idempotent "localhost@8000" [] []
                   (fst (addTunnel forward_9000 (new_SSHConnection alice_at_example)))
                   ltac:(discriminate) _)).
  apply (bool_decide_unpack _). vm_compute. exact I.
Defined.

Section OneShotMore.

(** X9: [exec] and [execAndWaitUntil] on output alone stay pending, for
    [execAndWaitUntil] as long as the tester rejects; and when the child
    cannot be started before the tester has accepted, [execAndWaitUntil]
    rejects with the error Node.js reports, whatever comes later. *)
Theorem one_shot_pending_and_spawn_error
    (config : SSHConnectConfig) (cmd : string) (params : option (list string))
    (tester : string → string → bool) (options : ExecOptions)
    (chunks silent : list Chunk) (err : Thrown) (later : list ProcEvent)
    (Hsilent : never_accepts tester {| stdout := ""; stderr := "" |} silent = true) :
  exec config cmd params options (map data_event chunks) = Pending
  ∧ execAndWaitUntil config cmd tester params options (map data_event silent)
      = Pending
  ∧ execAndWaitUntil config cmd tester params options
      (map data_event silent ++ error_event err :: later) = Rejected err.
Proof.
  split; [|split].
  - unfold exec, initial_closure. by rewrite exec_accumulates.
  - unfold execAndWaitUntil, execAndWaitUntil_actions, initial_closure.
    by rewrite waiting_accumulates.
  - unfold execAndWaitUntil, execAndWaitUntil_actions, initial_closure.
    rewrite deliver_app, waiting_accumulates by done.
    cbn [deliver execAndWaitUntil_on resolved negb].
    destruct (deliver _ _ later) as [c2 more]. apply settle_reject_first.
Qed.

Lemma perform_same_call p q a b :
  same_settlement p q → same_call a b →
  same_settlement (perform p a) (perform q b).
Proof. destruct p, q, a, b; simpl; try done; by intros _ ->. Qed.

Lemma settle_same_calls acts1 acts2 p q :
  Forall2 same_call acts1 acts2 → same_settlement p q →
  same_settlement (fold_left perform acts1 p) (fold_left perform acts2 q).
Proof.
  intros H. revert p q. induction H as [|a b l1 l2 Hab _ IH]; intros p q Hpq.
  - done.
  - simpl. apply IH. by apply perform_same_call.
Qed.

Lemma never_accepting_calls sshArgs options a events :
  Forall2 same_call
    (snd (deliver (exec_on sshArgs options)
                  {| acc := a; resolved := false |} events))
    (snd (deliver (execAndWaitUntil_on (λ _ _, false) options)
                  {| acc := a; resolved := false |} events)).
Proof.
  revert a. induction events as [|ev events IH]; intros a; [constructor|].
  cbn [deliver].
  destruct ev as [d|d|code|e]; cbn [exec_on execAndWaitUntil_on acc resolved negb andb].
  - specialize (IH {| stdout := stdout a +:+ d; stderr := stderr a |}).
    destruct (deliver (exec_on _ _) _ events), (deliver (execAndWaitUntil_on _ _) _ events).
    exact IH.
  - specialize (IH {| stdout := stdout a; stderr := stderr a +:+ d |}).
    destruct (deliver (exec_on _ _) _ events), (deliver (execAndWaitUntil_on _ _) _ events).
    exact IH.
  - specialize (IH a).
    destruct (_ || _);
      destruct (deliver (exec_on _ _) _ events),
               (deliver (execAndWaitUntil_on _ _) _ events);
      by constructor.
  - specialize (IH a).
    destruct (deliver (exec_on _ _) _ events),
             (deliver (execAndWaitUntil_on _ _) _ events).
    by constructor.
Qed.

(** X10: with a tester that never accepts, [execAndWaitUntil] settles as
    [exec] does, whatever the child does: both stay pending, both are
    fulfilled with the same [{ stdout, stderr }], or both are rejected. *)
Theorem execAndWaitUntil_never_accepting
    (config : SSHConnectConfig) (cmd : string) (params : option (list string))
    (options : ExecOptions) (events : list ProcEvent) :
  same_settlement
    (exec config cmd params options events)
    (execAndWaitUntil config cmd (λ _ _, false) params options events).
Proof.
  unfold exec, execAndWaitUntil, execAndWaitUntil_actions, settle.
  apply settle_same_calls; [|done]. apply never_accepting_calls.
Qed.

End OneShotMore.

(** * Further properties of the resolver *)

Import ResolverLife.

Section ResolverMore.

Variable w : World.
Variable attempt : Z.
Variable r : Resolver.
Variable authority : string.
Variable sshDest : SSHDestination.
Hypothesis Htype : type_tag authority = REMOTE_SSH_AUTHORITY.
Hypothesis Hparse : parseEncoded w (split "+" authority !! 1) = inr sshDest.

Let connection : State := new_SSHConnection (connection_options w sshDest).

(** X11: when every step succeeds (the platform step only has to end),
    [resolve] is fulfilled with [localhost], the port [findRandomPort]
    gave and the token the bootstrap collaborator gave; the resolver
    records exactly one more tunnel, with that port and what the server
    listens on, and holds the connection as the event loop left it. *)
Theorem resolve_success
    (serverResult : ServerResult) (localPort : Z) (tunnel : ActiveTunnel)
    (Hprobe : truthy truthy_string (remotePlatform w !! hostname sshDest) = true
              ∨ probe w sshDest ≠ Pending)
    (Hinstall : ∀ arguments,
        installCodeServer w connection arguments = Fulfilled serverResult)
    (Hport : findRandomPort w = Fulfilled localPort)
    (Htunnel :
       let '(connection1, p) :=
         addTunnel (tunnel_request (listeningOn serverResult) localPort)
                   connection in
       promise_of (run connection1 (tunnel_loop w)) p = Fulfilled tunnel) :
  ∃ r',
    resolve w authority attempt r =
      (r', returns (Fulfilled
                      {| result_host := "localhost";
                         result_port := localPort;
                         connectionToken := server_connectionToken serverResult |}))
    ∧ tunnels r' =
        tunnels r ++ [ {| info_localPort := localPort;
                          remotePortOrSocketPath := listeningOn serverResult |} ]
    ∧ sshConnection r' =
        Some (run (fst (addTunnel (tunnel_request (listeningOn serverResult)
                                                   localPort) connection))
                  (tunnel_loop w)).
Proof using Htype Hparse.
  destruct (resolve_after_detection w attempt r authority sshDest Htype Hparse Hprobe)
    as (platform & entries & ->).
  fold connection.
  unfold try_catch, bootstrap_and_tunnel, resolve_catch, await_addTunnel.
  unfold_task. cbn [sshConnection tunnels journal].
  rewrite Hinstall.
  destruct (listeningOn serverResult); rewrite Hport; cbn [tunnel_request] in *;
    destruct (addTunnel _ connection) as [connection1 p]; rewrite Htunnel;
    (eexists; split; [reflexivity|done]).
Qed.

End ResolverMore.

Section ResolverAlways.

(** X12: whatever the world does and whatever the authority is, a
    [resolve] call that is fulfilled answers [localhost] with the port
    [findRandomPort] gave and has made the resolver record exactly one
    more tunnel, with that port; a call that throws, is rejected or never
    settles leaves the recorded tunnels as they were. *)
Theorem resolve_records_tunnel_on_success_only
    (w : World) (authority : string) (attempt : Z) (r : Resolver) :
  let '(r', outcome) := resolve w authority attempt r in
  match outcome with
  | returns (Fulfilled result) =>
      result_host result = "localhost"
      ∧ findRandomPort w = Fulfilled (result_port result)
      ∧ ∃ listening,
          tunnels r' =
            tunnels r ++ [ {| info_localPort := result_port result;
                              remotePortOrSocketPath := listening |} ]
  | _ => tunnels r' = tunnels r
  end.
Proof.
  unfold resolve, record. destruct (negb _); [done|].
  destruct (parseEncoded w _) as [e|sshDest]; [done|].
  unfold resolve_task, try_catch, resolve_try, detect_platform,
    bootstrap_and_tunnel, resolve_catch, await_addTunnel.
  unfold_task. cbn [sshConnection tunnels journal].
  set (connection := new_SSHConnection (connection_options w sshDest)).
  destruct (negb _); cbn;
    [destruct (exec _ _ _ _ _); cbn; [done|..]|];
    (destruct (installCodeServer w connection _) as [|serverResult|?]; cbn;
     [done| |done];
     destruct (listeningOn serverResult); cbn;
     (destruct (findRandomPort w) as [|localPort|?]; cbn; [done| |done];
      destruct (addTunnel _ connection) as [connection1 p]; cbn;
      destruct (promise_of _ p); cbn; [done| |done];
      split; [done|]; split; [done|]; by eexists)).
Qed.

(** X13: a [resolve] call never looks at the connection the resolver
    holds from an earlier call: with another connection there, or none,
    the outcome, the recorded tunnels and the log are the same, and so is
    the connection held afterwards whenever the call returns a promise.
    The earlier connection is replaced without being closed. *)
Theorem resolve_ignores_previous_connection
    (w : World) (authority : string) (attempt : Z) (r : Resolver)
    (previous : option State) :
  let '(r1, outcome1) := resolve w authority attempt r in
  let '(r2, outcome2) :=
    resolve w authority attempt (with_sshConnection previous r) in
  outcome1 = outcome2
  ∧ tunnels r1 = tunnels r2
  ∧ journal r1 = journal r2
  ∧ ∀ p, outcome1 = returns p →
         sshConnection r1 = sshConnection r2
         ∧ ∃ sshDest,
             parseEncoded w (split "+" authority !! 1) = inr sshDest
             ∧ config <$> sshConnection r1 =
                 Some (new_config (connection_options w sshDest)).
Proof.
  unfold resolve, record, with_sshConnection. destruct (negb _); [done|].
  destruct (parseEncoded w _) as [e|sshDest]; [done|].
  unfold resolve_task, try_catch, resolve_try, detect_platform,
    bootstrap_and_tunnel, resolve_catch, await_addTunnel.
  unfold_task. cbn [sshConnection tunnels journal].
  set (connection := new_SSHConnection (connection_options w sshDest)).
  assert (∀ ev s, config (handle s ev) = config s) as Hhandle.
  { intros ev s. unfold handle, _startTunnelProcess.
    repeat case_match; simplify_eq; done. }
  assert (∀ evs s, config (run s evs) = config s) as Hrun.
  { unfold run. induction evs as [|ev evs IH]; intros s; [done|].
    simpl. by rewrite IH, Hhandle. }
  assert (∀ t s, config (fst (addTunnel t s)) = config s) as Hadd.
  { intros t s. unfold addTunnel, _createTunnel, _startTunnelProcess.
    repeat case_match; simplify_eq; done. }
  assert (∀ t evs,
    config <$> Some (run (addTunnel t connection).1 evs) =
    Some (new_config (connection_options w sshDest))) as Hheld.
  { intros t evs. cbn. by rewrite Hrun, Hadd. }
  clear Hhandle Hrun Hadd.
  destruct (negb _); cbn; [destruct (exec _ _ _ _ _); cbn|].
  all: try by (split_and!; try done; intros ? ?; first
    [done | split; [done|]; by exists sshDest]).
  all: destruct (installCodeServer w connection _) as [|serverResult|?]; cbn.
  all: try by (split_and!; try done; intros ? ?; first
    [done | split; [done|]; by exists sshDest]).
  all: destruct (listeningOn serverResult); cbn.
  all: destruct (findRandomPort w) as [|localPort|?]; cbn.
  all: try by (split_and!; try done; intros ? ?; first
    [done | split; [done|]; by exists sshDest]).
  all: match goal with
       | |- context [addTunnel ?t ?c] =>
           pose proof (Hheld t (tunnel_loop w)) as Hcfg;
           destruct (addTunnel t c) as [connection1 p]
       end; cbn in *.
  all: destruct (promise_of _ p); cbn.
  all: split_and!; try done; intros ? ?; first
    [done | split; [done|]; by exists sshDest].
Qed.

(** X14: when the [remote.SSH.remotePlatform] setting has a non-empty
    entry for the host, the probe is not run: [resolve] does the same
    whatever a [uname -s] child would have done, and the bootstrap
    collaborator is called, right after the first log line, with the
    entry as platform hint. *)
Theorem platform_entry_replaces_probe
    (w : World) (authority : string) (attempt : Z) (r : Resolver)
    (sshDest : SSHDestination) (platform : string) (events : list ProcEvent)
    (Htype : type_tag authority = REMOTE_SSH_AUTHORITY)
    (Hparse : parseEncoded w (split "+" authority !! 1) = inr sshDest)
    (Hentry : remotePlatform w !! hostname sshDest = Some platform)
    (Hplatform : platform ≠ "") :
  resolve (with_uname_child events w) authority attempt r =
    resolve w authority attempt r
  ∧ ∃ rest,
      journal (fst (resolve w authority attempt r)) =
        journal r ++
        [ logger_info ("Resolving ssh remote authority '" +:+ authority
                       +:+ "' (attempt #" +:+ number_toString attempt +:+ ")");
          install_called
            {| arg_serverDownloadUrlTemplate := serverDownloadUrlTemplate w;
               arg_defaultExtensions := defaultExtensions w;
               arg_extraExtensions := [];
               arg_platform := Some platform;
               arg_listenOnSocket := remoteServerListenOnSocket w |} ]
        ++ rest.
Proof.
  assert (truthy truthy_string (Some platform) = true) as Htruthy.
  { destruct platform; [done|reflexivity]. }
  assert (∀ w' r0,
    remotePlatform w' = remotePlatform w →
    detect_platform w' sshDest
      (new_SSHConnection (connection_options w' sshDest)) r0 =
      (r0, Normal (Some platform))) as Hdetect.
  { intros w' r0 Hsame. unfold detect_platform.
    by rewrite Hsame, Hentry, Htruthy. }
  assert (∀ w',
    remotePlatform w' = remotePlatform w →
    parseEncoded w' = parseEncoded w →
    resolve w' authority attempt r =
      let '(r', c) :=
        try_catch
          (bootstrap_and_tunnel w'
             (new_SSHConnection (connection_options w' sshDest))
             (Some platform))
          resolve_catch
          {| sshConnection :=
               Some (new_SSHConnection (connection_options w' sshDest));
             tunnels := tunnels r;
             journal :=
               journal r ++
               [logger_info ("Resolving ssh remote authority '" +:+ authority
                  +:+ "' (attempt #" +:+ number_toString attempt +:+ ")")] |} in
      (r', returns (promise_of_completion c))) as Hresolve.
  { intros w' Hmap Hdecode.
    unfold resolve. fold (type_tag authority).
    rewrite (proj2 (String.eqb_eq _ _) Htype). simpl negb. cbv iota.
    unfold record. rewrite Hdecode, Hparse.
    unfold resolve_task, resolve_try.
    unfold try_catch at 1.
    unfold mbind at 1, task_bind at 1, bind at 1, set_sshConnection at 1.
    by rewrite (bind_normal _ _ _ _ _ (Hdetect w' _ Hmap)). }
  split.
  - by rewrite (Hresolve (with_uname_child events w)), (Hresolve w).
  - rewrite (Hresolve w) by done.
    destruct (bootstrap_is_called w
                (new_SSHConnection (connection_options w sshDest))
                (Some platform)
                {| sshConnection :=
                     Some (new_SSHConnection (connection_options w sshDest));
                   tunnels := tunnels r;
                   journal :=
                     journal r ++
                     [logger_info ("Resolving ssh remote authority '" +:+ authority
                        +:+ "' (attempt #" +:+ number_toString attempt +:+ ")")] |})
      as [rest Hrest].
    exists rest. destruct (try_catch _ _ _) as [r' c].
    cbn [fst journal] in *. rewrite Hrest. by rewrite <- app_assoc.
Qed.

End ResolverAlways.

(** ** [dispose()] *)

Section Disposal.

Lemma follow_app calls1 calls2 s s1 :
  follow calls1 s = Some s1 → follow (calls1 ++ calls2) s = follow calls2 s1.
Proof.
  revert s. induction calls1 as [|c calls1 IH]; intros s; simpl.
  - by intros [= ->].
  - destruct (perform_call s c); [apply IH|done].
Qed.

Lemma follow_turns events s : follow (do_turn <$> events) s = Some (run s events).
Proof.
  revert s. unfold run. induction events as [|ev events IH]; intros s; [done|].
  simpl. apply IH.
Qed.

(** The connection a resolver holds after [resolve] is the one it held or
    one that [resolve] made: a new connection, possibly with one
    [addTunnel] call and the turns of the event loop after it. *)
Lemma resolve_connection_origin w authority attempt r c :
  sshConnection (fst (resolve w authority attempt r)) = Some c →
  sshConnection r = Some c
  ∨ ∃ options calls, follow calls (new_SSHConnection options) = Some c.
Proof.
  unfold resolve, record. destruct (negb _); [by left|].
  destruct (parseEncoded w _) as [e|sshDest]; [by left|].
  unfold resolve_task, try_catch, resolve_try, detect_platform,
    bootstrap_and_tunnel, resolve_catch, await_addTunnel.
  unfold_task. cbn [sshConnection tunnels journal].
  set (connection := new_SSHConnection (connection_options w sshDest)).
  assert (∀ t evs,
    ∃ options calls,
      follow calls (new_SSHConnection options) =
        Some (run (addTunnel t connection).1 evs)) as Hheld.
  { intros t evs. exists (connection_options w sshDest),
      (do_addTunnel t :: (do_turn <$> evs)).
    cbn [follow perform_call]. apply follow_turns. }
  assert (∃ options calls,
      follow calls (new_SSHConnection options) = Some connection) as Hnew.
  { by exists (connection_options w sshDest), []. }
  destruct (negb _); cbn; [destruct (exec _ _ _ _ _); cbn|].
  all: try by (intros [= <-]; right).
  all: destruct (installCodeServer w connection _) as [|serverResult|?]; cbn.
  all: try by (intros [= <-]; right).
  all: destruct (listeningOn serverResult); cbn.
  all: destruct (findRandomPort w) as [|localPort|?]; cbn.
  all: try by (intros [= <-]; right).
  all: match goal with
       | |- context [addTunnel ?t ?c0] =>
           pose proof (Hheld t (tunnel_loop w)) as Hc;
           destruct (addTunnel t c0) as [connection1 p]
       end; cbn in *.
  all: destruct (promise_of _ p); cbn.
  all: by (intros [= <-]; right).
Qed.

Lemma resolved_all_connection calls c :
  sshConnection (resolved_all calls new_RemoteSSHResolver) = Some c →
  ∃ options steps, follow steps (new_SSHConnection options) = Some c.
Proof.
  unfold resolved_all.
  induction calls as [|call calls IH] using rev_ind; [done|].
  rewrite fold_left_app. cbn [fold_left]. intros Hc.
  apply resolve_connection_origin in Hc as [Hc|Hc]; [by apply IH|done].
Qed.

(** What [close()] does to a well-formed connection. *)
Lemma close_effect keys s :
  well_formed s → enumerates keys s →
  ∃ s1, close keys s = Some s1
        ∧ activeTunnels s1 = ∅
        ∧ ∀ name tunnel, getTunnel name s = Some tunnel →
            kills s1 (process tunnel) = S <$> kills s (process tunnel).
Proof.
  intros Hwf Hkeys.
  set (s0 := emit CHANNEL_SSH STATUS_BEFOREDISCONNECT payload_undefined s).
  assert (well_formed s0) as Hwf0 by by apply well_formed_emit.
  unfold enumerates in Hkeys.
  assert (NoDup keys) as Hnodup by (rewrite Hkeys; apply NoDup_elements).
  assert (∀ k, k ∈ keys ↔ is_Some (activeTunnels s !! k)) as Hin.
  { intros k. by rewrite Hkeys, elem_of_elements, elem_of_dom. }
  exists (emit CHANNEL_SSH STATUS_DISCONNECT payload_undefined (close_keys keys s0)).
  split; [|split].
  - unfold close, closeTunnel. fold s0. cbn [truthy].
    by rewrite (enumerated_keys_nonempty keys s Hwf).
  - change (activeTunnels (emit ?c ?st ?p ?s3)) with (activeTunnels s3).
    apply map_eq. intros n. rewrite close_keys_tunnels, lookup_empty.
    destruct (decide (n ∈ keys)) as [|Hnot]; [done|].
    change (activeTunnels s0) with (activeTunnels s).
    apply eq_None_not_Some. by rewrite <- Hin.
  - intros n t Hn. unfold getTunnel in Hn.
    change (kills (emit ?c ?st ?p ?s3) ?i) with (kills s3 i).
    rewrite (close_keys_kills keys s0 Hwf0 Hnodup n t Hn).
    by rewrite decide_True by (apply Hin; eauto).
Qed.

(** X15: [dispose()] after any series of [resolve] calls. It forgets the
    recorded tunnels and the connection and writes nothing to the log; the
    connection it held, if any, has been closed: no tunnel is registered
    there any more and the child of each tunnel that was has been killed
    once more. A second [dispose()] finds nothing to do. *)
Theorem dispose_after_resolves
    (calls : list ResolveCall) (keys : list string)
    (Hkeys : ∀ c,
       sshConnection (resolved_all calls new_RemoteSSHResolver) = Some c →
       enumerates keys c) :
  let r := resolved_all calls new_RemoteSSHResolver in
  ∃ r1 closed,
    dispose keys r = Some (r1, closed)
    ∧ tunnels r1 = [] ∧ sshConnection r1 = None ∧ journal r1 = journal r
    ∧ match sshConnection r, closed with
      | Some c, Some c1 =>
          close keys c = Some c1
          ∧ activeTunnels c1 = ∅
          ∧ ∀ name tunnel, getTunnel name c = Some tunnel →
              kills c1 (process tunnel) = S <$> kills c (process tunnel)
      | None, None => True
      | _, _ => False
      end
    ∧ ∀ keys', dispose keys' r1 = Some (r1, None).
Proof.
  intros r. unfold dispose. cbn [sshConnection tunnels journal].
  destruct (sshConnection r) as [c|] eqn:Hc.
  - destruct (resolved_all_connection calls c Hc) as (options & steps & Hsteps).
    pose proof (follow_well_formed options steps c Hsteps) as Hwf.
    destruct (close_effect keys c Hwf (Hkeys c Hc)) as (c1 & Hclose & Hrest).
    rewrite Hclose. by eexists _, (Some c1).
  - by eexists _, None.
Qed.

End Disposal.

(** * The authority, from the commands to the resolver *)

Import RemoteLocationHistory Commands.

Section Authority.

Lemma split_head s : split "+" s !! 0 = Some (before_plus s).
Proof.
  induction s as [|a s IH]; [done|]. simpl.
  destruct (Ascii.eqb a "+"); [done|].
  destruct (split "+" s) as [|piece pieces]; [done|].
  by injection IH as ->.
Qed.

Lemma split_after_prefix p s :
  plus_free p = true → split "+" (p +:+ "+" +:+ s) = p :: split "+" s.
Proof.
  induction p as [|a p IH]; [done|]. simpl.
  destruct (Ascii.eqb a "+"); [done|]. simpl. intros Hp. by rewrite IH.
Qed.

Lemma before_plus_free s : plus_free s = true → before_plus s = s.
Proof.
  induction s as [|a s IH]; [done|]. simpl.
  destruct (Ascii.eqb a "+"); [done|]. simpl. intros Hs. by rewrite IH.
Qed.

Lemma getRemoteAuthority_split host :
  split "+" (getRemoteAuthority host) = REMOTE_SSH_AUTHORITY :: split "+" host.
Proof. by apply split_after_prefix. Qed.

Lemma resolve_accepted w authority attempt r :
  type_tag authority = REMOTE_SSH_AUTHORITY →
  resolve w authority attempt r =
    resolve_destination w authority attempt (split "+" authority !! 1) r.
Proof.
  intros Htype. unfold resolve, resolve_destination. fold (type_tag authority).
  by rewrite (proj2 (String.eqb_eq _ _) Htype).
Qed.

(** X16: [promptOpenRemoteSSHWindow] executes nothing when the input box
    is dismissed or left empty, and otherwise one [vscode.newWindow] with
    the [reuseWindow] it was given. The authority it opens always passes
    the type check of [resolve], which decodes the encoded destination up
    to its first [+]: all of it when it has none. *)
Theorem prompted_window_resolves
    (toEncodedString : string → string) (input : option string)
    (reuseWindow : bool) :
  match promptOpenRemoteSSHWindow toEncodedString input reuseWindow with
  | [] => input = None ∨ input = Some ""
  | [vscode_newWindow authority reuse] =>
      reuse = reuseWindow
      ∧ ∃ host,
          input = Some host ∧ host ≠ ""
          ∧ authority = "ssh-remote+" +:+ toEncodedString host
          ∧ (∀ w attempt r,
               resolve w authority attempt r =
                 resolve_destination w authority attempt
                   (Some (before_plus (toEncodedString host))) r)
          ∧ (plus_free (toEncodedString host) = true →
               before_plus (toEncodedString host) = toEncodedString host)
  | _ => False
  end.
Proof.
  unfold promptOpenRemoteSSHWindow, openRemoteSSHWindow.
  destruct input as [host|]; [|by left].
  unfold truthy_string. destruct (String.eqb_spec host ""); simpl.
  - subst. by right.
  - split; [done|]. exists host. split_and!; try done.
    + intros w attempt r.
      set (authority := getRemoteAuthority (toEncodedString host)).
      assert (split "+" authority =
              REMOTE_SSH_AUTHORITY :: split "+" (toEncodedString host)) as Hsplit
        by apply getRemoteAuthority_split.
      rewrite resolve_accepted by (unfold type_tag; by rewrite Hsplit).
      rewrite Hsplit. change ((?a :: ?l) !! 1) with (l !! 0).
      by rewrite split_head.
    + apply before_plus_free.
Qed.

(** X17: a folder opened by [openRemoteSSHLocationWindow] is recognised
    by [getRemoteWorkspaceLocationData] when it is the first workspace
    folder, whatever the workspace file is unless that is itself a remote
    [.code-workspace] file: the answer is the host name decoded from the
    destination (up to its first [+]) with the path that was opened, and
    [forceNewWindow] is the negation of [reuseWindow]. *)
Theorem opened_location_is_recognised
    (parseEncoded : option string → Thrown + SSHDestination)
    (host path : string) (reuseWindow : bool)
    (workspaceFile : option Uri) (others : list Uri)
    (Hfile : ∀ file, workspaceFile = Some file →
               endsWith ".code-workspace" (RemoteLocationHistory.path file) = false) :
  ∃ uri,
    openRemoteSSHLocationWindow host path reuseWindow =
      [vscode_openFolder uri (negb reuseWindow)]
    ∧ getRemoteWorkspaceLocationData parseEncoded workspaceFile
        (Some (uri :: others)) =
        match parseEncoded (Some (before_plus host)) with
        | inl e => inl e
        | inr sshDest => inr (Some (hostname sshDest, path))
        end.
Proof.
  eexists. split; [reflexivity|].
  unfold getRemoteWorkspaceLocationData.
  assert (location_data parseEncoded
            {| scheme := "vscode-remote";
               authority := getRemoteAuthority host;
               RemoteLocationHistory.path := path |} =
          match parseEncoded (Some (before_plus host)) with
          | inl e => inl e
          | inr sshDest => inr (Some (hostname sshDest, path))
          end) as Hdata.
  { unfold location_data. cbn [authority RemoteLocationHistory.path].
    rewrite getRemoteAuthority_split.
    change ((?a :: ?l) !! 1) with (l !! 0). by rewrite split_head. }
  destruct workspaceFile as [file|].
  - rewrite (Hfile file eq_refl), andb_false_r. exact Hdata.
  - exact Hdata.
Qed.

(** X22: [getRemoteWorkspaceLocationData] only asks the authority to
    start with [ssh-remote], [resolve] asks the part before the first [+]
    to be [ssh-remote]. An authority with more than that before its first
    [+] is decoded as a location of this extension, yet [resolve] throws
    on it, naming the whole tag. *)
Theorem location_check_is_weaker_than_resolve
    (w : World) (more rest path : string) (attempt : Z) (r : Resolver)
    (Hmore : more ≠ "") (Hfree : plus_free more = true) :
  let authority := "ssh-remote" +:+ more +:+ "+" +:+ rest in
  getRemoteWorkspaceLocationData (parseEncoded w) None
    (Some [ {| scheme := "vscode-remote"; authority := authority;
               RemoteLocationHistory.path := path |} ]) =
    match parseEncoded w (Some (before_plus rest)) with
    | inl e => inl e
    | inr sshDest => inr (Some (hostname sshDest, path))
    end
  ∧ resolve w authority attempt r =
      (r, throws (Error ("Invalid authority type for SSH resolver: ssh-remote"
                         +:+ more))).
Proof.
  intros authority.
  assert (split "+" authority = ("ssh-remote" +:+ more) :: split "+" rest)
    as Hsplit.
  { apply (split_after_prefix ("ssh-remote" +:+ more) rest). exact Hfree. }
  assert (startsWith REMOTE_SSH_AUTHORITY authority = true) as Hstarts.
  { unfold startsWith, REMOTE_SSH_AUTHORITY, authority. cbn.
    by destruct (more +:+ "+" +:+ rest). }
  split.
  - unfold getRemoteWorkspaceLocationData, location_data.
    cbn [scheme RemoteLocationHistory.authority RemoteLocationHistory.path].
    rewrite Hstarts, Hsplit. change ((?a :: ?l) !! 1) with (l !! 0).
    by rewrite split_head.
  - unfold resolve. rewrite Hsplit. cbn [lookup list_lookup tpl_string].
    destruct (String.eqb_spec ("ssh-remote" +:+ more) REMOTE_SSH_AUTHORITY)
      as [Heq|_]; [|done].
    exfalso. apply Hmore. injection Heq. done.
Qed.

End Authority.

(** * The location history *)

Import HistoryLife.

Section Locations.

Lemma array_includes_spec path l : array_includes path l = true ↔ path ∈ l.
Proof.
  unfold array_includes. rewrite existsb_exists. split.
  - intros (x & Hx & Heq). apply String.eqb_eq in Heq as ->.
    by apply list_elem_of_In.
  - intros Hin. exists path. split; [by apply list_elem_of_In|].
    apply String.eqb_refl.
Qed.

Lemma without_spec path l q : q ∈ without path l ↔ q ∈ l ∧ q ≠ path.
Proof.
  unfold without. rewrite !list_elem_of_In, filter_In, negb_true_iff.
  by rewrite String.eqb_neq.
Qed.

Lemma member_inherited history host :
  member history host = inherited ↔
  history !! host = None ∧ host ∈ Object_prototype.
Proof.
  unfold member. destruct (history !! host) as [l|]; [by split; [|intros []]|].
  destruct (existsb _ _) eqn:Hex.
  - split; [|done]. intros _. split; [done|].
    apply existsb_exists in Hex as (x & Hx & Heq).
    apply String.eqb_eq in Heq as ->. by apply list_elem_of_In.
  - split; [done|]. intros [_ Hin]. exfalso.
    assert (existsb (String.eqb host) Object_prototype = true) as Htrue; [|congruence].
    apply existsb_exists. exists host.
    split; [by apply list_elem_of_In|apply String.eqb_refl].
Qed.

(** What a call that is not rejected leaves under each host. *)
Lemma addLocation_fulfilled host path h h' :
  addLocation host path h = inr h' →
  let old := default [] (remoteLocationHistory h !! host) in
  (path ∈ old ∧ h' = h)
  ∨ ((path ∉ old)
     ∧ remoteLocationHistory h' = <[host := path :: old]> (remoteLocationHistory h)
     ∧ stored h' = Some (remoteLocationHistory h')
     ∧ updates h' = S (updates h)).
Proof.
  unfold addLocation, member.
  destruct (remoteLocationHistory h !! host) as [l|]; cbn [default from_option id].
  - destruct (array_includes path l) eqn:Hin; cbn [negb]; intros [= <-];
      cbv zeta; cbn [default from_option id].
    + left. by apply array_includes_spec in Hin.
    + right. split; [|done]. rewrite <- array_includes_spec. congruence.
  - destruct (existsb _ _); [done|]. cbn [array_includes existsb negb].
    intros [= <-]. cbv zeta. cbn [default from_option id].
    right. split; [|done]. apply not_elem_of_nil.
Qed.

Lemma removeLocation_fulfilled host path h h' :
  removeLocation host path h = inr h' →
  let old := default [] (remoteLocationHistory h !! host) in
  remoteLocationHistory h' = <[host := without path old]> (remoteLocationHistory h)
  ∧ stored h' = Some (remoteLocationHistory h')
  ∧ updates h' = S (updates h).
Proof.
  unfold removeLocation, member.
  destruct (remoteLocationHistory h !! host) as [l|]; cbn [default from_option id].
  - by intros [= <-].
  - destruct (existsb _ _); [done|]. by intros [= <-].
Qed.

Lemma rejected_member host path h e :
  addLocation host path h = inl e ∨ removeLocation host path h = inl e →
  member (remoteLocationHistory h) host = inherited.
Proof.
  unfold addLocation, removeLocation.
  destruct (member _ _); [|done|]; intros [H|H]; try done;
    by destruct (negb _).
Qed.

Lemma updated_cases h u :
  (updated h u = h)
  ∨ ∃ host path l,
      member (remoteLocationHistory h) host ≠ inherited
      ∧ remoteLocationHistory (updated h u) =
          <[host := l]> (remoteLocationHistory h)
      ∧ stored (updated h u) = Some (remoteLocationHistory (updated h u))
      ∧ updates (updated h u) = S (updates h)
      ∧ let old := default [] (remoteLocationHistory h !! host) in
        ((path ∉ old) ∧ l = path :: old) ∨ l = without path old.
Proof.
  unfold updated. destruct u as [host path|host path]; simpl.
  - destruct (addLocation host path h) as [e|h'] eqn:Hadd; [by left|].
    pose proof Hadd as Hmember.
    apply addLocation_fulfilled in Hadd as [[_ ->]|(Hnot & Hh & Hst & Hup)];
      [by left|].
    right. exists host, path, (path :: default [] (remoteLocationHistory h !! host)).
    split_and!; try done; [|by left].
    unfold addLocation in Hmember. intros Hinh. by rewrite Hinh in Hmember.
  - destruct (removeLocation host path h) as [e|h'] eqn:Hrem; [by left|].
    pose proof Hrem as Hmember.
    apply removeLocation_fulfilled in Hrem as (Hh & Hst & Hup).
    right. exists host, path, (without path (default [] (remoteLocationHistory h !! host))).
    split_and!; try done; [|by right].
    unfold removeLocation in Hmember. intros Hinh. by rewrite Hinh in Hmember.
Qed.

Lemma without_NoDup path l : NoDup l → NoDup (without path l).
Proof.
  intros Hl. unfold without. apply NoDup_ListNoDup, List.NoDup_filter.
  by apply NoDup_ListNoDup.
Qed.

(** X18: starting from any stored value whose arrays are free of
    duplicates (or from none), every series of [addLocation] and
    [removeLocation] calls leaves every array free of duplicates, and what
    [globalState] holds is what a new [RemoteLocationHistory] has to load
    to show the same history; without any [update] call the history is
    the one that was loaded. *)
Theorem history_invariants
    (globalState : option (gmap string (list string))) (us : list Update)
    (Hloaded : duplicate_free (default ∅ globalState)) :
  let h := updated_all us (new_RemoteLocationHistory globalState) in
  duplicate_free (getHistory h)
  ∧ getHistory (new_RemoteLocationHistory (stored h)) = getHistory h
  ∧ (updates h = 0 → getHistory h = default ∅ globalState).
Proof.
  intros h. subst h. unfold getHistory.
  set (h0 := new_RemoteLocationHistory globalState).
  assert (duplicate_free (remoteLocationHistory h0)
          ∧ default ∅ (stored h0) = remoteLocationHistory h0
          ∧ (updates h0 = 0 →
             remoteLocationHistory h0 = default ∅ globalState)) as Hinv
    by done.
  clearbody h0. revert h0 Hinv. unfold updated_all.
  induction us as [|u us IH]; intros h0 Hinv; [exact Hinv|].
  cbn [fold_left]. apply IH. destruct Hinv as (Hdup & Hstored & Hzero).
  destruct (updated_cases h0 u)
    as [->|(host & path & l & _ & Hh & Hst & Hup & Hl)]; [done|].
  split_and!.
  - intros host' l'. rewrite Hh. destruct (decide (host' = host)) as [->|Hne].
    + rewrite lookup_insert_eq. intros [= <-].
      assert (NoDup (default [] (remoteLocationHistory h0 !! host))) as Hold.
      { destruct (remoteLocationHistory h0 !! host) as [l0|] eqn:Hl0;
          [by apply (Hdup host)|apply NoDup_nil_2]. }
      destruct Hl as [[Hnot ->]| ->]; [by apply NoDup_cons|by apply without_NoDup].
    + rewrite lookup_insert_ne by done. apply Hdup.
  - by rewrite Hst.
  - rewrite Hup. lia.
Qed.

(** X19: a host named like a member of [Object.prototype] cannot be
    recorded. Starting from a stored value with no such key (or from
    none), after every series of calls the history has no such key, and
    both [addLocation] and [removeLocation] for such a host are rejected
    with a [TypeError] and change nothing. *)
Theorem prototype_names_are_rejected
    (globalState : option (gmap string (list string))) (us : list Update)
    (host path : string)
    (Hloaded : shadows_nothing (default ∅ globalState))
    (Hhost : host ∈ Object_prototype) :
  let h := updated_all us (new_RemoteLocationHistory globalState) in
  getHistory h !! host = None
  ∧ addLocation host path h =
      inl (ErrorObject "TypeError" "hostLocations.includes is not a function")
  ∧ removeLocation host path h =
      inl (ErrorObject "TypeError" "hostLocations.filter is not a function")
  ∧ updated h (do_addLocation host path) = h
  ∧ updated h (do_removeLocation host path) = h.
Proof.
  intros h.
  assert (shadows_nothing (remoteLocationHistory h)) as Hclean.
  { subst h. set (h0 := new_RemoteLocationHistory globalState).
    assert (shadows_nothing (remoteLocationHistory h0)) as Hinv by done.
    clearbody h0. revert h0 Hinv. unfold updated_all.
    induction us as [|u us IH]; intros h0 Hinv; [exact Hinv|].
    cbn [fold_left]. apply IH.
    destruct (updated_cases h0 u)
      as [->|(host' & path' & l & Hmember & Hh & _)]; [done|].
    intros name Hname. rewrite Hh.
    destruct (decide (name = host')) as [->|Hne].
    - exfalso. apply Hmember. apply member_inherited. split; [|done].
      by apply Hinv.
    - rewrite lookup_insert_ne by done. by apply Hinv. }
  assert (member (remoteLocationHistory h) host = inherited) as Hmember.
  { apply member_inherited. split; [by apply Hclean|done]. }
  unfold getHistory, updated, settlement, addLocation, removeLocation.
  rewrite Hmember. split_and!; try done. by apply Hclean.
Qed.

(** X20: [removeLocation] followed by [addLocation] of the same path
    moves the path to the front: the host's array is then the path
    followed by the other paths in their old order; the arrays of other
    hosts are untouched and [globalState] was updated twice. *)
Theorem remove_then_add_moves_to_front
    (host path : string) (h : History)
    (Hhost : member (remoteLocationHistory h) host ≠ inherited) :
  ∃ h1 h2,
    removeLocation host path h = inr h1
    ∧ addLocation host path h1 = inr h2
    ∧ getHistory h2 !! host =
        Some (path :: without path (default [] (getHistory h !! host)))
    ∧ (∀ other, other ≠ host → getHistory h2 !! other = getHistory h !! other)
    ∧ stored h2 = Some (getHistory h2)
    ∧ updates h2 = 2 + updates h.
Proof.
  destruct (removeLocation host path h) as [e|h1] eqn:Hrem.
  { exfalso. apply Hhost. eapply rejected_member. by right. }
  pose proof (removeLocation_fulfilled _ _ _ _ Hrem) as (Hh1 & Hst1 & Hup1).
  destruct (addLocation host path h1) as [e|h2] eqn:Hadd.
  { pose proof (rejected_member host path h1 e (or_introl Hadd)) as Hinh.
    apply member_inherited in Hinh as [Hnone _].
    rewrite Hh1, lookup_insert_eq in Hnone. done. }
  exists h1, h2. split; [done|]. split; [done|].
  apply addLocation_fulfilled in Hadd. cbn zeta in Hadd.
  rewrite Hh1, lookup_insert_eq in Hadd. cbn [default] in Hadd.
  destruct Hadd as [[Hin _]|(_ & Hh2 & Hst2 & Hup2)].
  { by apply without_spec in Hin as [_ Hne]. }
  unfold getHistory. rewrite Hh2. split_and!.
  - by rewrite lookup_insert_eq.
  - intros other Hother. by rewrite !lookup_insert_ne.
  - by rewrite Hst2, Hh2.
  - lia.
Qed.

(** X21: [addLocation] of a path the host already has changes nothing
    and writes nothing, wherever the path stands in the array: a known
    path is not moved to the front. So the call is idempotent: after one
    call the path is there, and a second call leaves everything as it
    is. *)
Theorem addLocation_idempotent
    (host path : string) (h : History)
    (Hhost : member (remoteLocationHistory h) host ≠ inherited) :
  ∃ h1 hostLocations,
    addLocation host path h = inr h1
    ∧ getHistory h1 !! host = Some hostLocations
    ∧ path ∈ hostLocations
    ∧ without path hostLocations =
        without path (default [] (getHistory h !! host))
    ∧ addLocation host path h1 = inr h1
    ∧ (∀ known, getHistory h !! host = Some known → path ∈ known → h1 = h).
Proof.
  assert (∀ h0 l, remoteLocationHistory h0 !! host = Some l → path ∈ l →
                  addLocation host path h0 = inr h0) as Hknown.
  { intros h0 l Hl Hin. unfold addLocation, member. rewrite Hl.
    by rewrite (proj2 (array_includes_spec path l) Hin). }
  destruct (addLocation host path h) as [e|h1] eqn:Hadd.
  { exfalso. apply Hhost. eapply rejected_member. by left. }
  pose proof Hadd as Hcases. apply addLocation_fulfilled in Hcases.
  cbn zeta in Hcases. unfold getHistory.
  destruct Hcases as [[Hin ->]|(Hnot & Hh1 & _)].
  - destruct (remoteLocationHistory h !! host) as [l|] eqn:Hl;
      [|by apply elem_of_nil in Hin].
    exists h, l. by rewrite Hl.
  - exists h1, (path :: default [] (remoteLocationHistory h !! host)).
    split; [done|]. rewrite Hh1, lookup_insert_eq.
    split_and!; try done.
    + apply elem_of_cons. by left.
    + unfold without. simpl. by rewrite String.eqb_refl.
    + apply (Hknown h1 (path :: default [] (remoteLocationHistory h !! host))).
      * by rewrite Hh1, lookup_insert_eq.
      * apply elem_of_cons. by left.
    + intros known Hk Hin. rewrite Hk in Hnot. done.
Qed.

End Locations.

(** * Promises and children over the life of a connection *)

Section Settled.

Lemma keeps_settled_refl s : keeps_settled s s.
Proof. by intros p _. Qed.

Lemma keeps_settled_trans s1 s2 s3 :
  keeps_settled s1 s2 → keeps_settled s2 s3 → keeps_settled s1 s3.
Proof.
  intros H12 H23 p Hp. rewrite <- (H12 p Hp). apply H23. by rewrite (H12 p Hp).
Qed.

Lemma keeps_settled_ext s s' :
  children s' = children s → portRequests s' = portRequests s →
  keeps_settled s s'.
Proof. intros Hc Hr p _. unfold promise_of. by rewrite Hc, Hr. Qed.

Lemma keeps_settled_emit channel status payload s :
  keeps_settled s (emit channel status payload s).
Proof. by apply keeps_settled_ext. Qed.

Lemma child_promise_update i f s j :
  (∀ c, promise c ≠ Pending → promise (f c) = promise c) →
  promise_of s (of_child j) ≠ Pending →
  promise_of (update_child i f s) (of_child j) = promise_of s (of_child j).
Proof.
  intros Hf. unfold promise_of, update_child.
  change (children (set_children ?l ?s0)) with l.
  destruct (decide (i = j)) as [->|Hne].
  - rewrite list_lookup_alter, decide_True by done.
    destruct (children s !! j) as [c|]; [|done]. simpl. apply Hf.
  - by rewrite list_lookup_alter_ne.
Qed.

Lemma keeps_settled_update_child i f s :
  (∀ c, promise c ≠ Pending → promise (f c) = promise c) →
  keeps_settled s (update_child i f s).
Proof.
  intros Hf [tunnel|j|request] Hp; [done|by apply child_promise_update|].
  unfold promise_of in *.
  change (portRequests (update_child i f s)) with (portRequests s).
  destruct (portRequests s !! request) as [[cfg [child|]]|]; try done.
  by apply (child_promise_update i f s child).
Qed.

Lemma child_promise_start tunnelConfig localPort s j :
  promise_of s (of_child j) ≠ Pending →
  promise_of (fst (_startTunnelProcess tunnelConfig localPort s)) (of_child j) =
    promise_of s (of_child j).
Proof.
  unfold promise_of, _startTunnelProcess. cbn [fst].
  change (children (set_activeTunnels ?m ?s0)) with (children s0).
  change (children (set_children ?l ?s0)) with l.
  destruct (children s !! j) as [c|] eqn:Hj; [|done].
  intros _. by rewrite (lookup_app_l_Some _ _ _ _ Hj).
Qed.

Lemma keeps_settled_start tunnelConfig localPort s :
  keeps_settled s (fst (_startTunnelProcess tunnelConfig localPort s)).
Proof.
  intros [tunnel|j|request] Hp; [done|by apply child_promise_start|].
  unfold promise_of in *.
  change (portRequests (_startTunnelProcess tunnelConfig localPort s).1)
    with (portRequests s).
  destruct (portRequests s !! request) as [[cfg [child|]]|]; try done.
  by apply (child_promise_start tunnelConfig localPort s child).
Qed.

Lemma keeps_settled_addTunnel tunnelConfig s :
  keeps_settled s (fst (addTunnel tunnelConfig s)).
Proof.
  unfold addTunnel. cbv zeta.
  set (named := set_name (tunnel_name tunnelConfig) tunnelConfig).
  set (s0 := emit CHANNEL_TUNNEL STATUS_BEFORECONNECT (payload_config named) s).
  apply (keeps_settled_trans s s0); [apply keeps_settled_emit|].
  destruct (getTunnel _ _); cbn [fst]; [apply keeps_settled_emit|].
  unfold _createTunnel. destruct (_ =? 0)%Z.
  - cbn [fst]. intros [tunnel|j|request] Hp; [done|done|].
    unfold promise_of in *.
    change (children (set_portRequests ?l ?s1)) with (children s1).
    change (portRequests (set_portRequests ?l ?s1)) with l.
    destruct (portRequests s0 !! request) as [req|] eqn:Hreq; [|done].
    by rewrite (lookup_app_l_Some _ _ _ _ Hreq).
  - pose proof (keeps_settled_start named
                  match localPort named with
                  | Some p => if truthy_number p then p else 0%Z
                  | None => 0%Z
                  end s0) as H.
    by destruct (_startTunnelProcess _ _ _).
Qed.

Ltac settle :=
  match goal with
  | |- keeps_settled ?s ?s => apply keeps_settled_refl
  | |- keeps_settled ?s (update_child ?i ?f ?s2) =>
      apply (keeps_settled_trans s s2);
      [settle | apply keeps_settled_update_child;
                let c := fresh "c" in let Hc := fresh "Hc" in
                intros c Hc; simpl; try done; by destruct (promise c)]
  | |- keeps_settled ?s (emit ?c ?st ?p ?s2) =>
      apply (keeps_settled_trans s s2); [settle | apply keeps_settled_emit]
  | |- keeps_settled ?s (set_activeTunnels ?m ?s2) =>
      apply (keeps_settled_trans s s2); [settle | by apply keeps_settled_ext]
  end.

Lemma keeps_settled_handle s ev : keeps_settled s (handle s ev).
Proof.
  destruct ev as [request port|child errno err|child code|child data|child];
    unfold handle.
  - destruct (portRequests s !! request) as [[tunnelConfig [started|]]|] eqn:Hr;
      try apply keeps_settled_refl.
    pose proof (keeps_settled_start tunnelConfig port s) as Hstart.
    assert (portRequests (_startTunnelProcess tunnelConfig port s).1 =
            portRequests s) as Hsame by done.
    destruct (_startTunnelProcess tunnelConfig port s) as [s1 child].
    cbn [fst] in *. intros p Hp.
    rewrite <- (Hstart p Hp).
    destruct p as [tunnel|j|r]; [done|done|].
    unfold promise_of.
    change (children (set_portRequests ?l ?s2)) with (children s2).
    change (portRequests (set_portRequests ?l ?s2)) with l.
    destruct (decide (r = request)) as [->|Hne].
    + unfold promise_of in Hp. by rewrite Hr in Hp.
    + by rewrite list_lookup_insert_ne.
  - destruct (children s !! child) as [c|]; [|apply keeps_settled_refl].
    cbv zeta. settle.
  - destruct (children s !! child) as [c|]; [|apply keeps_settled_refl].
    cbv zeta. destruct (_ && _); settle.
  - destruct (children s !! child) as [c|]; [|apply keeps_settled_refl].
    cbv zeta. destruct (fatal_stderr _); settle.
  - destruct (children s !! child) as [c|]; [|apply keeps_settled_refl].
    destruct (exitCode c); [destruct (negb _)|]; cbv zeta; settle.
Qed.

Lemma keeps_settled_closeTunnel_one name s :
  keeps_settled s (closeTunnel_one name s).
Proof.
  unfold closeTunnel_one.
  destruct (activeTunnels s !! name) as [tunnel|];
    [|destruct (existsb _ _)]; cbv zeta; settle.
Qed.

Lemma keeps_settled_closeTunnel name keys s s' :
  closeTunnel name keys s = Some s' → keeps_settled s s'.
Proof.
  unfold closeTunnel. destruct (truthy _ _).
  - intros [= <-]. apply keeps_settled_closeTunnel_one.
  - destruct (existsb _ _); [done|]. intros [= <-].
    revert s. induction keys as [|k keys IH]; intros s; [apply keeps_settled_refl|].
    cbn [fold_left]. eapply keeps_settled_trans; [|apply IH].
    apply keeps_settled_closeTunnel_one.
Qed.

Lemma keeps_settled_call s c s' :
  perform_call s c = Some s' → keeps_settled s s'.
Proof.
  destruct c as [tunnelConfig|ev|name keys|keys]; simpl.
  - intros [= <-]. apply keeps_settled_addTunnel.
  - intros [= <-]. apply keeps_settled_handle.
  - apply keeps_settled_closeTunnel.
  - unfold close. destruct (closeTunnel None keys _) as [s1|] eqn:H1; [|done].
    intros [= <-].
    set (s0 := emit CHANNEL_SSH STATUS_BEFOREDISCONNECT payload_undefined s) in *.
    apply (keeps_settled_trans s s1); [|apply keeps_settled_emit].
    apply (keeps_settled_trans s s0); [apply keeps_settled_emit|].
    by apply (keeps_settled_closeTunnel None keys).
Qed.

(** X23: a promise of [addTunnel] that is settled stays settled in the
    same way: whatever is done to the connection afterwards ([addTunnel],
    [closeTunnel], [close]) and whatever its children do, a fulfilled
    promise keeps its tunnel object and a rejected one its error. *)
Theorem settled_promise_is_final
    (s s' : State) (calls : list Call) (p : TunnelPromise)
    (Hs : follow calls s = Some s')
    (Hsettled : promise_of s p ≠ Pending) :
  promise_of s' p = promise_of s p.
Proof.
  revert s Hs Hsettled. induction calls as [|c calls IH]; intros s Hs Hp.
  - by injection Hs as <-.
  - simpl in Hs. destruct (perform_call s c) as [s1|] eqn:Hc; [|done].
    pose proof (keeps_settled_call s c s1 Hc p Hp) as H1.
    rewrite <- H1. apply IH; [done|]. by rewrite H1.
Qed.

End Settled.

Section Spawned.

Variable options : SSHConnectConfig.

Lemma spawned_all_ext s s' :
  config s' = config s → children s' = children s →
  spawned_all options s → spawned_all options s'.
Proof. intros Hc Hch [H1 H2]. unfold spawned_all. by rewrite Hc, Hch. Qed.

Lemma spawned_all_update_child i f s :
  (∀ c, closure_tunnel (f c) = closure_tunnel c
        ∧ closure_config (f c) = closure_config c
        ∧ spawn_args (f c) = spawn_args c) →
  spawned_all options s → spawned_all options (update_child i f s).
Proof.
  intros Hf [Hcfg Hch]. split; [done|]. intros j c. unfold update_child.
  change (children (set_children ?l ?s0)) with l.
  destruct (decide (i = j)) as [->|Hne].
  - rewrite list_lookup_alter, decide_True by done.
    destruct (children s !! j) as [c0|] eqn:Hj; [|done].
    intros [= <-]. unfold spawned_by.
    destruct (Hf c0) as (-> & -> & ->). by apply Hch.
  - rewrite list_lookup_alter_ne by done. apply Hch.
Qed.

Lemma spawned_all_start tunnelConfig localPort s :
  spawned_all options s →
  spawned_all options (fst (_startTunnelProcess tunnelConfig localPort s)).
Proof.
  intros [Hcfg Hch]. split; [done|]. intros j c.
  unfold _startTunnelProcess. cbn [fst].
  change (children (set_activeTunnels ?m ?s0)) with (children s0).
  change (children (set_children ?l ?s0)) with l.
  intros Hj. apply lookup_app_Some in Hj as [Hj|[Hlen Hj]]; [by apply Hch|].
  apply list_lookup_singleton_Some in Hj as [Hzero <-].
  split; [cbn; lia|]. exists localPort. split; [done|].
  cbn [spawn_args closure_config]. by rewrite Hcfg.
Qed.

Ltac spawned :=
  match goal with
  | H : spawned_all options ?s |- spawned_all options ?s => exact H
  | |- spawned_all options (update_child ?i ?f ?s2) =>
      apply spawned_all_update_child; [by intros|spawned]
  | |- spawned_all options (emit ?c ?st ?p ?s2) =>
      apply (spawned_all_ext s2); [done|done|spawned]
  | |- spawned_all options (set_activeTunnels ?m ?s2) =>
      apply (spawned_all_ext s2); [done|done|spawned]
  | |- spawned_all options (set_portRequests ?m ?s2) =>
      apply (spawned_all_ext s2); [done|done|spawned]
  end.

Lemma spawned_all_addTunnel tunnelConfig s :
  spawned_all options s → spawned_all options (fst (addTunnel tunnelConfig s)).
Proof.
  intros H. unfold addTunnel. cbv zeta.
  set (named := set_name (tunnel_name tunnelConfig) tunnelConfig).
  destruct (getTunnel _ _); cbn [fst]; [spawned|].
  unfold _createTunnel. destruct (_ =? 0)%Z; [cbn [fst]; spawned|].
  assert (spawned_all options
            (emit CHANNEL_TUNNEL STATUS_BEFORECONNECT (payload_config named) s))
    as H0 by spawned.
  pose proof (spawned_all_start named
                match localPort named with
                | Some p => if truthy_number p then p else 0%Z
                | None => 0%Z
                end _ H0) as H1.
  by destruct (_startTunnelProcess _ _ _).
Qed.

Lemma spawned_all_handle s ev :
  spawned_all options s → spawned_all options (handle s ev).
Proof.
  intros H.
  destruct ev as [request port|child errno err|child code|child data|child];
    unfold handle.
  - destruct (portRequests s !! request) as [[tunnelConfig [started|]]|];
      try done.
    pose proof (spawned_all_start tunnelConfig port s H) as H1.
    destruct (_startTunnelProcess tunnelConfig port s) as [s1 child].
    cbn [fst] in H1. spawned.
  - destruct (children s !! child) as [c|]; [|done]. cbv zeta. spawned.
  - destruct (children s !! child) as [c|]; [|done]. cbv zeta.
    destruct (_ && _); spawned.
  - destruct (children s !! child) as [c|]; [|done]. cbv zeta.
    destruct (fatal_stderr _); spawned.
  - destruct (children s !! child) as [c|]; [|done].
    destruct (exitCode c); [destruct (negb _)|]; cbv zeta; spawned.
Qed.

Lemma spawned_all_closeTunnel_one name s :
  spawned_all options s → spawned_all options (closeTunnel_one name s).
Proof.
  intros H. unfold closeTunnel_one.
  destruct (activeTunnels s !! name) as [tunnel|];
    [|destruct (existsb _ _)]; cbv zeta; spawned.
Qed.

Lemma spawned_all_closeTunnel name keys s s' :
  closeTunnel name keys s = Some s' →
  spawned_all options s → spawned_all options s'.
Proof.
  unfold closeTunnel. destruct (truthy _ _).
  - intros [= <-]. apply spawned_all_closeTunnel_one.
  - destruct (existsb _ _); [done|]. intros [= <-].
    revert s. induction keys as [|k keys IH]; intros s H; [done|].
    cbn [fold_left]. by apply IH, spawned_all_closeTunnel_one.
Qed.

(** X24: the children of a connection. Whatever is done to a connection
    made from [options], its configuration stays the one the constructor
    computed, and every child it has was started with the connection's
    arguments followed by [-N -L] and the forwarding of its own request;
    the tunnel object of a child carries the child's index and the
    request with the local port that was used. Children are never
    replaced. *)
Theorem children_are_spawned_by_the_connection
    (calls : list Call) (s : State)
    (Hs : follow calls (new_SSHConnection options) = Some s) :
  config s = new_config options
  ∧ ∀ i c, children s !! i = Some c →
      process (closure_tunnel c) = i
      ∧ ∃ p, spread (closure_tunnel c) = set_localPort p (closure_config c)
             ∧ spawn_args c =
                 buildSSHArgs (new_config options)
                 ++ tunnelArgs (closure_config c) p.
Proof using Type.
  change (spawned_all options s).
  assert (spawned_all options (new_SSHConnection options)) as H0 by done.
  revert H0 Hs. generalize (new_SSHConnection options).
  induction calls as [|c calls IH]; intros s0 H0; simpl.
  - by intros [= <-].
  - destruct (perform_call s0 c) as [s1|] eqn:Hc; [|done].
    apply IH. destruct c as [tunnelConfig|ev|name keys|keys]; simpl in Hc.
    + injection Hc as <-. by apply spawned_all_addTunnel.
    + injection Hc as <-. by apply spawned_all_handle.
    + by eapply spawned_all_closeTunnel.
    + unfold close in Hc.
      destruct (closeTunnel None keys _) as [s2|] eqn:H2; [|done].
      injection Hc as <-. apply (spawned_all_ext s2); [done|done|].
      eapply spawned_all_closeTunnel; [exact H2|].
      by apply (spawned_all_ext s0).
Qed.

End Spawned.

(** * The further properties at concrete inputs *)

Import Cases.

(** For X2: the entry [db] of a connection with two tunnels. *)
Lemma registered_db :
  "db" ≠ ""
  ∧ ∃ c, children two_tunnels !! process tunnel_db = Some c
         ∧ closure_tunnel c = tunnel_db
         ∧ tpl_string (SSHConnection.name (closure_config c)) = "db".
Proof.
  exact (registered_tunnels_are_well_formed alice_at_example two_calls
           two_tunnels eq_refl "db" tunnel_db eq_refl).
Defined.

Lemma two_tunnels_keys : enumerates ["localhost@8000"; "db"] two_tunnels.
Proof. unfold enumerates. vm_compute. reflexivity. Defined.

(** For X3: [closeTunnel()] on a connection with two tunnels. *)
Lemma closeTunnel_all_of_two :
  ∃ s',
    closeTunnel None ["localhost@8000"; "db"] two_tunnels = Some s'
    ∧ activeTunnels s' = ∅
    ∧ (∀ name tunnel, getTunnel name two_tunnels = Some tunnel →
         kills s' (process tunnel) = S <$> kills two_tunnels (process tunnel))
    ∧ length (emitted s') =
        length (emitted two_tunnels) + 4 * size (activeTunnels two_tunnels).
Proof.
  exact (closeTunnel_all alice_at_example two_calls two_tunnels
           ["localhost@8000"; "db"] eq_refl two_tunnels_keys).
Defined.

(** For X4: [close()] twice on a connection with two tunnels. *)
Lemma close_twice_of_two :
  ∃ s1 middle,
    close ["localhost@8000"; "db"] two_tunnels = Some s1
    ∧ activeTunnels s1 = ∅
    ∧ emitted s1 =
        emitted two_tunnels
        ++ emissions CHANNEL_SSH STATUS_BEFOREDISCONNECT payload_undefined
        ++ middle
        ++ emissions CHANNEL_SSH STATUS_DISCONNECT payload_undefined
    ∧ enumerates [] s1
    ∧ ∃ s2,
        close [] s1 = Some s2
        ∧ children s2 = children s1
        ∧ emitted s2 =
            emitted s1
            ++ emissions CHANNEL_SSH STATUS_BEFOREDISCONNECT payload_undefined
            ++ emissions CHANNEL_SSH STATUS_DISCONNECT payload_undefined.
Proof.
  exact (close_twice alice_at_example two_calls two_tunnels
           ["localhost@8000"; "db"] eq_refl two_tunnels_keys).
Defined.

(** For X5: the killed child of a closed tunnel exits with code 255. *)
Lemma exit_255_after_closeTunnel :
  ∃ s1,
    closeTunnel (Some "localhost@8000") [] one_tunnel = Some s1
    ∧ let s2 := handle s1 (child_exit 0 (Some 255%Z)) in
      activeTunnels s2 = activeTunnels s1
      ∧ emitted s2 = emitted s1
      ∧ (exitCode <$> children s2 !! 0) = Some (Some 255%Z)
      ∧ kills s2 0 = kills s1 0.
Proof.
  exact (exit_after_closeTunnel alice_at_example one_call one_tunnel
           "localhost@8000" tunnel_9000 (Some 255%Z) eq_refl eq_refl).
Defined.

(** For X6: the tunnel is closed, asked for again by name, and then the
    first child, ended by the signal, exits. *)
Lemma exit_of_first_child_unregisters_second :
  ∃ s1 new,
    closeTunnel (Some "localhost@8000") [] one_tunnel = Some s1
    ∧ let '(s2, p) := addTunnel forward_named s1 in
      let s3 := handle s2 (child_exit 0 None) in
      let s4 := handle s3 (grace_timeout (process new)) in
      getTunnel "localhost@8000" s2 = Some new
      ∧ process new ≠ 0
      ∧ getTunnel "localhost@8000" s3 = None
      ∧ length (emitted s3) = length (emitted s2) + 2
      ∧ promise_of s4 p = Fulfilled new
      ∧ getTunnel "localhost@8000" s4 = None
      ∧ kills s4 (process new) = Some 0.
Proof.
  exact (exit_of_closed_child_unregisters_successor alice_at_example one_call
           one_tunnel "localhost@8000" tunnel_9000 forward_named None
           eq_refl eq_refl eq_refl eq_refl ltac:(discriminate)).
Defined.

(** For X7: the child of the tunnel exits with code 0. *)
Lemma exit_0_keeps_entry :
  let s1 := handle one_tunnel (child_exit 0 (Some 0%Z)) in
  getTunnel "localhost@8000" s1 = Some tunnel_9000
  ∧ emitted s1 = emitted one_tunnel
  ∧ (exitCode <$> children s1 !! 0) = Some (Some 0%Z)
  ∧ ∃ s2, addTunnel forward_named s1 = (s2, resolved_with tunnel_9000)
          ∧ children s2 = children s1.
Proof.
  exact (clean_exit_keeps_entry alice_at_example one_call one_tunnel
           "localhost@8000" tunnel_9000 forward_named eq_refl eq_refl eq_refl).
Defined.

(** For X8: the child finds the local port taken and is then ended by the
    signal. *)
Lemma port_taken_then_timer :
  let data := "bind [127.0.0.1]:9000: Address already in use" in
  let failure := Error ("Failed to create tunnel: " +:+ data) in
  let s1 := handle one_tunnel (child_stderr 0 data) in
  let s2 := run s1 [child_exit 0 None; grace_timeout 0] in
  promise_of s1 (of_child 0) = Rejected failure
  ∧ activeTunnels s1 = delete "localhost@8000" (activeTunnels one_tunnel)
  ∧ kills s1 0 = Some 1
  ∧ emitted s1 = emitted one_tunnel
  ∧ emitted s2 =
      emitted s1
      ++ emissions CHANNEL_TUNNEL STATUS_CONNECT (payload_tunnel tunnel_9000)
  ∧ promise_of s2 (of_child 0) = Rejected failure
  ∧ activeTunnels s2 = activeTunnels s1.
Proof.
  exact (fatal_stderr_then_timer one_tunnel 0 child_9000
           "bind [127.0.0.1]:9000: Address already in use" true
           eq_refl eq_refl eq_refl eq_refl).
Defined.

(** For X9: a tester waiting for [READY], output without it, and a child
    that cannot be started. *)
Lemma one_shot_not_ready :
  let config := new_config alice_at_example in
  exec config "server.sh" None no_options
    (map data_event [on_stdout "starting"]) = Pending
  ∧ execAndWaitUntil config "server.sh" ready None no_options
      (map data_event [on_stdout "starting"; on_stderr "READY"]) = Pending
  ∧ execAndWaitUntil config "server.sh" ready None no_options
      (map data_event [on_stdout "starting"; on_stderr "READY"]
       ++ error_event (Error "spawn ssh ENOENT") :: [stdout_data "READY"])
    = Rejected (Error "spawn ssh ENOENT").
Proof.
  exact (one_shot_pending_and_spawn_error (new_config alice_at_example)
           "server.sh" None ready no_options
           [on_stdout "starting"] [on_stdout "starting"; on_stderr "READY"]
           (Error "spawn ssh ENOENT") [stdout_data "READY"] eq_refl).
Defined.

(** For X11: the probe fails, everything else succeeds. *)
Lemma resolve_succeeds_despite_probe :
  ∃ r',
    resolve world_probe_fails "ssh-remote+alice%40example.com" 1
            new_RemoteSSHResolver =
      (r', returns (Fulfilled {| result_host := "localhost";
                                 result_port := 40123;
                                 connectionToken := "tok" |}))
    ∧ tunnels r' = [ {| info_localPort := 40123;
                        remotePortOrSocketPath := on_port 8000 |} ]
    ∧ sshConnection r' =
        Some (run (fst (addTunnel (tunnel_request (on_port 8000) 40123)
                          (new_SSHConnection
                             (connection_options world_probe_fails alice))))
                  [grace_timeout 0]).
Proof.
  refine (resolve_success world_probe_fails 1 new_RemoteSSHResolver
            "ssh-remote+alice%40example.com" alice eq_refl eq_refl
            {| listeningOn := on_port 8000; server_connectionToken := "tok" |}
            40123%Z tunnel_40123 _ (λ _, eq_refl) eq_refl eq_refl).
  right. vm_compute. discriminate.
Defined.

(** For X14: the host is known to run Linux, so a probe child that would
    fail makes no difference. *)
Lemma resolve_with_platform_entry :
  resolve (with_uname_child [stderr_data "uname: not found"; close_event (Some 255%Z)]
             world_port_taken)
          "ssh-remote+alice%40example.com" 1 new_RemoteSSHResolver =
    resolve world_port_taken "ssh-remote+alice%40example.com" 1
            new_RemoteSSHResolver
  ∧ ∃ rest,
      journal (fst (resolve world_port_taken "ssh-remote+alice%40example.com" 1
                            new_RemoteSSHResolver)) =
        [] ++
        [ logger_info "Resolving ssh remote authority 'ssh-remote+alice%40example.com' (attempt #1)";
          install_called
            {| arg_serverDownloadUrlTemplate := None;
               arg_defaultExtensions := [];
               arg_extraExtensions := [];
               arg_platform := Some "linux";
               arg_listenOnSocket := false |} ]
        ++ rest.
Proof.
  exact (platform_entry_replaces_probe world_port_taken
           "ssh-remote+alice%40example.com" 1 new_RemoteSSHResolver alice
           "linux" [stderr_data "uname: not found"; close_event (Some 255%Z)]
           eq_refl eq_refl eq_refl ltac:(discriminate)).
Defined.

(** For X15: [dispose()] after one successful [resolve]. *)
Lemma dispose_after_one_resolve :
  let r := resolved_all one_resolve new_RemoteSSHResolver in
  ∃ r1 closed,
    dispose ["localhost@8000"] r = Some (r1, closed)
    ∧ tunnels r1 = [] ∧ sshConnection r1 = None ∧ journal r1 = journal r
    ∧ match sshConnection r, closed with
      | Some c, Some c1 =>
          close ["localhost@8000"] c = Some c1
          ∧ activeTunnels c1 = ∅
          ∧ ∀ name tunnel, getTunnel name c = Some tunnel →
              kills c1 (process tunnel) = S <$> kills c (process tunnel)
      | None, None => True
      | _, _ => False
      end
    ∧ ∀ keys', dispose keys' r1 = Some (r1, None).
Proof.
  refine (dispose_after_resolves one_resolve ["localhost@8000"] _).
  intros c Hc. vm_compute in Hc. injection Hc as <-.
  unfold enumerates. vm_compute. reflexivity.
Defined.

(** For X17: a folder opened on [alice@example.com]. *)
Lemma opened_project_is_recognised :
  ∃ uri,
    openRemoteSSHLocationWindow "alice%40example.com" "/home/alice/project" false =
      [vscode_openFolder uri true]
    ∧ getRemoteWorkspaceLocationData decode_alice None (Some [uri]) =
        inr (Some ("example.com", "/home/alice/project")).
Proof.
  refine (opened_location_is_recognised decode_alice "alice%40example.com"
            "/home/alice/project" false None [] _).
  intros file Hfile. discriminate Hfile.
Defined.

(** For X18: a stored history and four calls, the last of them rejected. *)
Lemma history_after_some_updates :
  let h := updated_all some_updates
             (new_RemoteLocationHistory (Some stored_history)) in
  duplicate_free (getHistory h)
  ∧ getHistory (new_RemoteLocationHistory (stored h)) = getHistory h
  ∧ (updates h = 0 → getHistory h = stored_history).
Proof.
  refine (history_invariants (Some stored_history) some_updates _).
  intros host hostLocations Hhost.
  change (stored_history !! host = Some hostLocations) in Hhost.
  unfold stored_history in Hhost.
  apply lookup_singleton_Some in Hhost as [_ <-].
  apply (bool_decide_unpack _). vm_compute. reflexivity.
Defined.

(** For X19: the host [constructor]. *)
Lemma constructor_is_rejected :
  let h := updated_all [do_addLocation "example.com" "/srv"]
             (new_RemoteLocationHistory None) in
  getHistory h !! "constructor" = None
  ∧ addLocation "constructor" "/tmp" h =
      inl (ErrorObject "TypeError" "hostLocations.includes is not a function")
  ∧ removeLocation "constructor" "/tmp" h =
      inl (ErrorObject "TypeError" "hostLocations.filter is not a function")
  ∧ updated h (do_addLocation "constructor" "/tmp") = h
  ∧ updated h (do_removeLocation "constructor" "/tmp") = h.
Proof.
  refine (prototype_names_are_rejected None
            [do_addLocation "example.com" "/srv"] "constructor" "/tmp" _ _).
  - intros host Hhost. apply lookup_empty.
  - vm_compute. constructor.
Defined.

(** For X20: [/home/alice] moves from the second place to the first. *)
Lemma home_moves_to_front :
  let h := new_RemoteLocationHistory (Some stored_history) in
  ∃ h1 h2,
    removeLocation "example.com" "/home/alice" h = inr h1
    ∧ addLocation "example.com" "/home/alice" h1 = inr h2
    ∧ getHistory h2 !! "example.com" = Some ["/home/alice"; "/srv"]
    ∧ (∀ other, other ≠ "example.com" →
         getHistory h2 !! other = getHistory h !! other)
    ∧ stored h2 = Some (getHistory h2)
    ∧ updates h2 = 2 + updates h.
Proof.
  refine (remove_then_add_moves_to_front "example.com" "/home/alice"
            (new_RemoteLocationHistory (Some stored_history)) _).
  vm_compute. discriminate.
Defined.

(** For X21: [/home/alice], known in the second place, stays there. *)
Lemma home_stays_second :
  let h := new_RemoteLocationHistory (Some stored_history) in
  ∃ h1 hostLocations,
    addLocation "example.com" "/home/alice" h = inr h1
    ∧ getHistory h1 !! "example.com" = Some hostLocations
    ∧ "/home/alice" ∈ hostLocations
    ∧ without "/home/alice" hostLocations = ["/srv"]
    ∧ addLocation "example.com" "/home/alice" h1 = inr h1
    ∧ (∀ known, getHistory h !! "example.com" = Some known →
                "/home/alice" ∈ known → h1 = h).
Proof.
  refine (addLocation_idempotent "example.com" "/home/alice"
            (new_RemoteLocationHistory (Some stored_history)) _).
  vm_compute. discriminate.
Defined.

(** For X22: the authority [ssh-remote-old+alice%40example.com]. *)
Lemma old_authority_is_located_not_resolved :
  getRemoteWorkspaceLocationData decode_alice None
    (Some [ {| scheme := "vscode-remote";
               authority := "ssh-remote-old+alice%40example.com";
               RemoteLocationHistory.path := "/srv" |} ]) =
    inr (Some ("example.com", "/srv"))
  ∧ resolve world_probe_fails "ssh-remote-old+alice%40example.com" 1
            new_RemoteSSHResolver =
      (new_RemoteSSHResolver,
       throws (Error "Invalid authority type for SSH resolver: ssh-remote-old")).
Proof.
  exact (location_check_is_weaker_than_resolve world_probe_fails "-old"
           "alice%40example.com" "/srv" 1 new_RemoteSSHResolver
           ltac:(discriminate) eq_refl).
Defined.

(** For X23: the tunnel is established, then closed; its child exits, its
    timer fires once more, and the tunnel is asked for again. *)
Lemma established_promise_stays_fulfilled :
  promise_of reopened (of_child 0) = Fulfilled tunnel_9000.
Proof.
  exact (settled_promise_is_final established reopened closing_calls
           (of_child 0) eq_refl ltac:(discriminate)).
Defined.

(** For X24: the children of a connection with two tunnels. *)
Lemma children_of_two_tunnels :
  config two_tunnels = new_config alice_at_example
  ∧ ∀ i c, children two_tunnels !! i = Some c →
      process (closure_tunnel c) = i
      ∧ ∃ p, spread (closure_tunnel c) = set_localPort p (closure_config c)
             ∧ spawn_args c =
                 buildSSHArgs (new_config alice_at_example)
                 ++ tunnelArgs (closure_config c) p.
Proof.
  exact (children_are_spawned_by_the_connection alice_at_example two_calls
           two_tunnels eq_refl).
Defined.
